(** * OpenPlayground: the project catalogue pipeline of [js/app.js]

    A shallow embedding of the data side of [ProjectManager] (loading,
    deduplication, sorting, pagination, ratings) and of [fetchContributors],
    together with the properties the specification states about them.

    Modelling conventions.
    - A JavaScript string is a [string]; [toLowerCase] acts on the ASCII
      letters, every other character is left alone.
    - A JavaScript number that holds a count or an index is a [Z]; a number
      that holds a quotient (an average rating, a page ratio) is an exact
      rational [Q]. Counts and ratings are integers far below 2^53, where
      the doubles of the source compare and round up as the rationals do.
    - A JSON object field that may be absent is an [option]; the truthiness
      test [!x] of the source is written out ([falsy]).
    - [this.ratings], a plain object used as a dictionary, is a
      [gmap string (list RatingRecord)] of its own properties; a lookup that
      finds none of them goes on to [Object.prototype] ([property]).
    - Where a function of the source can let an exception out
      ([getProjectRating], [submitRating], the sort, [render]), its model
      returns an [option] and [None] is the exception. The loaders catch
      their own: their [None] is the [null] they return.
    - The [Set] of seen titles is a [gset string].
    - What the network answers is an input of the loading functions. *)

From Stdlib Require Import ZArith QArith Qround Ascii Lia Lqa.
From stdpp Require Import base decidable option list sorting gmap strings.

Local Open Scope Z_scope.

(** ** Strings *)

Module JsString.

(** One character of [String.prototype.toLowerCase]: [A]..[Z] (65..90) move
    to [a]..[z]. *)
Definition lower_char (c : ascii) : ascii :=
  let n := N_of_ascii c in
  if ((65 <=? n) && (n <=? 90))%N then ascii_of_N (n + 32) else c.

Fixpoint toLowerCase (s : string) : string :=
  match s with
  | EmptyString => EmptyString
  | String c s' => String (lower_char c) (toLowerCase s')
  end.

(** [startsWith s t]: [t] is a prefix of [s]. *)
Fixpoint startsWith (s t : string) : bool :=
  match t, s with
  | EmptyString, _ => true
  | String _ _, EmptyString => false
  | String b t', String a s' => if decide (a = b) then startsWith s' t' else false
  end.

(** [String.prototype.includes]: [t] occurs somewhere in [s]. *)
Fixpoint includes (s t : string) : bool :=
  startsWith s t ||
  match s with
  | EmptyString => false
  | String _ s' => includes s' t
  end.

(** The test of the character class [[a-zA-Z0-9]]. *)
Definition is_alnum (c : ascii) : bool :=
  let n := N_of_ascii c in
  (((48 <=? n) && (n <=? 57)) || ((65 <=? n) && (n <=? 90)) ||
   ((97 <=? n) && (n <=? 122)))%N.

(** [s.replace(/[^a-zA-Z0-9]/g, '_')]: the global flag replaces every
    character outside the class. *)
Fixpoint replace_non_alnum (s : string) : string :=
  match s with
  | EmptyString => EmptyString
  | String c s' => String (if is_alnum c then c else "_"%char) (replace_non_alnum s')
  end.

(** Truthiness of an optional string field: [undefined] and the empty string
    are falsy. *)
Definition falsy (x : option string) : bool :=
  match x with
  | None => true
  | Some s => if decide (s = "") then true else false
  end.

(** What the substring test means. *)
Definition occurs_in (t s : string) : Prop :=
  ∃ pre post : string, s = pre +:+ t +:+ post.

End JsString.
Import JsString.

(** ** Project records *)

Record Project := mkProject {
  title : option string;
  link : option string;
  category : option string;
  description : option string;
  tech : option (list string);
  icon : option string;
  coverStyle : option string;
  coverClass : option string
}.

(** ** Loading: deduplication ([fetchProjects], the filter over [seen]) *)

(** The callback of [projects.filter] reads and updates the captured set
    [seen]; the set is threaded through the traversal. *)
Definition dedup_step (seen : gset string) (project : Project)
  : bool * gset string :=
  if falsy (title project) || falsy (link project) then (false, seen)
  else
    let key := toLowerCase (default "" (title project)) in
    if decide (key ∈ seen) then (false, seen)
    else (true, {[key]} ∪ seen).

Fixpoint dedup_from (seen : gset string) (projects : list Project) : list Project :=
  match projects with
  | [] => []
  | project :: rest =>
      let '(keep, seen') := dedup_step seen project in
      if keep then project :: dedup_from seen' rest else dedup_from seen' rest
  end.

Definition deduplicate (projects : list Project) : list Project :=
  dedup_from ∅ projects.

(** ** Loading: the two sources ([fetchFromManifest], [fetchFromLegacyJson]) *)

(** What one [fetch] followed by [response.json()] comes to. *)
Inductive FetchResult (A : Type) : Type :=
  | NetworkError            (* [fetch] rejects *)
  | HttpError               (* [response.ok] is false *)
  | ParseError              (* [response.json()] rejects *)
  | Body (a : A).
Arguments NetworkError {A}.
Arguments HttpError {A}.
Arguments ParseError {A}.
Arguments Body {A} a.

(** A JSON value where a project record is expected. An object is a record
    when its title, if it has a truthy one, is a string; of an object whose
    title is another truthy value (a number, [true], an array, an object)
    the loader reads the link and nothing else. *)
Inductive JsonItem : Type :=
  | JNull                   (* [null] *)
  | JPrimitive              (* a number, a string or a boolean *)
  | JObject (p : Project)
  | JNonTextTitle (l : option string).

Record ManifestEntry := mkEntry {
  path : string;
  entry_link : option string;
  folder : string
}.

(** [manifest.projects] is [None] when the document has no such array. *)
Record Manifest := mkManifest {
  manifest_count : Z;
  manifest_projects : option (list ManifestEntry)
}.

(** The legacy document: an array of items, or some other JSON value. *)
Inductive LegacyJson : Type :=
  | LegacyArray (items : list JsonItem)
  | LegacyOther.

(** The static files as one call of the loader finds them. *)
Record Network := mkNetwork {
  manifest_file : FetchResult Manifest;            (* ./project-manifest.json *)
  project_file : string → FetchResult JsonItem;    (* entry.path *)
  legacy_file : FetchResult LegacyJson             (* ./projects.json *)
}.

Definition set_link (l : option string) (p : Project) : Project :=
  mkProject (title p) l (category p) (description p) (tech p)
            (icon p) (coverStyle p) (coverClass p).

(** The callback of [manifest.projects.map]: [None] is the [null] it returns.
    Assigning [projectData.link] on [null] or on a primitive throws (the file
    is a module, hence strict), and the [catch] turns that into [null]. On
    any object the assignment goes through. *)
Definition load_entry (net : Network) (entry : ManifestEntry) : option JsonItem :=
  match project_file net (path entry) with
  | Body (JObject projectData) => Some (JObject (set_link (entry_link entry) projectData))
  | Body (JNonTextTitle _) => Some (JNonTextTitle (entry_link entry))
  | Body JNull | Body JPrimitive => None
  | HttpError => None
  | NetworkError | ParseError => None
  end.

(** [results.filter(p => p !== null)] after [Promise.all]. *)
Definition fetchFromManifest (net : Network) : option (list JsonItem) :=
  match manifest_file net with
  | Body manifest =>
      match manifest_projects manifest with
      | Some entries =>
          let results := load_entry net <$> entries in
          Some (omap id results)
      | None => None        (* [.map] of [undefined] throws, caught *)
      end
  | HttpError => None
  | NetworkError | ParseError => None
  end.

Definition fetchFromLegacyJson (net : Network) : LegacyJson :=
  match legacy_file net with
  | Body json => json
  | HttpError => LegacyArray []     (* thrown and caught in place *)
  | NetworkError | ParseError => LegacyArray []
  end.

(** How far the [try] block of [fetchProjects] gets with the data: to the
    store, or to an exception, which the [catch] answers by putting the
    message "Failed to load projects. Please refresh." in the grid, where
    the page has one. Once the store is there, an engine is built over it
    and [render] is called, still inside the [try]; what [render] does then
    is [render] below, and when it throws the same [catch] applies. *)
Inductive LoadOutcome : Type :=
  | Loaded (allProjects : list Project)
  | LoadError.

Definition empty_record : Project :=
  mkProject None None None None None None None None.

(** What the callback of [projects.filter] has before it: reading
    [project.title] throws on [null] and finds nothing on a primitive. A
    title that is truthy and not a string passes [!project.title]; the item
    is then dropped for want of a link, as a record without a title is, or
    else [project.title.toLowerCase] is not a function and the call throws.
    [None] is the exception, which does not depend on the titles seen. *)
Definition item_record (item : JsonItem) : option Project :=
  match item with
  | JNull => None
  | JPrimitive => Some empty_record
  | JObject p => Some p
  | JNonTextTitle l => if falsy l then Some empty_record else None
  end.

(** [fetchProjects]. The source binds [projects] to [fetchFromManifest()]
    twice in a row; both calls are made, each against the network as it
    finds it, and the second binding is the one in use. [net3] is the network
    at the time of the legacy call. *)
Definition fetchProjects (net1 net2 net3 : Network) : LoadOutcome :=
  let projects := fetchFromManifest net1 in
  let projects := fetchFromManifest net2 in
  let projects :=
    match projects with
    | None | Some [] => fetchFromLegacyJson net3
    | Some ps => LegacyArray ps
    end in
  match projects with
  | LegacyOther => LoadError                (* [projects.filter] is not a function *)
  | LegacyArray items =>
      match mapM item_record items with
      | None => LoadError                   (* the callback threw *)
      | Some records => Loaded (deduplicate records)
      end
  end.

(** ** Ratings *)

Record RatingRecord := mkRating {
  rating : Z;
  review : string;
  timestamp : Z
}.

Record RatingSummary := mkSummary {
  average : Q;
  count : Z
}.

Definition sanitizeKey (title : string) : string :=
  toLowerCase (replace_non_alnum title).

(** [this.ratings] is a plain object, so [this.ratings[key]] finds the
    properties of [Object.prototype] where the object has none of its own.
    The keys asked for come out of [sanitizeKey], which leaves no upper-case
    letter: of the names on the prototype only these two can be asked for
    ([sanitizeKey_prototype_names] below). *)
Definition inherited (key : string) : bool :=
  bool_decide (key = "constructor" ∨ key = "__proto__").

(** What [this.ratings[key]] evaluates to: an array of the object's own,
    [undefined], or the inherited value, which is the function [Object] for
    [constructor] and the prototype itself for [__proto__]. Both are truthy,
    neither is an array, and neither has a [length] of 0. *)
Inductive Property : Type :=
  | Own (projectRatings : list RatingRecord)
  | Inherited
  | Undefined.

Definition property (ratings : gmap string (list RatingRecord)) (key : string)
  : Property :=
  match ratings !! key with
  | Some projectRatings => Own projectRatings
  | None => if inherited key then Inherited else Undefined
  end.

(** [getProjectRating]. On an inherited value [|| []] keeps the value, its
    [length] is not 0, and [reduce] is not a function: a [TypeError]. *)
Definition getProjectRating (ratings : gmap string (list RatingRecord))
    (projectTitle : string) : option RatingSummary :=
  let key := sanitizeKey projectTitle in
  match property ratings key with
  | Inherited => None
  | Own _ | Undefined =>
      let projectRatings := default [] (ratings !! key) in
      if decide (length projectRatings = 0%nat) then Some (mkSummary 0 0)
      else
        let sum := fold_left (λ acc r, acc + rating r) projectRatings 0 in
        Some (mkSummary (inject_Z sum / inject_Z (Z.of_nat (length projectRatings)))
                        (Z.of_nat (length projectRatings)))
  end.

(** [submitRating]; [now] is the value of [Date.now()]. The new map is also
    what [saveRatings] writes to local storage. On an inherited value the
    test [!this.ratings[key]] fails, no array is put there, and [push] is not
    a function: a [TypeError], and nothing is stored or saved. *)
Definition submitRating (ratings : gmap string (list RatingRecord))
    (projectTitle : string) (rating : Z) (review : string) (now : Z)
  : option (gmap string (list RatingRecord)) :=
  let key := sanitizeKey projectTitle in
  match property ratings key with
  | Inherited => None
  | Own _ | Undefined =>
      let ratings :=
        match ratings !! key with
        | None => <[key := []]> ratings
        | Some _ => ratings
        end in
      Some (<[key := default [] (ratings !! key) ++ [mkRating rating review now]]> ratings)
  end.

(** ** The visibility engine ([core/projectVisibilityEngine.js]) *)

Module ProjectVisibilityEngine.

Record State := mkState {
  searchQuery : string;
  category_filter : option string;      (* [None]: unset *)
  currentPage : Z;
  itemsPerPage : Z
}.

Record t := mk {
  projects : list Project;
  state : State
}.

(** Modelled from the spec: the constructor of the engine, whose module is
    imported by [app.js] but is not among the sources. A fresh engine has an
    empty query and shows every category. *)
Definition new (projects : list Project) : t :=
  mk projects (mkState "" None 1 0).

(** Modelled from the spec: the setters of the missing module, which are
    pure and touch one parameter each. *)
Definition setSearchQuery (q : string) (e : t) : t :=
  mk (projects e)
     (mkState q (category_filter (state e)) (currentPage (state e)) (itemsPerPage (state e))).

Definition setCategory (c : string) (e : t) : t :=
  mk (projects e)
     (mkState (searchQuery (state e)) (Some c) (currentPage (state e)) (itemsPerPage (state e))).

Definition setPage (p : Z) (e : t) : t :=
  mk (projects e)
     (mkState (searchQuery (state e)) (category_filter (state e)) p (itemsPerPage (state e))).

Definition setItemsPerPage (n : Z) (e : t) : t :=
  mk (projects e)
     (mkState (searchQuery (state e)) (category_filter (state e)) (currentPage (state e)) n).

(** The strings of a record the query is looked for in; an absent optional
    field contributes no text. *)
Definition searchable (p : Project) : list string :=
  default "" (title p) :: default "" (description p) :: default [] (tech p).

(** Modelled from the spec: the category test of the missing module, an exact
    match, or every record when the category is "all" or unset. *)
Definition matchesCategory (c : option string) (p : Project) : bool :=
  match c with
  | None => true
  | Some c =>
      if decide (c = "all") then true
      else if decide (category p = Some c) then true else false
  end.

(** Modelled from the spec: the search test of the missing module, the query
    as a case-insensitive substring of the title, the description or a tech
    entry. *)
Definition matchesSearch (q : string) (p : Project) : bool :=
  existsb (λ field, includes (toLowerCase field) (toLowerCase q)) (searchable p).

(** Modelled from the spec: [getVisibleProjects] of the missing module, the
    records of the store that pass both tests, in store order; the whole
    filter is recomputed on every call and the result is a fresh array. *)
Definition getVisibleProjects (e : t) : list Project :=
  List.filter
    (λ p, matchesCategory (category_filter (state e)) p &&
          matchesSearch (searchQuery (state e)) p)
    (projects e).

End ProjectVisibilityEngine.

(** ** Sorting and paging ([render]) *)

(** [Array.prototype.sort(comparefn)]. The language fixes the result, not the
    algorithm: the sort is stable, and sorted whenever [comparefn] is
    consistent. Insertion from the right is the model; [sort_unique] below
    shows that every stable sort returns the same array. *)
Section ArraySort.
Context {A : Type} (comparefn : A → A → Q).

Fixpoint insert_sorted (x : A) (l : list A) : list A :=
  match l with
  | [] => [x]
  | y :: l' =>
      if Qle_bool (comparefn x y) 0 then x :: y :: l'
      else y :: insert_sorted x l'
  end.

Definition sort (l : list A) : list A := foldr insert_sorted [] l.
End ArraySort.

(** The same with a [comparefn] that can throw: its exception ends the sort.
    Which pairs are compared is the implementation's choice. In an array of
    two records or more every record is compared with another one at least
    once, here as in any implementation, so a [comparefn] that fails on a
    record, whatever it is compared with, fails under every choice alike
    ([sortM_None] below). *)
Section ArraySortThrowing.
Context {A : Type} (comparefn : A → A → option Q).

Fixpoint insert_sortedM (x : A) (l : list A) : option (list A) :=
  match l with
  | [] => Some [x]
  | y :: l' =>
      c ← comparefn x y;
      if Qle_bool c 0 then Some (x :: y :: l')
      else (y ::.) <$> insert_sortedM x l'
  end.

Definition sortM (l : list A) : option (list A) :=
  foldr (λ x sorted, sorted ≫= insert_sortedM x) (Some []) l.
End ArraySortThrowing.

(** [Array.prototype.slice(start, end)] on integer arguments: a negative
    argument counts from the end, and both are clamped to the length. *)
Definition slice {A : Type} (l : list A) (start end_ : Z) : list A :=
  let len := Z.of_nat (length l) in
  let k := if start <? 0 then Z.max (len + start) 0 else Z.min start len in
  let final := if end_ <? 0 then Z.max (len + end_) 0 else Z.min end_ len in
  take (Z.to_nat (final - k)) (drop (Z.to_nat k) l).

Record Config := mkConfig {
  ITEMS_PER_PAGE : Z;
  ANIMATION_DELAY : Z
}.

Definition default_config : Config := mkConfig 12 50.

(** What one call of [render] decides: the page, the page count, whether the
    empty state is shown, and the count handed to [renderPagination]. *)
Record Rendered := mkRendered {
  pageItems : list Project;
  totalPages : Z;
  emptyState : bool;
  paginationPages : Z
}.

(** The grid of cards as [render] finds it ([el.projectsGrid]): absent from
    the page, holding the skeleton cards that [showSkeletonCards] put there,
    or holding none. *)
Inductive Grid : Type :=
  | GridAbsent
  | GridSkeleton
  | GridCards.

Section Render.
(** [String.prototype.localeCompare] belongs to the host; the pipeline is
    stated for any collation. *)
Variable localeCompare : string → string → Z.
Variable ratings : gmap string (list RatingRecord).

Definition titleOf (p : Project) : string := default "" (title p).

(** [this.getProjectRating(p.title).average] *)
Definition ratingOf (p : Project) : option Q :=
  average <$> getProjectRating ratings (titleOf p).

(** [el.sortSelect?.value || 'default'] *)
Definition sortModeOf (sortSelect : option string) : string :=
  if falsy sortSelect then "default" else default "" sortSelect.

(** The chain of [if]s over [sortMode]; [sort] and [reverse] act on the
    array [getVisibleProjects] has just built. The comparators of the two
    rating modes read the rating of [a], then that of [b], and throw when
    [getProjectRating] does. *)
Definition applySort (sortMode : string) (filtered : list Project)
  : option (list Project) :=
  if decide (sortMode = "az") then
    Some (sort (λ a b, inject_Z (localeCompare (titleOf a) (titleOf b))) filtered)
  else if decide (sortMode = "za") then
    Some (sort (λ a b, inject_Z (localeCompare (titleOf b) (titleOf a))) filtered)
  else if decide (sortMode = "newest") then Some (reverse filtered)
  else if decide (sortMode = "rating-high") then
    sortM (λ a b, ratingA ← ratingOf a; ratingB ← ratingOf b;
                  Some (ratingB - ratingA)%Q) filtered
  else if decide (sortMode = "rating-low") then
    sortM (λ a b, ratingA ← ratingOf a; ratingB ← ratingOf b;
                  Some (ratingA - ratingB)%Q) filtered
  else Some filtered.

(** [Math.ceil(filtered.length / ITEMS_PER_PAGE)] *)
Definition pageCount {A : Type} (filtered : list A) (itemsPerPage : Z) : Z :=
  Qceiling (inject_Z (Z.of_nat (length filtered)) / inject_Z itemsPerPage).

Definition pageOf {A : Type} (filtered : list A) (currentPage itemsPerPage : Z) : list A :=
  let start := (currentPage - 1) * itemsPerPage in
  slice filtered start (start + itemsPerPage).

(** [renderCardView], for what it reads of the ratings: the summary shown on
    each card, in turn. The markup is left out. *)
Definition renderCardView (projects : list Project) : option (list RatingSummary) :=
  mapM (λ project, getProjectRating ratings (titleOf project)) projects.

(** [render], once the engine exists. When the grid holds no skeleton card
    the cards of the page are drawn at once, in either view mode and before
    the empty state and the pager are dealt with; over skeleton cards they
    are drawn later, from a timer, and [render] goes on without them. *)
Definition render (config : Config) (engine : ProjectVisibilityEngine.t)
    (sortSelect : option string) (currentPage : Z) (grid : Grid) : option Rendered :=
  let engine := ProjectVisibilityEngine.setPage currentPage engine in
  let filtered := ProjectVisibilityEngine.getVisibleProjects engine in
  filtered ← applySort (sortModeOf sortSelect) filtered;
  let totalPages := pageCount filtered (ITEMS_PER_PAGE config) in
  let pageItems := pageOf filtered currentPage (ITEMS_PER_PAGE config) in
  _ ← match grid with
      | GridCards => renderCardView pageItems
      | GridAbsent | GridSkeleton => Some []
      end;
  if decide (length pageItems = 0%nat)
  then Some (mkRendered pageItems totalPages true 0)
  else Some (mkRendered pageItems totalPages false totalPages).
End Render.

(** A collation for the examples: the order of [localeCompare] on ASCII
    letters and digits, which ignores case first and, between strings that
    differ in case only, puts the lower-case letter first. *)
Module Collation.

Fixpoint compare_codes (a b : string) : comparison :=
  match a, b with
  | EmptyString, EmptyString => Eq
  | EmptyString, String _ _ => Lt
  | String _ _, EmptyString => Gt
  | String x a', String y b' =>
      match N.compare (N_of_ascii x) (N_of_ascii y) with
      | Eq => compare_codes a' b'
      | c => c
      end
  end.

Definition sign (c : comparison) : Z :=
  match c with Lt => -1 | Eq => 0 | Gt => 1 end.

Definition localeCompare (a b : string) : Z :=
  match compare_codes (toLowerCase a) (toLowerCase b) with
  | Eq => sign (compare_codes b a)
  | c => sign c
  end.

End Collation.

(** ** Contributors ([fetchContributors]) *)

Record Contributor := mkContributor {
  login : string;
  avatar_url : string;
  html_url : string;
  contributions : Z
}.

(** What the contributors endpoint answers, once parsed. [response.ok] is
    not looked at, so an error document is a body like any other. *)
Inductive ContributorsResponse : Type :=
  | ContributorsUnreachable                 (* [fetch] or [json()] rejects *)
  | ContributorsOther                       (* a JSON value that is no array *)
  | ContributorsArray (contributors : list Contributor).

(** What ends up in the grid. *)
Inductive ContributorsView : Type :=
  | NoGrid
  | Cards (shown : list Contributor)
  | ContributorsError.                      (* "Unable to load contributors" *)

Definition humanContributors (contributors : list Contributor) : list Contributor :=
  List.filter (λ c, negb (includes (login c) "[bot]")) contributors.

Definition fetchContributors (grid : bool) (response : ContributorsResponse)
  : ContributorsView :=
  if negb grid then NoGrid
  else
    match response with
    | ContributorsArray contributors => Cards (humanContributors contributors)
    | ContributorsOther => ContributorsError
    | ContributorsUnreachable => ContributorsError
    end.

(** ** Text helpers ([escapeHtml], [capitalize], [getSourceCodeUrl]) *)

Module Html.

(** The double quote, written by its code. *)
Definition dquote : ascii := "034"%char.

(** [s.replace(/c/g, r)] with a pattern of one literal character: every
    occurrence is replaced, and the text put in is not scanned again. *)
Fixpoint replaceAll (c : ascii) (r : string) (s : string) : string :=
  match s with
  | EmptyString => EmptyString
  | String x s' =>
      if decide (x = c) then r +:+ replaceAll c r s'
      else String x (replaceAll c r s')
  end.

(** [escapeHtml]: the five replacements, in the order of the source. *)
Definition escapeHtml (str : option string) : string :=
  if falsy str then ""
  else
    replaceAll "'" "&#039;"
      (replaceAll dquote "&quot;"
         (replaceAll ">" "&gt;"
            (replaceAll "<" "&lt;"
               (replaceAll "&" "&amp;" (default "" str))))).

(** One character of [String.prototype.toUpperCase]: [a]..[z] (97..122) move
    to [A]..[Z]. *)
Definition upper_char (c : ascii) : ascii :=
  let n := N_of_ascii c in
  if ((97 <=? n) && (n <=? 122))%N then ascii_of_N (n - 32) else c.

(** [str ? str.charAt(0).toUpperCase() + str.slice(1) : ''] *)
Definition capitalize (str : option string) : string :=
  if falsy str then ""
  else
    match default "" str with
    | EmptyString => EmptyString
    | String c rest => String (upper_char c) rest
    end.

End Html.

(** [link.match(/\.\/projects\/([^/]+)\//)]: the leftmost place where
    "./projects/" is followed by one or more characters other than "/" and
    then by "/"; the result is the captured run. *)
Module FolderMatch.

(** The longest run of characters other than "/" at the head of [s], and
    what follows it. *)
Fixpoint span_segment (s : string) : string * string :=
  match s with
  | EmptyString => (EmptyString, EmptyString)
  | String c s' =>
      if decide (c = "/"%char) then (EmptyString, s)
      else let '(seg, rest) := span_segment s' in (String c seg, rest)
  end.

(** [strip_prefix p s]: what is left of [s] after the prefix [p]. *)
Fixpoint strip_prefix (p s : string) : option string :=
  match p, s with
  | EmptyString, _ => Some s
  | String _ _, EmptyString => None
  | String a p', String b s' => if decide (a = b) then strip_prefix p' s' else None
  end.

(** The match attempted at the head of [s]. The class [[^/]+] is greedy and
    the character after it must be "/", so the run cannot be shortened to
    make the match succeed. *)
Definition match_here (s : string) : option string :=
  match strip_prefix "./projects/" s with
  | Some after =>
      match span_segment after with
      | (EmptyString, _) => None
      | (seg, String _ _) => Some seg      (* the run stops at a "/" *)
      | (_, EmptyString) => None
      end
  | None => None
  end.

Fixpoint folderMatch (link : string) : option string :=
  match match_here link with
  | Some folder => Some folder
  | None =>
      match link with
      | EmptyString => None
      | String _ link' => folderMatch link'
      end
  end.

End FolderMatch.

Section SourceUrl.
(** [encodeURIComponent] belongs to the host. *)
Variable encodeURIComponent : string → string.

Definition getSourceCodeUrl (link : option string) : string :=
  if falsy link then "#"
  else
    match FolderMatch.folderMatch (default "" link) with
    | Some folder =>
        "https://github.com/YadavAkhileshh/OpenPlayground/tree/main/projects/"
        +:+ encodeURIComponent folder
    | None => default "" link
    end.
End SourceUrl.

(** ** Stars ([generateStars]) *)

Inductive Star : Type :=
  | StarFill                (* ri-star-fill *)
  | StarHalf                (* ri-star-half-fill *)
  | StarLine.               (* ri-star-line *)

Definition star_html (s : Star) : string :=
  match s with
  | StarFill => "<i class=" +:+ String Html.dquote "ri-star-fill" +:+ String Html.dquote "></i>"
  | StarHalf => "<i class=" +:+ String Html.dquote "ri-star-half-fill" +:+ String Html.dquote "></i>"
  | StarLine => "<i class=" +:+ String Html.dquote "ri-star-line" +:+ String Html.dquote "></i>"
  end.

(** The body of the loop at index [i]. *)
Definition star_at (rating : Q) (i : Z) : Star :=
  if Qle_bool (inject_Z i) rating then StarFill
  else if Qle_bool (inject_Z i - (1 # 2)) rating then StarHalf
  else StarLine.

(** [for (let i = 1; i <= 5; i++) stars += ...] *)
Definition generateStars (rating : Q) : string :=
  fold_left (λ stars i, stars +:+ star_html (star_at rating i)) [1; 2; 3; 4; 5] "".

(** ** The pager ([renderPagination]) *)

(** The controls the pager is made of, in place of their markup. *)
Inductive PagerItem : Type :=
  | PrevButton (disabled : bool) (target : Z)
  | PageButton (page : Z) (active : bool)
  | PagerDots
  | NextButton (disabled : bool) (target : Z).

(** The body of the loop over [i]. *)
Definition pager_item (currentPage totalPages i : Z) : option PagerItem :=
  if decide (i = 1 ∨ i = totalPages ∨ (currentPage - 2 ≤ i ∧ i ≤ currentPage + 2))
  then Some (PageButton i (bool_decide (i = currentPage)))
  else if decide (i = currentPage - 3 ∨ i = currentPage + 3)
  then Some PagerDots
  else None.

(** [renderPagination]: [None] when there is no container, [Some []] when
    the container is emptied. *)
Definition renderPagination (container : bool) (currentPage totalPages : Z)
  : option (list PagerItem) :=
  if negb container then None
  else if decide (totalPages ≤ 1) then Some []
  else
    Some ([PrevButton (bool_decide (currentPage = 1)) (currentPage - 1)] ++
          omap (pager_item currentPage totalPages) (seqZ 1 totalPages) ++
          [NextButton (bool_decide (currentPage = totalPages)) (currentPage + 1)]).

(** ** A random project ([openRandomProject]) *)

(** Where the browser is sent. *)
Inductive Navigation : Type :=
  | Stay
  | GoTo (href : option string)
  | NavigationThrows.       (* [randomProject] is [undefined] *)

(** [random] is the value of [Math.random()]. *)
Definition openRandomProject (allProjects : list Project) (random : Q) : Navigation :=
  if decide (length allProjects = 0%nat) then Stay
  else
    let randomIndex := Qfloor (random * inject_Z (Z.of_nat (length allProjects))) in
    if decide (0 ≤ randomIndex) then
      match allProjects !! Z.to_nat randomIndex with
      | Some randomProject => GoTo (link randomProject)
      | None => NavigationThrows
      end
    else NavigationThrows.

(** ** The controller and its events ([setupEventListeners], [setViewMode],
    [goToPage], [showRatingModal]) *)

Module Manager.

(** [this.state], [this.ratings], and the one piece of the page that [render]
    reads back, the value of the sort selector. *)
Record State := mk {
  allProjects : list Project;
  visibilityEngine : option ProjectVisibilityEngine.t;
  viewMode : string;
  currentPage : Z;
  ratings : gmap string (list RatingRecord);
  sortSelect : option string
}.

Inductive Event : Type :=
  | SearchInput (value : string)
  | SortChange (value : string)
  | FilterClick (filter : string)
  | ViewClick (mode : string)
  | GoToPage (page : Z)
  | RatingSubmitted (projectTitle : string) (selectedRating : Z) (review : string) (now : Z).

(** The state an event leaves behind, before [render] runs. A rating is
    submitted only when a star has been chosen; when [submitRating] throws,
    the handler ends there and the state is what it was. *)
Definition handle (ev : Event) (s : State) : State :=
  match ev with
  | SearchInput value =>
      mk (allProjects s)
         (ProjectVisibilityEngine.setSearchQuery value <$> visibilityEngine s)
         (viewMode s) 1 (ratings s) (sortSelect s)
  | SortChange value =>
      mk (allProjects s) (visibilityEngine s) (viewMode s) 1 (ratings s) (Some value)
  | FilterClick filter =>
      mk (allProjects s)
         (ProjectVisibilityEngine.setCategory filter <$> visibilityEngine s)
         (viewMode s) 1 (ratings s) (sortSelect s)
  | ViewClick mode =>
      mk (allProjects s) (visibilityEngine s) mode (currentPage s) (ratings s) (sortSelect s)
  | GoToPage page =>
      mk (allProjects s) (visibilityEngine s) (viewMode s) page (ratings s) (sortSelect s)
  | RatingSubmitted projectTitle selectedRating review now =>
      if decide (0 < selectedRating) then
        match submitRating (ratings s) projectTitle selectedRating review now with
        | Some ratings' =>
            mk (allProjects s) (visibilityEngine s) (viewMode s) (currentPage s)
               ratings' (sortSelect s)
        | None => s
        end
      else s
  end.

End Manager.

(** The rating dialog: [selectedRating] starts at 0 and a click on the
    [n]-th star sets it to that star's [data-rating]. *)
Module RatingModal.

Definition stars : list Z := [1; 2; 3; 4; 5].

Definition clickStar (n : nat) (selectedRating : Z) : Z :=
  default selectedRating (stars !! n).

(** The rating chosen once the stars [clicks] have been clicked in turn. *)
Definition selected (clicks : list nat) : Z :=
  fold_left (λ selectedRating n, clickStar n selectedRating) clicks 0.

(** The dialog is opened for [project], stars are clicked, and "Submit" is
    pressed. *)
Definition submit (project : Project) (clicks : list nat) (review : string) (now : Z)
    (s : Manager.State) : Manager.State :=
  Manager.handle
    (Manager.RatingSubmitted (default "" (title project)) (selected clicks) review now) s.

End RatingModal.

Section ManagerRender.
Variable localeCompare : string → string → Z.

(** [render] in state [s]: it returns at once while there is no engine
    ([None]); otherwise it shows a page or throws ([Some None]). *)
Definition renderState (config : Config) (grid : Grid) (s : Manager.State)
  : option (option Rendered) :=
  match Manager.visibilityEngine s with
  | None => None
  | Some engine =>
      Some (render localeCompare (Manager.ratings s) config engine
                   (Manager.sortSelect s) (Manager.currentPage s) grid)
  end.
End ManagerRender.

(** ** Objects with ordered keys *)

(** A plain object whose keys are names (none of them looks like an array
    index): [Object.keys] and [Object.entries] list the properties in the
    order in which they were first set. *)
Module JsObject.
Section Obj.
Context {V : Type}.

(** [o[k]] *)
Fixpoint get (o : list (string * V)) (k : string) : option V :=
  match o with
  | [] => None
  | (k', v) :: o' => if decide (k' = k) then Some v else get o' k
  end.

(** [o[k] = v]: an existing property keeps its place, a new one goes last. *)
Fixpoint set (k : string) (v : V) (o : list (string * V)) : list (string * V) :=
  match o with
  | [] => [(k, v)]
  | (k', v') :: o' => if decide (k' = k) then (k, v) :: o' else (k', v') :: set k v o'
  end.

Definition keys (o : list (string * V)) : list string := o.*1.

End Obj.
End JsObject.

(** ** The skill tracker (the second script of [scripts/recommend-issues.js]:
    [analyzeSkills], [main]) *)

Module SkillTracker.

Definition skillMap : list (string * list string) :=
  [("react", ["react"; "jsx"; "component"; "frontend"; "ui"]);
   ("javascript", ["javascript"; "js"; "node"; "npm"; "webpack"]);
   ("python", ["python"; "django"; "flask"; "pandas"; "numpy"]);
   ("java", ["java"; "spring"; "maven"; "gradle"]);
   ("html", ["html"; "css"; "web"; "frontend"]);
   ("css", ["css"; "scss"; "sass"; "styling"]);
   ("database", ["sql"; "mysql"; "postgres"; "mongodb"; "database"]);
   ("api", ["api"; "rest"; "graphql"; "backend"]);
   ("testing", ["test"; "jest"; "mocha"; "unit test"]);
   ("ml", ["machine learning"; "ml"; "tensorflow"; "pytorch"; "ai"]);
   ("git", ["git"; "github"; "version control"]);
   ("docker", ["docker"; "container"; "kubernetes"])].

(** The inner [forEach]: one keyword of [skill]. *)
Definition count_keyword (text skill : string) (skills : list (string * Z))
    (keyword : string) : list (string * Z) :=
  if includes text keyword
  then JsObject.set skill (default 0 (JsObject.get skills skill) + 1) skills
  else skills.

Definition analyzeSkills (text : string) : list (string * Z) :=
  fold_left
    (λ skills entry, fold_left (count_keyword text entry.1) entry.2 skills)
    skillMap [].

(** A pull request as the API lists it. *)
Record ApiPull := mkApiPull {
  number : Z;
  pull_title : string;
  body : option string;
  merged_at : option string;
  created_at : string
}.

(** A pull request as the data file keeps it. *)
Record PullRecord := mkPullRecord {
  pr_number : Z;
  pr_title : string;
  pr_body : option string;
  merged : bool;
  created : string
}.

Record GrowthEntry := mkGrowth {
  date : string;
  growth_prs : Z;
  growth_skills : Z
}.

Record Contributor := mkContributor {
  skills : list (string * Q);
  prs : list PullRecord;
  languages : list (string * Z);
  growth : list GrowthEntry
}.

Definition fresh : Contributor := mkContributor [] [] [] [].

(** [data[author].skills[skill] = (data[author].skills[skill] || 0) + amount],
    for every key of [found], in their order. *)
Definition credit (weight : Q) (found : list (string * Z)) (skills : list (string * Q))
  : list (string * Q) :=
  fold_left
    (λ skills skill,
       JsObject.set skill
         (default 0%Q (JsObject.get skills skill) +
          inject_Z (default 0%Z (JsObject.get found skill)) * weight)%Q
         skills)
    (JsObject.keys found) skills.

(** [`${title} ${body || ''}`.toLowerCase()] *)
Definition text_of (title : string) (body : option string) : string :=
  toLowerCase (title +:+ " " +:+ (if falsy body then "" else default "" body)).

(** One turn of the loop over the pull requests. *)
Definition analyzePull (d : Contributor) (pr : ApiPull) : Contributor :=
  match List.find (λ p, bool_decide (pr_number p = number pr)) (prs d) with
  | Some _ => d
  | None =>
      mkContributor
        (credit 1 (analyzeSkills (text_of (pull_title pr) (body pr))) (skills d))
        (prs d ++ [mkPullRecord (number pr) (pull_title pr) (body pr)
                                (bool_decide (merged_at pr ≠ None)) (created_at pr)])
        (languages d) (growth d)
  end.

(** One turn of the loop over the commit messages. *)
Definition analyzeCommit (d : Contributor) (message : string) : Contributor :=
  mkContributor (credit (1 # 2) (analyzeSkills (toLowerCase message)) (skills d))
                (prs d) (languages d) (growth d).

(** One turn of the loop over the repositories; [language] is [None] or empty
    when the repository has none. *)
Definition countLanguage (langs : list (string * Z)) (language : option string)
  : list (string * Z) :=
  if falsy language then langs
  else JsObject.set (default "" language)
                    (default 0 (JsObject.get langs (default "" language)) + 1) langs.

Definition updateGrowth (now : string) (d : Contributor) : Contributor :=
  match List.find (λ g, bool_decide (date g = now)) (growth d) with
  | Some _ => d
  | None =>
      mkContributor (skills d) (prs d) (languages d)
        (growth d ++ [mkGrowth now (Z.of_nat (length (prs d)))
                               (Z.of_nat (length (JsObject.keys (skills d))))])
  end.

(** [main], on the entry of [author]: [existing] is [data[author]] as read
    from the file, [pulls] and [commits] are what the API lists, [userRepos]
    is [None] when listing the repositories fails, and [now] is today's date.
    The result is the entry that is written back. *)
Definition main (existing : option Contributor) (pulls : list ApiPull)
    (commits : list string) (userRepos : option (list (option string)))
    (now : string) : Contributor :=
  let d := default fresh existing in
  let d := fold_left analyzePull pulls d in
  let d := fold_left analyzeCommit commits d in
  let d :=
    match userRepos with
    | Some repos =>
        mkContributor (skills d) (prs d) (fold_left countLanguage repos (languages d))
                      (growth d)
    | None => d
    end in
  updateGrowth now d.

End SkillTracker.

(** ** Issue recommendations ([recommendIssues]) *)

Module Recommend.

Record Label := mkLabel { name : string }.

Record Issue := mkIssue {
  number : Z;
  issue_title : string;
  body : option string;
  labels : list Label;
  html_url : string
}.

Record Recommendation := mkRecommendation {
  rec_number : Z;
  rec_title : string;
  score : Q;
  matchedSkills : list string;
  rec_url : string
}.

Record BeginnerIssue := mkBeginner {
  beginner_number : Z;
  beginner_title : string;
  beginner_url : string
}.

(** The object returned: for a contributor without an entry it is
    [{ recommendations: [], beginner: true }]. *)
Inductive Result : Type :=
  | NoEntry
  | Recommended (recommendations : list Recommendation)
                (beginner : list BeginnerIssue) (topSkills : list string).

Section ForContributor.
Variable userSkills : list (string * Q).

(** [userSkills[skill]] *)
Definition level (skill : string) : Q := default 0%Q (JsObject.get userSkills skill).

(** [Object.keys(userSkills).sort((a, b) => userSkills[b] - userSkills[a]).slice(0, 3)] *)
Definition topSkillsOf : list string :=
  slice (sort (λ a b, level b - level a)%Q (JsObject.keys userSkills)) 0 3.

(** The [forEach] over the top skills, for one issue: the score and the
    matched skills. *)
Definition scoreIssue (topSkills : list string) (issue : Issue) : Q * list string :=
  let text := SkillTracker.text_of (issue_title issue) (body issue) in
  fold_left
    (λ acc skill,
       if includes text skill then ((acc.1 + level skill)%Q, acc.2 ++ [skill]) else acc)
    topSkills (0%Q, []).

(** One turn of the loop over the issues. *)
Definition classify (topSkills : list string)
    (acc : list Recommendation * list BeginnerIssue) (issue : Issue)
  : list Recommendation * list BeginnerIssue :=
  let '(score, matched) := scoreIssue topSkills issue in
  if Qlt_le_dec 0 score then
    (acc.1 ++ [mkRecommendation (number issue) (issue_title issue) score matched
                                (html_url issue)], acc.2)
  else if existsb (λ l, bool_decide (name l = "good first issue")) (labels issue) then
    (acc.1, acc.2 ++ [mkBeginner (number issue) (issue_title issue) (html_url issue)])
  else acc.

Definition recommendFrom (issues : list Issue) : Result :=
  let topSkills := topSkillsOf in
  let '(recommendations, beginnerIssues) :=
    fold_left (classify topSkills) issues ([], []) in
  let recommendations := sort (λ a b, score b - score a)%Q recommendations in
  Recommended (slice recommendations 0 5) (slice beginnerIssues 0 3) topSkills.

End ForContributor.

(** [recommendIssues]: [entry] is [data[username]], its skills, and [issues]
    is what the API lists. *)
Definition recommendIssues (entry : option (list (string * Q))) (issues : list Issue)
  : Result :=
  match entry with
  | None => NoEntry
  | Some userSkills => recommendFrom userSkills issues
  end.

End Recommend.

(** ** The contributor dashboard ([displaySkillProfile], [createRadarChart],
    [displayStats]) *)

Module Dashboard.

(** [Object.entries(skills).sort(([,a], [,b]) => b - a)] *)
Definition byLevel (skills : list (string * Q)) : list (string * Q) :=
  sort (λ a b, b.2 - a.2)%Q skills.

(** The rows of the skill list. *)
Definition sortedSkills (skills : list (string * Q)) : list (string * Q) :=
  slice (byLevel skills) 0 10.

(** The axes of the radar chart. *)
Definition radarSkills (skills : list (string * Q)) : list (string * Q) :=
  slice (byLevel skills) 0 6.

(** The four cards of [displayStats]. *)
Definition displayStats (userData : SkillTracker.Contributor) : list (string * Z) :=
  [("Total PRs", Z.of_nat (length (SkillTracker.prs userData)));
   ("Skills", Z.of_nat (length (JsObject.keys (SkillTracker.skills userData))));
   ("Languages", Z.of_nat (length (JsObject.keys (SkillTracker.languages userData))));
   ("Growth Days", Z.of_nat (length (SkillTracker.growth userData)))].

End Dashboard.

(** ** Words of the specification *)

(** *** Deduplication *)

(** A field is present when it is neither [undefined] nor empty. *)
Definition present (x : option string) : Prop := ∃ s, x = Some s ∧ s ≠ "".

(** A record has both mandatory fields. *)
Definition complete (p : Project) : Prop := present (title p) ∧ present (link p).

(** The case-normalised title. *)
Definition title_key (p : Project) : string := toLowerCase (default "" (title p)).

(** The set [seen] once the traversal of [projects] is over. *)
Fixpoint seen_after (seen : gset string) (projects : list Project) : gset string :=
  match projects with
  | [] => seen
  | project :: rest => seen_after (snd (dedup_step seen project)) rest
  end.

(** The record [p], met after the records [before], is the first complete
    record with its case-normalised title. *)
Definition first_occurrence (before : list Project) (p : Project) : Prop :=
  complete p ∧ ∀ p', p' ∈ before → complete p' → title_key p' ≠ title_key p.

Definition Foo : Project :=
  mkProject (Some "Foo") (Some "./projects/foo/index.html") (Some "utility")
            None None None None None.

Definition foo : Project :=
  mkProject (Some "foo") (Some "./projects/foo-2/index.html") (Some "game")
            None None None None None.

Definition untitled : Project :=
  mkProject None (Some "./projects/x/index.html") None None None None None None.

Definition unlinked : Project :=
  mkProject (Some "Bar") None None None None None None None.

(** *** Selections *)

(** [selects P l r]: [r] is the subsequence of [l] made of the elements that
    satisfy [P], each kept where it stands. *)
Inductive selects {A : Type} (P : A → Prop) : list A → list A → Prop :=
  | selects_nil : selects P [] []
  | selects_keep x l r : P x → selects P l r → selects P (x :: l) (x :: r)
  | selects_drop x l r : ¬ P x → selects P l r → selects P (x :: l) r.

(** The record is in the category asked for. *)
Definition in_category (c : option string) (p : Project) : Prop :=
  c = None ∨ c = Some "all" ∨ category p = c.

(** The query occurs, whatever the case, in one of the record's strings. *)
Definition contains_query (q : string) (p : Project) : Prop :=
  ∃ field, field ∈ ProjectVisibilityEngine.searchable p ∧ occurs_in (toLowerCase q) (toLowerCase field).

Definition visible (c : option string) (q : string) (p : Project) : Prop :=
  in_category c p ∧ contains_query q p.

(** The login is that of an automated account. *)
Definition is_bot (c : Contributor) : Prop := occurs_in "[bot]" (login c).

(** *** Sorting *)

(** A comparator is consistent when "compares at most 0" is a total
    preorder. *)
Definition consistent {A : Type} (comparefn : A → A → Q) : Prop :=
  (∀ a b, (comparefn a b <= 0)%Q ∨ (comparefn b a <= 0)%Q) ∧
  (∀ a b c, (comparefn a b <= 0)%Q → (comparefn b c <= 0)%Q → (comparefn a c <= 0)%Q).

(** [a] stands before [b] in [l]. *)
Definition before {A : Type} (a b : A) (l : list A) : Prop :=
  ∃ l1 l2 l3, l = l1 ++ a :: l2 ++ b :: l3.

(** A collation is consistent when "at most 0" is a total preorder on
    strings. *)
Definition consistent_collation (localeCompare : string → string → Z) : Prop :=
  (∀ a b, localeCompare a b ≤ 0 ∨ localeCompare b a ≤ 0) ∧
  (∀ a b c, localeCompare a b ≤ 0 → localeCompare b c ≤ 0 → localeCompare a c ≤ 0).

Definition titled (t : string) : Project :=
  mkProject (Some t) (Some "./projects/demo/index.html") None None None None None None.

(** Every record of [l] has a rating summary to read: [getProjectRating]
    returns on its title. *)
Definition rated (ratings : gmap string (list RatingRecord)) (l : list Project) : Prop :=
  ∀ p, p ∈ l → is_Some (getProjectRating ratings (titleOf p)).

(** The rating sorts run through on [l]: nothing is compared in a list of
    fewer than two records, and otherwise every record has a summary. *)
Definition comparable (ratings : gmap string (list RatingRecord)) (l : list Project)
  : Prop :=
  (length l ≤ 1)%nat ∨ rated ratings l.

(** The average rating of a record, where it has one to read. *)
Definition averageOf (ratings : gmap string (list RatingRecord)) (p : Project) : Q :=
  default 0%Q (ratingOf ratings p).

#[local] Instance Qeq_decision (x y : Q) : Decision (x == y)%Q := Qeq_dec x y.

(** *** Ratings *)

(** [r_1 + ... + r_n] *)
Definition total_rating (rs : list RatingRecord) : Z :=
  foldr (λ r acc, rating r + acc) 0 rs.

(** Two characters that [sanitizeKey] does not tell apart: both outside
    [[a-zA-Z0-9]], or the same letter or digit up to case. *)
Definition same_char (c1 c2 : ascii) : Prop :=
  (is_alnum c1 = false ∧ is_alnum c2 = false) ∨
  (is_alnum c1 = true ∧ is_alnum c2 = true ∧ lower_char c1 = lower_char c2).

(** Two titles that differ only in letter case or in the characters that are
    neither letters nor digits. *)
Inductive similar : string → string → Prop :=
  | similar_empty : similar "" ""
  | similar_char c1 c2 s1 s2 :
      same_char c1 c2 → similar s1 s2 → similar (String c1 s1) (String c2 s2).

(** *** Loading *)

(** The manifest call comes back with [null]: the document cannot be
    fetched or parsed, or it has no list of projects. *)
Definition manifest_fails (net : Network) : Prop :=
  ∀ manifest, manifest_file net = Body manifest → manifest_projects manifest = None.

(** The per-project document of an entry cannot be fetched or parsed, or is
    no object. *)
Definition entry_fails (net : Network) (entry : ManifestEntry) : Prop :=
  ∀ item, project_file net (path entry) = Body item → item = JNull ∨ item = JPrimitive.

(** The record an entry brings in when its document is a record: the
    document, under the link of the entry. *)
Definition entry_record (net : Network) (entry : ManifestEntry) : option Project :=
  match project_file net (path entry) with
  | Body (JObject projectData) => Some (set_link (entry_link entry) projectData)
  | _ => None
  end.

(** No document of the entries has a title that is not text. *)
Definition text_titles (net : Network) (entries : list ManifestEntry) : Prop :=
  ∀ entry l, entry ∈ entries → project_file net (path entry) ≠ Body (JNonTextTitle l).

(** The manifest call comes back with no record: the list is there, and
    every one of its entries fails. *)
Definition manifest_empty (net : Network) : Prop :=
  ∃ manifest entries,
    manifest_file net = Body manifest ∧
    manifest_projects manifest = Some entries ∧
    ∀ entry, entry ∈ entries → entry_fails net entry.

(** The legacy call comes back with the empty list it substitutes for an
    error, or with a catalogue that is empty. *)
Definition legacy_fails (net : Network) : Prop :=
  ∀ json, legacy_file net = Body json → json = LegacyArray [].

(** The same files under another manifest. *)
Definition with_entries (net : Network) (entries : list ManifestEntry) : Network :=
  mkNetwork (Body (mkManifest (Z.of_nat (length entries)) (Some entries)))
            (project_file net) (legacy_file net).

(** The callback of the filter throws on [item]: it is [null], or an object
    with a link whose title is truthy and not a string. *)
Definition item_throws (item : JsonItem) : Prop :=
  item = JNull ∨ ∃ l, item = JNonTextTitle l ∧ falsy l = false.

(** Nothing can be fetched. *)
Definition offline : Network :=
  mkNetwork NetworkError (λ _, NetworkError) NetworkError.

(** *** Data of the examples *)

Definition clock : Project :=
  mkProject (Some "Analog Clock") (Some "./projects/clock/index.html") (Some "utility")
            (Some "A clock drawn on a canvas") (Some ["HTML"; "Canvas"]) None None None.

Definition snake : Project :=
  mkProject (Some "Snake") (Some "./projects/snake/index.html") (Some "game")
            (Some "The classic game") (Some ["JavaScript"; "canvas"]) None None None.

Definition todo : Project :=
  mkProject (Some "Todo") (Some "./projects/todo/index.html") (Some "utility")
            None None None None None.

(** Snake is rated 4 and 5, Todo 3; the clock is not rated and counts as 0. *)
Definition some_ratings : gmap string (list RatingRecord) :=
  {[ "snake" := [mkRating 4 "" 10; mkRating 5 "" 30];
     "todo" := [mkRating 3 "fine" 20] ]}.

(** *** Text helpers *)

(** The entity, or the character itself, that stands for [c]. *)
Definition escape_char (c : ascii) : string :=
  if decide (c = "&"%char) then "&amp;"
  else if decide (c = "<"%char) then "&lt;"
  else if decide (c = ">"%char) then "&gt;"
  else if decide (c = Html.dquote) then "&quot;"
  else if decide (c = "'"%char) then "&#039;"
  else String c "".

(** Escaping character by character. *)
Fixpoint escape (s : string) : string :=
  match s with
  | EmptyString => EmptyString
  | String c s' => escape_char c +:+ escape s'
  end.

(** The character [c] occurs in [s]. *)
Fixpoint has_char (c : ascii) (s : string) : Prop :=
  match s with
  | EmptyString => False
  | String x s' => x = c ∨ has_char c s'
  end.

(** [s] has no "/" in it. *)
Definition slash_free (s : string) : Prop := ¬ has_char "/" s.

(** A folder can be captured somewhere in [link]. *)
Definition has_folder (link : string) : Prop :=
  ∃ folder, folder ≠ "" ∧ slash_free folder ∧
            occurs_in ("./projects/" +:+ folder +:+ "/") link.

#[local] Instance Qle_decision (x y : Q) : Decision (x <= y)%Q :=
  match Qlt_le_dec y x with
  | left H => right (Qlt_not_le _ _ H)
  | right H => left H
  end.

(** *** Stored ratings *)

(** Every stored rating is one of 1..5. *)
Definition ratings_valid (ratings : gmap string (list RatingRecord)) : Prop :=
  ∀ key rs r, ratings !! key = Some rs → r ∈ rs → 1 ≤ rating r ≤ 5.

(** *** The pager *)

(** The page a control leads to, when it is a numbered button. *)
Definition button_page (item : PagerItem) : option Z :=
  match item with
  | PageButton page _ => Some page
  | _ => None
  end.

(** Page [i] gets a numbered button: it is the first page, the last, or
    within two pages of the current one. *)
Definition has_button (currentPage totalPages i : Z) : Prop :=
  1 ≤ i ≤ totalPages ∧
  (i = 1 ∨ i = totalPages ∨ currentPage - 2 ≤ i ≤ currentPage + 2).

(** *** Events *)

(** The events that change what is listed: a search, a sort choice, a
    category click. *)
Definition narrows (ev : Manager.Event) : Prop :=
  match ev with
  | Manager.SearchInput _ | Manager.SortChange _ | Manager.FilterClick _ => True
  | _ => False
  end.

(** *** Skills *)

(** The number of keywords of a list that occur in the text. *)
Definition hits (text : string) (keywords : list string) : Z :=
  Z.of_nat (length (filter (λ keyword, includes text keyword = true) keywords)).

(** The entry a skill gets in the result of [analyzeSkills], if any. *)
Definition credited (text : string) (entry : string * list string) : option (string * Z) :=
  if decide (hits text entry.2 = 0) then None else Some (entry.1, hits text entry.2).

(** What a text is credited with for a skill, 0 when the skill is not
    listed. *)
Definition credit_of (text skill : string) : Z :=
  default 0 (JsObject.get (SkillTracker.analyzeSkills text) skill).

(** The level of a skill in a contributor's entry, 0 when it is not
    listed. *)
Definition level_of (skills : list (string * Q)) (skill : string) : Q :=
  default 0%Q (JsObject.get skills skill).

(** The pull request numbers on record. *)
Definition recorded (d : SkillTracker.Contributor) : list Z :=
  SkillTracker.pr_number <$> SkillTracker.prs d.

(** *** Recommendations *)


(** The recommendation an issue gives rise to, when its score is positive. *)
Definition recommendation_of (userSkills : list (string * Q)) (topSkills : list string)
    (issue : Recommend.Issue) : option Recommend.Recommendation :=
  let scored := Recommend.scoreIssue userSkills topSkills issue in
  if Qlt_le_dec 0 scored.1
  then Some (Recommend.mkRecommendation (Recommend.number issue) (Recommend.issue_title issue)
               scored.1 scored.2 (Recommend.html_url issue))
  else None.

(** The issue carries the label "good first issue". *)
Definition good_first_issue (issue : Recommend.Issue) : Prop :=
  ∃ l, l ∈ Recommend.labels issue ∧ Recommend.name l = "good first issue".

(** The beginner entry an issue gives rise to, when its score is not
    positive and it is labelled for beginners. *)
Definition beginner_of (userSkills : list (string * Q)) (topSkills : list string)
    (issue : Recommend.Issue) : option Recommend.BeginnerIssue :=
  let scored := Recommend.scoreIssue userSkills topSkills issue in
  if Qlt_le_dec 0 scored.1 then None
  else if existsb (λ l, bool_decide (Recommend.name l = "good first issue"))
                  (Recommend.labels issue)
  then Some (Recommend.mkBeginner (Recommend.number issue) (Recommend.issue_title issue)
               (Recommend.html_url issue))
  else None.

(** *** Keys and languages *)

(** A character a sanitized key is made of: a lower-case letter, a digit or
    the underscore. *)
Definition key_char (c : ascii) : Prop :=
  let n := N_of_ascii c in
  (97 ≤ n ≤ 122)%N ∨ (48 ≤ n ≤ 57)%N ∨ c = "_"%char.

(** Every character of [s] satisfies [P]. *)
Fixpoint all_chars (P : ascii → Prop) (s : string) : Prop :=
  match s with
  | EmptyString => True
  | String c s' => P c ∧ all_chars P s'
  end.

(** The number of repositories whose language is [lang]. *)
Definition repos_in (lang : string) (repos : list (option string)) : Z :=
  Z.of_nat (length (filter (λ language, language = Some lang) repos)).

(** * Properties *)

(** ** Substrings *)

Section StringFacts.

Lemma startsWith_spec s : ∀ t, startsWith s t = true ↔ ∃ post, s = t +:+ post.
Proof.
  induction s as [|a s IH]; intros [|b t]; simpl.
  - split; [by exists ""|done].
  - split; [done|]. by intros [post ?].
  - split; [by exists (String a s)|done].
  - destruct (decide (a = b)) as [->|Hne].
    + rewrite IH. split; intros [post Hp]; exists post; [by rewrite Hp|by injection Hp].
    + split; [done|]. intros [post Hp]. injection Hp as ? ?. done.
Qed.

Lemma includes_spec s : ∀ t, includes s t = true ↔ occurs_in t s.
Proof.
  unfold occurs_in. induction s as [|a s IH]; intros t.
  - cbn [includes]. rewrite orb_false_r, startsWith_spec. split.
    + intros [post Hp]. by exists "", post.
    + intros ([|c pre] & post & Hp); [by exists post|done].
  - cbn [includes]. rewrite orb_true_iff, startsWith_spec, IH. split.
    + intros [[post Hp]|(pre & post & Hp)].
      * by exists "", post.
      * exists (String a pre), post. by rewrite Hp.
    + intros ([|c pre] & post & Hp).
      * left. by exists post.
      * right. injection Hp as _ Hp. by exists pre, post.
Qed.

Lemma includes_empty s : includes s "" = true.
Proof. destruct s; reflexivity. Qed.

End StringFacts.

(** ** Ordered selections *)

Section Selection.
Context {A : Type}.
Implicit Types (P : A → Prop) (f : A → bool) (l r : list A).

Lemma filter_selects P f l :
  (∀ x, f x = true ↔ P x) → selects P l (List.filter f l).
Proof.
  intros Hf. induction l as [|x l IH]; simpl; [constructor|].
  destruct (f x) eqn:E.
  - constructor; [by apply Hf|done].
  - constructor; [|done]. intros HP%Hf. congruence.
Qed.

Lemma selects_functional P l r1 r2 : selects P l r1 → selects P l r2 → r1 = r2.
Proof.
  intros H1. revert r2. induction H1; intros r2 H2; inversion H2; subst;
    try done; f_equal; auto.
Qed.

Lemma selects_sublist P l r : selects P l r → sublist r l.
Proof. induction 1; by constructor. Qed.

Lemma selects_elem_of P l r x : selects P l r → (x ∈ r ↔ x ∈ l ∧ P x).
Proof.
  induction 1 as [|y l r Hy _ IH|y l r Hy _ IH].
  - split; [by intros ?%elem_of_nil|by intros [?%elem_of_nil _]].
  - rewrite !elem_of_cons, IH. split.
    + intros [->|[? ?]]; auto.
    + intros [[->|?] ?]; auto.
  - rewrite elem_of_cons, IH. split.
    + intros [? ?]; auto.
    + intros [[->|?] ?]; [done|auto].
Qed.

Lemma selects_all P l : (∀ x, x ∈ l → P x) → selects P l l.
Proof.
  induction l as [|x l IH]; intros H; constructor.
  - apply H. left.
  - apply IH. intros y Hy. apply H. by right.
Qed.

End Selection.

(** ** The visibility engine *)

Section Visibility.
Import ProjectVisibilityEngine.

Lemma matchesCategory_spec c p : matchesCategory c p = true ↔ in_category c p.
Proof.
  unfold matchesCategory, in_category. destruct c as [c|]; [|by split; auto].
  destruct (decide (c = "all")) as [->|Hne]; [by split; auto|].
  destruct (decide (category p = Some c)) as [Hc|Hc]; split; auto; try done.
  intros [?|[[= ?]|?]]; done.
Qed.

Lemma matchesSearch_spec q p : matchesSearch q p = true ↔ contains_query q p.
Proof.
  unfold matchesSearch, contains_query. rewrite existsb_exists. split.
  - intros (field & Hin & Hinc). exists field. split; [by apply list_elem_of_In|].
    by apply includes_spec.
  - intros (field & Hin & Hocc). exists field. split; [by apply list_elem_of_In|].
    by apply includes_spec.
Qed.

Lemma empty_query_matches p : contains_query "" p.
Proof.
  exists (default "" (title p)). split; [left|]. apply includes_spec, includes_empty.
Qed.

(** C1. For every store, category and query, [getVisibleProjects] returns
    exactly the records of the store that are in the category (all of them
    when it is "all" or unset) and contain the query, whatever the case, in
    the title, the description or a tech entry, each where it stands in the
    store; so the result is a subsequence of the store, a record is in it
    exactly when it is in the store and matches, and with the empty query it
    is the whole category. *)
Theorem getVisibleProjects_spec (store : list Project) (c : option string)
    (q : string) (page size : Z) :
  let shown := getVisibleProjects (mk store (mkState q c page size)) in
  selects (visible c q) store shown ∧
  sublist shown store ∧
  (∀ p, p ∈ shown ↔ p ∈ store ∧ in_category c p ∧ contains_query q p) ∧
  (q = "" → selects (in_category c) store shown).
Proof.
  intros shown.
  assert (Hsel : selects (visible c q) store shown).
  { apply filter_selects. intros p. simpl.
    rewrite andb_true_iff, matchesCategory_spec, matchesSearch_spec. done. }
  split; [done|]. split; [by eapply selects_sublist|].
  split; [intros p; exact (selects_elem_of _ _ _ p Hsel)|].
  intros ->. apply filter_selects. intros p. simpl.
  rewrite andb_true_iff, matchesCategory_spec, matchesSearch_spec.
  split; [by intros [? _]|]. intros ?. split; [done|apply empty_query_matches].
Qed.

End Visibility.

(** ** Contributors *)

(** C9. When the endpoint answers with a list, the contributors shown are
    exactly the entries whose login does not contain "[bot]", in the order of
    the answer: no automated account is shown and no other entry is lost. *)
Theorem fetchContributors_hides_bots (contributors : list Contributor) :
  ∃ shown,
    fetchContributors true (ContributorsArray contributors) = Cards shown ∧
    selects (λ c, ¬ is_bot c) contributors shown ∧
    sublist shown contributors ∧
    (∀ c, c ∈ shown ↔ c ∈ contributors ∧ ¬ is_bot c).
Proof.
  exists (humanContributors contributors).
  assert (Hsel : selects (λ c, ¬ is_bot c) contributors (humanContributors contributors)).
  { apply filter_selects. intros c. unfold is_bot.
    rewrite negb_true_iff, <- includes_spec. by destruct (includes _ _). }
  split; [done|]. split; [done|]. split; [by eapply selects_sublist|].
  intros c. exact (selects_elem_of _ _ _ c Hsel).
Qed.

(** ** Deduplication *)

Section Dedup.

Lemma falsy_false x : falsy x = false ↔ present x.
Proof.
  unfold falsy, present. destruct x as [s|].
  - destruct (decide (s = "")) as [->|Hne]; split; try done.
    + intros (s' & [= <-] & Hs'). done.
    + intros _. eauto.
  - split; [done|]. intros (s & ? & _). done.
Qed.

Lemma complete_falsy p :
  falsy (title p) || falsy (link p) = false ↔ complete p.
Proof.
  unfold complete. rewrite <- !falsy_false.
  destruct (falsy (title p)), (falsy (link p)); simpl; intuition congruence.
Qed.

Lemma dedup_step_keep seen p :
  fst (dedup_step seen p) = true ↔ complete p ∧ title_key p ∉ seen.
Proof.
  unfold dedup_step. fold (title_key p).
  destruct (falsy (title p) || falsy (link p)) eqn:E; simpl.
  - split; [done|]. intros [H%complete_falsy _]. congruence.
  - apply complete_falsy in E.
    destruct (decide (title_key p ∈ seen)); simpl; split; try done.
    by intros [_ ?].
Qed.

Lemma dedup_step_seen seen p k :
  k ∈ snd (dedup_step seen p) ↔ k ∈ seen ∨ (complete p ∧ title_key p = k).
Proof.
  unfold dedup_step. fold (title_key p).
  destruct (falsy (title p) || falsy (link p)) eqn:E; simpl.
  - split; [auto|]. intros [?|[H%complete_falsy _]]; [done|congruence].
  - apply complete_falsy in E.
    destruct (decide (title_key p ∈ seen)); simpl.
    + split; [auto|]. intros [?|[_ <-]]; done.
    + rewrite elem_of_union, elem_of_singleton. split.
      * intros [->|?]; [by right|by left].
      * intros [?|[_ <-]]; [by right|by left].
Qed.

Lemma seen_after_spec projects : ∀ seen k,
  k ∈ seen_after seen projects ↔
  k ∈ seen ∨ ∃ p, p ∈ projects ∧ complete p ∧ title_key p = k.
Proof.
  induction projects as [|p rest IH]; intros seen k; simpl.
  - split; [auto|]. intros [?|(p & Hp & _)]; [done|]. by apply elem_of_nil in Hp.
  - rewrite IH, dedup_step_seen. split.
    + intros [[?|[? ?]]|(q & ? & ? & ?)]; [by left|right..].
      * exists p. split; [left|done].
      * exists q. split; [by right|done].
    + intros [?|(q & Hq & ? & ?)]; [by left; left|].
      apply elem_of_cons in Hq as [->|?]; [left; right; done|].
      right. by exists q.
Qed.

Lemma dedup_from_cons seen p rest :
  dedup_from seen (p :: rest) =
  if fst (dedup_step seen p)
  then p :: dedup_from (snd (dedup_step seen p)) rest
  else dedup_from (snd (dedup_step seen p)) rest.
Proof. simpl. by destruct (dedup_step seen p) as [[] ?]. Qed.

Lemma dedup_from_app l1 : ∀ seen l2,
  dedup_from seen (l1 ++ l2) = dedup_from seen l1 ++ dedup_from (seen_after seen l1) l2.
Proof.
  induction l1 as [|p l1 IH]; intros seen l2; [done|].
  rewrite <- app_comm_cons, !dedup_from_cons. simpl seen_after.
  destruct (fst (dedup_step seen p)); simpl; by rewrite IH.
Qed.

Lemma dedup_from_sublist projects : ∀ seen, sublist (dedup_from seen projects) projects.
Proof.
  induction projects as [|p rest IH]; intros seen; [constructor|].
  rewrite dedup_from_cons. destruct (fst (dedup_step seen p)).
  - apply sublist_skip, IH.
  - apply sublist_cons, IH.
Qed.

Lemma dedup_from_elem projects : ∀ seen p,
  p ∈ dedup_from seen projects →
  complete p ∧ (title_key p ∉ seen) ∧ p ∈ projects.
Proof.
  induction projects as [|q rest IH]; intros seen p; [by intros ?%elem_of_nil|].
  rewrite dedup_from_cons.
  assert (Hrest : p ∈ dedup_from (snd (dedup_step seen q)) rest →
                  complete p ∧ (title_key p ∉ seen) ∧ p ∈ q :: rest).
  { intros Hin. apply IH in Hin as (Hc & Hk & Hin). split; [done|]. split; [|by right].
    intros Hs. apply Hk, dedup_step_seen. by left. }
  destruct (fst (dedup_step seen q)) eqn:E; [|done].
  intros [->|Hin]%elem_of_cons; [|by apply Hrest].
  apply dedup_step_keep in E as [Hc Hk]. split; [done|]. split; [done|left].
Qed.

Lemma dedup_from_NoDup projects : ∀ seen, NoDup (title_key <$> dedup_from seen projects).
Proof.
  induction projects as [|q rest IH]; intros seen; [constructor|].
  rewrite dedup_from_cons. destruct (fst (dedup_step seen q)) eqn:E; [|apply IH].
  rewrite fmap_cons. constructor; [|apply IH].
  intros (p & Hk & Hin)%list_elem_of_fmap.
  apply dedup_from_elem in Hin as (_ & Hn & _). apply Hn, dedup_step_seen.
  right. apply dedup_step_keep in E as [? _]. done.
Qed.

Lemma dedup_from_covers projects : ∀ seen p,
  p ∈ projects → complete p → title_key p ∉ seen →
  ∃ q, q ∈ dedup_from seen projects ∧ title_key q = title_key p.
Proof.
  induction projects as [|q rest IH]; intros seen p; [by intros ?%elem_of_nil|].
  rewrite dedup_from_cons. intros Hin Hc Hk.
  destruct (fst (dedup_step seen q)) eqn:E.
  - destruct (decide (title_key q = title_key p)) as [Heq|Hne].
    + exists q. split; [left|done].
    + apply elem_of_cons in Hin as [->|Hin]; [done|].
      destruct (IH (snd (dedup_step seen q)) p Hin Hc) as (r & ? & ?).
      * rewrite dedup_step_seen. intros [?|[_ ?]]; done.
      * exists r. split; [by right|done].
  - apply elem_of_cons in Hin as [->|Hin].
    + exfalso. assert (fst (dedup_step seen q) = true) by by apply dedup_step_keep.
      congruence.
    + apply (IH (snd (dedup_step seen q)) p Hin Hc).
      rewrite dedup_step_seen. intros [?|[Hcq Hkq]]; [done|].
      assert (fst (dedup_step seen q) = true); [|congruence].
      apply dedup_step_keep. split; [done|]. by rewrite Hkq.
Qed.

Lemma first_occurrence_step before p :
  fst (dedup_step (seen_after ∅ before) p) = true ↔ first_occurrence before p.
Proof.
  rewrite dedup_step_keep. unfold first_occurrence.
  split; intros [Hc Hk]; (split; [done|]).
  - intros p' Hin Hc' Heq. apply Hk, seen_after_spec. right. by exists p'.
  - intros [Hin|(p' & Hin & Hc' & Heq)]%seen_after_spec.
    + by apply not_elem_of_empty in Hin.
    + by apply (Hk p').
Qed.

Lemma deduplicate_snoc before p :
  deduplicate (before ++ [p]) =
  deduplicate before ++
  (if fst (dedup_step (seen_after ∅ before) p) then [p] else []).
Proof.
  unfold deduplicate. rewrite dedup_from_app, dedup_from_cons. simpl.
  by destruct (fst (dedup_step (seen_after ∅ before) p)).
Qed.

(** C2. The deduplicated store holds records of the input in input order,
    each with a title and a link, no two with the same lower-cased title;
    every title of a complete input record is represented; and a record
    enters the store exactly when it is complete and no complete record
    before it has the same lower-cased title, so the first occurrence is the
    one kept. Records titled "Foo" and "foo" collapse to the first, and
    records without a title or without a link are dropped. *)
Theorem deduplicate_spec :
  (∀ input : list Project,
     sublist (deduplicate input) input ∧
     (∀ p, p ∈ deduplicate input → complete p) ∧
     NoDup (title_key <$> deduplicate input) ∧
     (∀ p, p ∈ input → complete p →
        ∃ q, q ∈ deduplicate input ∧ title_key q = title_key p)) ∧
  (∀ (before : list Project) (p : Project),
     (first_occurrence before p →
        deduplicate (before ++ [p]) = deduplicate before ++ [p]) ∧
     (¬ first_occurrence before p →
        deduplicate (before ++ [p]) = deduplicate before)) ∧
  deduplicate [Foo; foo] = [Foo] ∧
  deduplicate [foo; Foo] = [foo] ∧
  deduplicate [untitled; Foo; unlinked; foo] = [Foo].
Proof.
  split; [|split; [|by vm_compute]].
  - intros input. unfold deduplicate. split; [apply dedup_from_sublist|].
    split; [intros p Hp; by apply dedup_from_elem in Hp as (? & _ & _)|].
    split; [apply dedup_from_NoDup|].
    intros p Hin Hc. apply dedup_from_covers; [done..|]. apply not_elem_of_empty.
  - intros before p. rewrite deduplicate_snoc.
    destruct (fst (dedup_step (seen_after ∅ before) p)) eqn:E.
    + split; [done|]. intros Hn. exfalso. by apply Hn, first_occurrence_step.
    + split; [|by rewrite app_nil_r].
      intros H%first_occurrence_step. congruence.
Qed.

End Dedup.
(** ** Pagination *)

Section Pagination.
Context {A : Type}.
Implicit Types (l filtered : list A).

(** With both bounds non-negative, [slice] is the segment between them, cut
    at the length. *)
Lemma slice_lookup l (lo hi : Z) (i : nat) :
  0 ≤ lo → 0 ≤ hi →
  slice l lo hi !! i =
  if decide (lo + Z.of_nat i < Z.min (Z.of_nat (length l)) hi)
  then l !! (Z.to_nat lo + i)%nat else None.
Proof.
  intros Hlo Hhi. unfold slice.
  destruct (Z.ltb_spec lo 0) as [?|_]; [lia|].
  destruct (Z.ltb_spec hi 0) as [?|_]; [lia|].
  set (len := Z.of_nat (length l)).
  destruct (decide (lo + Z.of_nat i < Z.min len hi)) as [Hlt|Hge].
  - rewrite lookup_take_lt by lia. rewrite lookup_drop. f_equal. lia.
  - destruct (decide (Z.of_nat i < Z.min hi len - Z.min lo len)) as [Hin|Hout].
    + rewrite lookup_take_lt by lia. rewrite lookup_drop.
      apply lookup_ge_None_2. unfold len in *. lia.
    + apply lookup_take_ge. lia.
Qed.

Lemma slice_length l (lo hi : Z) :
  0 ≤ lo → 0 ≤ hi →
  Z.of_nat (length (slice l lo hi)) =
  Z.max 0 (Z.min (Z.of_nat (length l)) hi - lo).
Proof.
  intros Hlo Hhi. unfold slice.
  destruct (lo <? 0) eqn:E1; [lia|]. destruct (hi <? 0) eqn:E2; [lia|].
  rewrite length_take, length_drop. lia.
Qed.

(** The quotient rounded up, in integers. *)
Lemma pageCount_div filtered (S : Z) :
  0 < S → pageCount filtered S = - (- Z.of_nat (length filtered) / S).
Proof.
  intros HS. unfold pageCount. destruct S as [|s|s]; [lia| |lia].
  unfold Qceiling, Qfloor, Qdiv, Qmult, Qinv, Qopp, inject_Z. simpl.
  by rewrite Z.mul_1_r.
Qed.

Lemma pageCount_bounds filtered (S : Z) :
  0 < S →
  (pageCount filtered S - 1) * S < Z.of_nat (length filtered) ≤ pageCount filtered S * S.
Proof.
  intros HS. rewrite pageCount_div by done.
  set (N := Z.of_nat (length filtered)).
  pose proof (Z.div_mod (- N) S) as Hdm.
  pose proof (Z.mod_pos_bound (- N) S HS) as Hmod.
  nia.
Qed.

Lemma pageCount_least filtered (S k : Z) :
  0 < S → Z.of_nat (length filtered) ≤ k * S → pageCount filtered S ≤ k.
Proof.
  intros HS Hk. pose proof (pageCount_bounds filtered S HS). nia.
Qed.

End Pagination.

(** C3. For a filtered sequence of length [N] and a page size [S], page [p]
    (counted from 1) is the segment from [(p-1)*S] up to, not including,
    [min N (p*S)] of the sequence: its [i]-th element is element
    [(p-1)*S + i] of the sequence while that index is below [min N (p*S)],
    and there is nothing after; the page count is [N/S] rounded up, the
    least [k] with [N <= k*S], which is 0 when [N = 0]. With 25 records
    and pages of 12, page 1 has 12 items, page 3 has 1 and there are 3
    pages. *)
Theorem pagination_spec :
  (∀ (A : Type) (filtered : list A) (S p : Z),
     0 < S → 1 ≤ p →
     let N := Z.of_nat (length filtered) in
     (∀ i : nat,
        pageOf filtered p S !! i =
        if decide ((p - 1) * S + Z.of_nat i < Z.min N (p * S))
        then filtered !! (Z.to_nat ((p - 1) * S) + i)%nat else None) ∧
     Z.of_nat (length (pageOf filtered p S)) = Z.max 0 (Z.min N (p * S) - (p - 1) * S) ∧
     (pageCount filtered S - 1) * S < N ≤ pageCount filtered S * S ∧
     (∀ k, N ≤ k * S → pageCount filtered S ≤ k) ∧
     (N = 0 → pageCount filtered S = 0)) ∧
  (∀ (A : Type) (filtered : list A),
     length filtered = 25%nat →
     length (pageOf filtered 1 (ITEMS_PER_PAGE default_config)) = 12%nat ∧
     length (pageOf filtered 3 (ITEMS_PER_PAGE default_config)) = 1%nat ∧
     pageCount filtered (ITEMS_PER_PAGE default_config) = 3).
Proof.
  split.
  - intros A filtered S p HS Hp N. unfold pageOf.
    replace ((p - 1) * S + S) with (p * S) by lia.
    split; [|split; [|split; [|split]]].
    + intros i. apply slice_lookup; nia.
    + apply slice_length; nia.
    + by apply pageCount_bounds.
    + intros k. by apply pageCount_least.
    + intros HN. pose proof (pageCount_bounds filtered S HS).
      fold N in H. nia.
  - intros A filtered Hlen. simpl ITEMS_PER_PAGE.
    unfold pageOf.
    change ((1 - 1) * 12) with 0. change ((3 - 1) * 12) with 24.
    change (0 + 12) with 12. change (24 + 12) with 36.
    pose proof (slice_length filtered 0 12 ltac:(lia) ltac:(lia)) as H1.
    pose proof (slice_length filtered 24 36 ltac:(lia) ltac:(lia)) as H3.
    pose proof (pageCount_bounds filtered 12 ltac:(lia)) as Hc.
    rewrite Hlen in *. repeat split; lia.
Qed.

(** The hypotheses of the general part hold for 25 records, pages of 12 and
    page 3, whose only item is the last record. *)
Lemma pagination_spec_witness :
  0 < 12 ∧ 1 ≤ 3 ∧
  pageOf (seq 0 25) 3 12 !! 0%nat = Some 24%nat ∧
  pageOf (seq 0 25) 3 12 !! 1%nat = None.
Proof.
  split; [lia|]. split; [lia|].
  destruct pagination_spec as [Hgen _].
  destruct (Hgen nat (seq 0 25) 12 3 ltac:(lia) ltac:(lia)) as (Hlook & _).
  split; [exact (Hlook 0%nat)|exact (Hlook 1%nat)].
Defined.

(** ** Sorting *)

Section SortFacts.
Context {A : Type} (comparefn : A → A → Q).
Implicit Types (x y : A) (l : list A).

Local Abbreviation le := (λ a b, (comparefn a b <= 0)%Q).

Lemma insert_sorted_perm x l : insert_sorted comparefn x l ≡ₚ x :: l.
Proof.
  induction l as [|y l IH]; simpl; [done|].
  destruct (Qle_bool (comparefn x y) 0); [done|].
  rewrite IH. apply perm_swap.
Qed.

Lemma sort_perm l : sort comparefn l ≡ₚ l.
Proof.
  induction l as [|x l IH]; simpl; [done|].
  rewrite insert_sorted_perm. by f_equiv.
Qed.

Lemma sort_length l : length (sort comparefn l) = length l.
Proof. by rewrite sort_perm. Qed.

Lemma insert_sorted_strongly x l :
  consistent comparefn →
  StronglySorted le l → StronglySorted le (insert_sorted comparefn x l).
Proof.
  intros [Htot Htrans]. induction 1 as [|y l Hl IH Hy]; simpl.
  - repeat constructor.
  - destruct (Qle_bool (comparefn x y) 0) eqn:E.
    + apply Qle_bool_iff in E. constructor; [by constructor|].
      constructor; [done|]. eapply Forall_impl; [exact Hy|].
      intros z Hz. by apply (Htrans x y z).
    + constructor; [done|].
      assert (Hyx : (comparefn y x <= 0)%Q).
      { destruct (Htot x y) as [Hxy|?]; [|done].
        apply Qle_bool_iff in Hxy. congruence. }
      rewrite insert_sorted_perm. by constructor.
Qed.

Lemma sort_strongly_sorted l :
  consistent comparefn → StronglySorted le (sort comparefn l).
Proof.
  intros Hc. induction l as [|x l IH]; simpl; [constructor|].
  by apply insert_sorted_strongly.
Qed.

(** Elements of a class whose members compare at most 0 with each other are
    never passed by one another. *)
Lemma insert_sorted_filter (P : A → Prop) `{!∀ x, Decision (P x)} x l :
  (∀ a b, P a → P b → (comparefn a b <= 0)%Q) →
  filter P (insert_sorted comparefn x l) = filter P (x :: l).
Proof.
  intros HP. induction l as [|y l IH]; simpl; [done|].
  destruct (Qle_bool (comparefn x y) 0) eqn:E; [done|].
  rewrite filter_cons, IH, !filter_cons.
  destruct (decide (P y)) as [Hy|Hy], (decide (P x)) as [Hx|Hx]; try done.
  specialize (HP x y Hx Hy). apply Qle_bool_iff in HP. congruence.
Qed.

Lemma sort_filter (P : A → Prop) `{!∀ x, Decision (P x)} l :
  (∀ a b, P a → P b → (comparefn a b <= 0)%Q) →
  filter P (sort comparefn l) = filter P l.
Proof.
  intros HP. induction l as [|x l IH]; simpl; [done|].
  rewrite insert_sorted_filter by done. by rewrite !filter_cons, IH.
Qed.

Lemma before_sublist (a b : A) l k : before a b l → sublist l k → before a b k.
Proof.
  intros (l1 & l2 & l3 & ->) Hsub.
  apply sublist_app_l in Hsub as (k1 & k2 & -> & _ & Hsub).
  apply sublist_cons_l in Hsub as (k3 & k4 & -> & Hsub).
  apply sublist_app_l in Hsub as (k5 & k6 & -> & _ & Hsub).
  apply sublist_cons_l in Hsub as (k7 & k8 & -> & _).
  exists (k1 ++ k3), (k5 ++ k7), k8. by rewrite <- !app_assoc.
Qed.

Lemma before_filter (P : A → Prop) `{!∀ x, Decision (P x)} (a b : A) l :
  P a → P b → before a b l → before a b (filter P l).
Proof.
  intros Ha Hb (l1 & l2 & l3 & ->).
  exists (filter P l1), (filter P l2), (filter P l3).
  rewrite filter_app, filter_cons_True, filter_app, filter_cons_True by done. done.
Qed.

(** Two elements of such a class keep their order. *)
Lemma sort_keeps_order (P : A → Prop) `{!∀ x, Decision (P x)} (a b : A) l :
  (∀ a b, P a → P b → (comparefn a b <= 0)%Q) →
  P a → P b → before a b l → before a b (sort comparefn l).
Proof.
  intros HP Ha Hb Hbefore.
  apply (before_sublist a b (filter P (sort comparefn l))); [|apply sublist_filter].
  rewrite sort_filter by done. by apply before_filter.
Qed.

(** The result does not depend on the algorithm: a list that is sorted and
    that keeps every class of mutually equal elements as it was in [l] is
    [sort l]. *)
Lemma sorted_stable_unique `{!∀ a b, Decision ((comparefn a b <= 0)%Q)} l1 : ∀ l2,
  StronglySorted le l1 → StronglySorted le l2 →
  (∀ x, filter (λ y, (comparefn x y <= 0)%Q ∧ (comparefn y x <= 0)%Q) l1 =
        filter (λ y, (comparefn x y <= 0)%Q ∧ (comparefn y x <= 0)%Q) l2) →
  (∀ x, x ∈ l1 → (comparefn x x <= 0)%Q) →
  (∀ x, x ∈ l2 → (comparefn x x <= 0)%Q) →
  l1 = l2.
Proof.
  induction l1 as [|a l1 IH]; intros l2 Hs1 Hs2 Hcls Hr1 Hr2.
  - destruct l2 as [|b l2]; [done|].
    specialize (Hcls b). rewrite filter_cons_True in Hcls; [done|].
    split; apply Hr2; left.
  - destruct l2 as [|b l2].
    { specialize (Hcls a). rewrite filter_cons_True in Hcls; [done|].
      split; apply Hr1; left. }
    apply StronglySorted_inv in Hs1 as [Hs1 Ha]. apply StronglySorted_inv in Hs2 as [Hs2 Hb].
    assert (Haa : (comparefn a a <= 0)%Q) by (apply Hr1; left).
    assert (Hbb : (comparefn b b <= 0)%Q) by (apply Hr2; left).
    assert (Hin_a : a ∈ b :: l2).
    { assert (Hin : a ∈ filter (λ y, (comparefn a y <= 0)%Q ∧ (comparefn y a <= 0)%Q) (b :: l2)).
      { rewrite <- (Hcls a), filter_cons_True by done. left. }
      by apply list_elem_of_filter in Hin as [_ ?]. }
    assert (Hin_b : b ∈ a :: l1).
    { assert (Hin : b ∈ filter (λ y, (comparefn b y <= 0)%Q ∧ (comparefn y b <= 0)%Q) (a :: l1)).
      { rewrite (Hcls b), filter_cons_True by done. left. }
      by apply list_elem_of_filter in Hin as [_ ?]. }
    assert (Hab : (comparefn a b <= 0)%Q).
    { apply elem_of_cons in Hin_b as [->|Hin]; [done|].
      by apply (proj1 (Forall_forall _ _) Ha). }
    assert (Hba : (comparefn b a <= 0)%Q).
    { apply elem_of_cons in Hin_a as [->|Hin]; [done|].
      by apply (proj1 (Forall_forall _ _) Hb). }
    assert (a = b) as <-.
    { specialize (Hcls a). rewrite !filter_cons_True in Hcls by done. by injection Hcls. }
    f_equal. apply IH; [done..| | |].
    + intros x. specialize (Hcls x). rewrite !filter_cons in Hcls.
      destruct (decide _); [by injection Hcls|done].
    + intros x Hx. apply Hr1. by right.
    + intros x Hx. apply Hr2. by right.
Qed.

Lemma sort_unique `{!∀ a b, Decision ((comparefn a b <= 0)%Q)} l l' :
  consistent comparefn →
  StronglySorted le l' →
  (∀ x, filter (λ y, (comparefn x y <= 0)%Q ∧ (comparefn y x <= 0)%Q) l' =
        filter (λ y, (comparefn x y <= 0)%Q ∧ (comparefn y x <= 0)%Q) l) →
  l' = sort comparefn l.
Proof.
  intros Hc Hs Hcls.
  assert (Hrefl : ∀ x, (comparefn x x <= 0)%Q).
  { intros x. by destruct (proj1 Hc x x). }
  apply sorted_stable_unique; [done|by apply sort_strongly_sorted| |auto..].
  intros x. rewrite Hcls. symmetry. apply sort_filter.
  intros a b [Hxa Hax] [Hxb Hbx]. by apply (proj2 Hc a x b).
Qed.

End SortFacts.

(** *** A comparator that can throw *)

Section ThrowingSortFacts.
Context {A : Type} (comparefn : A → A → option Q).
Implicit Types (x y : A) (l s : list A).

Lemma sortM_cons x l :
  sortM comparefn (x :: l) = sortM comparefn l ≫= insert_sortedM comparefn x.
Proof. reflexivity. Qed.

Lemma insert_sortedM_Some (f : A → A → Q) x l :
  (∀ y, y ∈ l → comparefn x y = Some (f x y)) →
  insert_sortedM comparefn x l = Some (insert_sorted f x l).
Proof.
  induction l as [|y l IH]; intros Hf; [done|].
  cbn [insert_sortedM insert_sorted]. rewrite (Hf y) by left. simpl.
  destruct (Qle_bool (f x y) 0); [done|].
  rewrite IH; [done|]. intros z Hz. apply Hf. by right.
Qed.

(** While the comparator returns, the sort is the sort by what it returns. *)
Lemma sortM_Some (f : A → A → Q) l :
  (∀ x y, x ∈ l → y ∈ l → comparefn x y = Some (f x y)) →
  sortM comparefn l = Some (sort f l).
Proof.
  induction l as [|x l IH]; intros Hf; [done|].
  rewrite sortM_cons, IH by (intros a b Ha Hb; apply Hf; by right). simpl.
  apply insert_sortedM_Some. intros y Hy. apply Hf; [by left|].
  right. by rewrite <- (sort_perm f l).
Qed.

Lemma sortM_singleton x : sortM comparefn [x] = Some [x].
Proof. reflexivity. Qed.

Lemma insert_sortedM_perm x l s :
  insert_sortedM comparefn x l = Some s → s ≡ₚ x :: l.
Proof.
  revert s. induction l as [|y l IH]; intros s; cbn [insert_sortedM].
  - by intros [= <-].
  - destruct (comparefn x y) as [c|]; [|done]. simpl.
    destruct (Qle_bool c 0); [by intros [= <-]|].
    destruct (insert_sortedM comparefn x l) as [s'|]; [|done].
    simpl. intros [= <-]. rewrite (IH s' eq_refl). apply perm_swap.
Qed.

Lemma sortM_perm l s : sortM comparefn l = Some s → s ≡ₚ l.
Proof.
  revert s. induction l as [|x l IH]; intros s; [by intros [= <-]|].
  rewrite sortM_cons. destruct (sortM comparefn l) as [s'|]; [|done].
  simpl. intros Hs%insert_sortedM_perm. by rewrite Hs, (IH s' eq_refl).
Qed.

Lemma insert_sortedM_None x l :
  insert_sortedM comparefn x l = None → ∃ y, y ∈ l ∧ comparefn x y = None.
Proof.
  induction l as [|y l IH]; cbn [insert_sortedM]; [done|].
  destruct (comparefn x y) as [c|] eqn:E; [|intros _; exists y; split; [left|done]].
  simpl. destruct (Qle_bool c 0); [done|].
  destruct (insert_sortedM comparefn x l); [done|].
  intros _. destruct (IH eq_refl) as (z & Hz & Hc). exists z. split; [by right|done].
Qed.

Lemma sortM_None_inv l :
  sortM comparefn l = None →
  (2 ≤ length l)%nat ∧ ∃ x y, x ∈ l ∧ y ∈ l ∧ comparefn x y = None.
Proof.
  induction l as [|x l IH]; [done|]. rewrite sortM_cons.
  destruct (sortM comparefn l) as [s|] eqn:Hs; simpl.
  - intros (y & Hy & Hc)%insert_sortedM_None.
    rewrite (sortM_perm l s Hs) in Hy. split.
    + destruct l; [by apply elem_of_nil in Hy|simpl; lia].
    + exists x, y. split; [left|]. split; [by right|done].
  - intros _. destruct (IH eq_refl) as (Hlen & a & b & Ha & Hb & Hc). split; [simpl; lia|].
    exists a, b. split; [by right|]. split; [by right|done].
Qed.

(** A comparator that fails on a record, whatever the other one is, ends
    the sort of every list of two or more that has such a record in it, and
    of no other. *)
Lemma sortM_None (bad : A → Prop) l :
  (∀ x y, comparefn x y = None ↔ bad x ∨ bad y) →
  sortM comparefn l = None ↔ (2 ≤ length l)%nat ∧ ∃ x, x ∈ l ∧ bad x.
Proof.
  intros Hbad. split.
  - intros (Hlen & x & y & Hx & Hy & [?|?]%Hbad)%sortM_None_inv; eauto.
  - intros [Hlen (z & Hz & Hbz)]. induction l as [|x l IH]; [simpl in Hlen; lia|].
    rewrite sortM_cons. destruct (sortM comparefn l) as [s|] eqn:Hs; [|done].
    simpl. pose proof (sortM_perm l s Hs) as Hperm.
    destruct s as [|y s].
    { apply Permutation_nil_l in Hperm. subst l. simpl in Hlen. lia. }
    cbn [insert_sortedM].
    apply elem_of_cons in Hz as [->|Hz].
    + by rewrite (proj2 (Hbad x y) (or_introl Hbz)).
    + destruct l as [|y' [|y'' l]].
      * by apply elem_of_nil in Hz.
      * apply list_elem_of_singleton in Hz as ->.
        apply Permutation_singleton_r in Hperm. injection Hperm as -> ->.
        by rewrite (proj2 (Hbad x y') (or_intror Hbz)).
      * by specialize (IH ltac:(simpl; lia) Hz).
Qed.

End ThrowingSortFacts.

(** *** The collation of the examples is consistent *)

Section CollationFacts.
Import Collation.

Lemma N_of_ascii_inj x y : N_of_ascii x = N_of_ascii y → x = y.
Proof. intros H. by rewrite <- (ascii_N_embedding x), <- (ascii_N_embedding y), H. Qed.

Lemma compare_codes_eq a : ∀ b, compare_codes a b = Eq ↔ a = b.
Proof.
  induction a as [|x a IH]; intros [|y b]; simpl; try done.
  destruct (N.compare_spec (N_of_ascii x) (N_of_ascii y)) as [Heq|Hlt|Hgt].
  - apply N_of_ascii_inj in Heq as ->. rewrite IH. split; [by intros ->|by intros [= ->]].
  - split; [done|]. intros [= -> _]. lia.
  - split; [done|]. intros [= -> _]. lia.
Qed.

Lemma compare_codes_antisym a : ∀ b, compare_codes b a = CompOpp (compare_codes a b).
Proof.
  induction a as [|x a IH]; intros [|y b]; simpl; try done.
  rewrite (N.compare_antisym (N_of_ascii x) (N_of_ascii y)).
  destruct (N_of_ascii x ?= N_of_ascii y)%N; simpl; [apply IH|done..].
Qed.

Lemma compare_codes_lt_trans a : ∀ b c,
  compare_codes a b = Lt → compare_codes b c = Lt → compare_codes a c = Lt.
Proof.
  induction a as [|x a IH]; intros [|y b] [|z c]; simpl; try done.
  destruct (N.compare_spec (N_of_ascii x) (N_of_ascii y)) as [Hxy|Hxy|Hxy];
    destruct (N.compare_spec (N_of_ascii y) (N_of_ascii z)) as [Hyz|Hyz|Hyz];
    try done; intros H1 H2.
  - rewrite Hxy, Hyz, N.compare_refl. by apply (IH b).
  - rewrite Hxy. by apply N.compare_lt_iff in Hyz as ->.
  - rewrite <- Hyz. by apply N.compare_lt_iff in Hxy as ->.
  - assert (N_of_ascii x < N_of_ascii z)%N as ->%N.compare_lt_iff by lia. done.
Qed.

Lemma compare_codes_le_trans a b c :
  compare_codes a b ≠ Gt → compare_codes b c ≠ Gt → compare_codes a c ≠ Gt.
Proof.
  destruct (compare_codes a b) eqn:Eab; [|intros _|done].
  - apply compare_codes_eq in Eab as ->. done.
  - destruct (compare_codes b c) eqn:Ebc; [|intros _|done].
    + apply compare_codes_eq in Ebc as ->. by rewrite Eab.
    + by rewrite (compare_codes_lt_trans a b c).
Qed.

(** [localeCompare a b <= 0]: [a] is before [b] ignoring case, or they are
    equal ignoring case and [b] is not before [a] by code. *)
Lemma localeCompare_le a b :
  localeCompare a b ≤ 0 ↔
  compare_codes (toLowerCase a) (toLowerCase b) = Lt ∨
  (toLowerCase a = toLowerCase b ∧ compare_codes b a ≠ Gt).
Proof.
  unfold localeCompare.
  destruct (compare_codes (toLowerCase a) (toLowerCase b)) eqn:E; simpl.
  - apply compare_codes_eq in E.
    destruct (compare_codes b a); simpl;
      (split; [intros ?; try lia; right; by split|intros [?|[_ ?]]; try done; lia]).
  - split; [by left|lia].
  - split; [lia|]. intros [?|[Heq _]]; [done|].
    apply compare_codes_eq in Heq. congruence.
Qed.

Lemma localeCompare_total a b : localeCompare a b ≤ 0 ∨ localeCompare b a ≤ 0.
Proof.
  rewrite !localeCompare_le.
  pose proof (compare_codes_antisym (toLowerCase a) (toLowerCase b)) as Hl.
  pose proof (compare_codes_antisym a b) as Hr.
  destruct (compare_codes (toLowerCase a) (toLowerCase b)) eqn:E; simpl in Hl.
  - apply compare_codes_eq in E.
    destruct (compare_codes a b) eqn:E'; simpl in Hr.
    + left. right. split; [done|]. by rewrite Hr.
    + right. by right.
    + left. right. split; [done|]. by rewrite Hr.
  - left. by left.
  - right. by left.
Qed.

Lemma localeCompare_trans a b c :
  localeCompare a b ≤ 0 → localeCompare b c ≤ 0 → localeCompare a c ≤ 0.
Proof.
  rewrite !localeCompare_le.
  intros [Hab|[Hab Hab']] [Hbc|[Hbc Hbc']].
  - left. by apply (compare_codes_lt_trans _ (toLowerCase b)).
  - left. by rewrite <- Hbc.
  - left. by rewrite Hab.
  - right. split; [congruence|]. by apply (compare_codes_le_trans c b a).
Qed.

End CollationFacts.

(** ** The sort modes of [render] *)

Section SortModes.
Variable localeCompare : string → string → Z.
Variable ratings : gmap string (list RatingRecord).
Implicit Types (filtered : list Project) (p a b : Project).

Local Abbreviation sorted := (applySort localeCompare ratings).
Local Abbreviation avg := (averageOf ratings).

Lemma inject_Z_nonpos z : (inject_Z z <= 0)%Q ↔ z ≤ 0.
Proof. change 0%Q with (inject_Z 0). by rewrite <- Zle_Qle. Qed.

Lemma az_consistent :
  consistent_collation localeCompare →
  consistent (λ a b, inject_Z (localeCompare (titleOf a) (titleOf b))).
Proof.
  intros [Htot Htrans]. split.
  - intros a b. rewrite !inject_Z_nonpos. apply Htot.
  - intros a b c. rewrite !inject_Z_nonpos. apply Htrans.
Qed.

Lemma za_consistent :
  consistent_collation localeCompare →
  consistent (λ a b, inject_Z (localeCompare (titleOf b) (titleOf a))).
Proof.
  intros [Htot Htrans]. split.
  - intros a b. rewrite !inject_Z_nonpos. apply Htot.
  - intros a b c. rewrite !inject_Z_nonpos. intros ? ?. by apply (Htrans _ (titleOf b)).
Qed.

Lemma rating_high_consistent : consistent (λ a b, avg b - avg a)%Q.
Proof. split; [intros a b|intros a b c]; lra. Qed.

Lemma rating_low_consistent : consistent (λ a b, avg a - avg b)%Q.
Proof. split; [intros a b|intros a b c]; lra. Qed.

Lemma StronglySorted_impl {A : Type} (R1 R2 : A → A → Prop) (l : list A) :
  (∀ x y, R1 x y → R2 x y) → StronglySorted R1 l → StronglySorted R2 l.
Proof.
  intros HR. induction 1 as [|x l Hl IH Hx]; constructor; [done|].
  eapply Forall_impl; [exact Hx|]. intros y. apply HR.
Qed.

Lemma getVisibleProjects_setPage page engine :
  ProjectVisibilityEngine.getVisibleProjects (ProjectVisibilityEngine.setPage page engine) =
  ProjectVisibilityEngine.getVisibleProjects engine.
Proof. reflexivity. Qed.

Lemma getVisibleProjects_sublist engine :
  sublist (ProjectVisibilityEngine.getVisibleProjects engine)
          (ProjectVisibilityEngine.projects engine).
Proof.
  unfold ProjectVisibilityEngine.getVisibleProjects.
  eapply selects_sublist, (filter_selects (λ p, _ = true)). done.
Qed.

(** *** The comparators of the rating modes *)

Lemma ratingOf_rated filtered p :
  rated ratings filtered → p ∈ filtered → ratingOf ratings p = Some (avg p).
Proof.
  intros Hr Hp. destruct (Hr p Hp) as [summary Hs].
  unfold averageOf, ratingOf. by rewrite Hs.
Qed.

Lemma rated_comparable filtered : rated ratings filtered → comparable ratings filtered.
Proof. by right. Qed.

Lemma rated_perm filtered l : l ≡ₚ filtered → rated ratings filtered → rated ratings l.
Proof. intros Hp Hr p Hin. apply Hr. by rewrite <- Hp. Qed.

(** Where they run through, the sort is the sort by the averages. *)
Lemma rating_sort_comparable (g : Q → Q → Q) filtered :
  comparable ratings filtered →
  sortM (λ a b, ratingA ← ratingOf ratings a; ratingB ← ratingOf ratings b;
                Some (g ratingA ratingB)) filtered =
  Some (sort (λ a b, g (avg a) (avg b)) filtered).
Proof.
  intros [Hlen|Hr].
  - destruct filtered as [|p [|q filtered]]; [done|done|simpl in Hlen; lia].
  - apply sortM_Some. intros a b Ha Hb.
    by rewrite (ratingOf_rated filtered a Hr Ha), (ratingOf_rated filtered b Hr Hb).
Qed.

(** They throw on a list of two records or more, one of which has no
    summary, and only there. *)
Lemma rating_sort_None (g : Q → Q → Q) filtered :
  sortM (λ a b, ratingA ← ratingOf ratings a; ratingB ← ratingOf ratings b;
                Some (g ratingA ratingB)) filtered = None ↔
  (2 ≤ length filtered)%nat ∧
  ∃ p, p ∈ filtered ∧ getProjectRating ratings (titleOf p) = None.
Proof.
  apply (sortM_None _ (λ p, getProjectRating ratings (titleOf p) = None)).
  intros a b. unfold ratingOf.
  destruct (getProjectRating ratings (titleOf a)), (getProjectRating ratings (titleOf b));
    simpl; split; try done; auto; by intros [?|?].
Qed.

Lemma applySort_rating_high filtered :
  comparable ratings filtered →
  sorted "rating-high" filtered = Some (sort (λ a b, avg b - avg a)%Q filtered).
Proof. intros Hc. by apply (rating_sort_comparable (λ ratingA ratingB, ratingB - ratingA)%Q). Qed.

Lemma applySort_rating_low filtered :
  comparable ratings filtered →
  sorted "rating-low" filtered = Some (sort (λ a b, avg a - avg b)%Q filtered).
Proof. intros Hc. by apply (rating_sort_comparable (λ ratingA ratingB, ratingA - ratingB)%Q). Qed.

Lemma applySort_None mode filtered :
  sorted mode filtered = None ↔
  (mode = "rating-high" ∨ mode = "rating-low") ∧
  (2 ≤ length filtered)%nat ∧
  ∃ p, p ∈ filtered ∧ getProjectRating ratings (titleOf p) = None.
Proof.
  unfold applySort.
  destruct (decide (mode = "az")) as [->|?]; [split; [done|by intros [[?|?] _]]|].
  destruct (decide (mode = "za")) as [->|?]; [split; [done|by intros [[?|?] _]]|].
  destruct (decide (mode = "newest")) as [->|?]; [split; [done|by intros [[?|?] _]]|].
  destruct (decide (mode = "rating-high")) as [->|?].
  { rewrite (rating_sort_None (λ ratingA ratingB, ratingB - ratingA)%Q). split; [auto|].
    by intros [_ ?]. }
  destruct (decide (mode = "rating-low")) as [->|?].
  { rewrite (rating_sort_None (λ ratingA ratingB, ratingA - ratingB)%Q). split; [auto|].
    by intros [_ ?]. }
  split; [done|]. by intros [[?|?] _].
Qed.

Lemma applySort_perm mode filtered l :
  sorted mode filtered = Some l → l ≡ₚ filtered.
Proof.
  unfold applySort.
  repeat (destruct (decide _) as [_|_];
          [first [intros [= <-]; first [apply sort_perm|apply reverse_Permutation]
                 |apply sortM_perm]|]).
  by intros [= <-].
Qed.

Lemma applySort_comparable mode filtered :
  comparable ratings filtered → is_Some (sorted mode filtered).
Proof.
  intros Hc. destruct (sorted mode filtered) as [l|] eqn:E; [done|].
  apply applySort_None in E as (_ & Hlen & p & Hp & Hnone).
  destruct Hc as [?|Hr]; [lia|]. destruct (Hr p Hp) as [? ?]. congruence.
Qed.

(** *** [render] where every listed record has a summary *)

Lemma elem_of_pageOf {A : Type} (x : A) (l : list A) (page S : Z) :
  x ∈ pageOf l page S → x ∈ l.
Proof.
  unfold pageOf, slice. intros Hx.
  eapply elem_of_sublist; [exact Hx|].
  etrans; [apply sublist_take|apply sublist_drop].
Qed.

Lemma renderCardView_rated filtered :
  rated ratings filtered → is_Some (renderCardView ratings filtered).
Proof.
  intros Hr. unfold renderCardView. apply mapM_is_Some, Forall_forall.
  intros p Hp. by apply Hr.
Qed.

Lemma render_rated config engine sortSelect page grid :
  rated ratings (ProjectVisibilityEngine.getVisibleProjects engine) →
  ∃ l,
    sorted (sortModeOf sortSelect) (ProjectVisibilityEngine.getVisibleProjects engine) =
      Some l ∧
    render localeCompare ratings config engine sortSelect page grid =
      Some (if decide (length (pageOf l page (ITEMS_PER_PAGE config)) = 0%nat)
            then mkRendered (pageOf l page (ITEMS_PER_PAGE config))
                            (pageCount l (ITEMS_PER_PAGE config)) true 0
            else mkRendered (pageOf l page (ITEMS_PER_PAGE config))
                            (pageCount l (ITEMS_PER_PAGE config)) false
                            (pageCount l (ITEMS_PER_PAGE config))).
Proof.
  intros Hr.
  destruct (applySort_comparable (sortModeOf sortSelect) _ (rated_comparable _ Hr))
    as [l Hl].
  exists l. split; [done|]. unfold render. rewrite getVisibleProjects_setPage, Hl. simpl.
  assert (Hcards : is_Some (renderCardView ratings (pageOf l page (ITEMS_PER_PAGE config)))).
  { apply renderCardView_rated. intros p Hp%elem_of_pageOf. apply Hr.
    by rewrite <- (applySort_perm _ _ _ Hl). }
  destruct Hcards as [cards Hcards].
  destruct grid; rewrite ?Hcards; simpl; by destruct (decide _).
Qed.

Lemma render_Some config engine sortSelect page grid shown :
  render localeCompare ratings config engine sortSelect page grid = Some shown →
  ∃ l,
    sorted (sortModeOf sortSelect) (ProjectVisibilityEngine.getVisibleProjects engine) =
      Some l ∧
    pageItems shown = pageOf l page (ITEMS_PER_PAGE config).
Proof.
  unfold render. rewrite getVisibleProjects_setPage.
  destruct (sorted _ _) as [l|]; [|done]. simpl.
  destruct (match grid with GridCards => _ | _ => _ end); [|done]. simpl.
  destruct (decide _); intros [= <-]; by exists l.
Qed.

(** C4. The engine returns the matching records in store order and [render],
    its caller, sorts what it gets before paging. Mode "default", like any
    unknown mode, leaves the order as it is; "newest" reverses it; "az" and
    "za" rearrange the records so that titles ascend, respectively descend,
    in the collation of [localeCompare]; "rating-high" and "rating-low"
    rearrange them so that the average ratings descend, respectively ascend,
    wherever the averages they compare are there to be read. With mode "az"
    the titles Zeta, alpha, Mango come out as alpha, Mango, Zeta. *)
Theorem applySort_modes filtered :
  consistent_collation localeCompare →
  sorted "default" filtered = Some filtered ∧
  sorted "newest" filtered = Some (reverse filtered) ∧
  (∃ l, sorted "az" filtered = Some l ∧ l ≡ₚ filtered ∧
        StronglySorted (λ a b, localeCompare (titleOf a) (titleOf b) ≤ 0) l) ∧
  (∃ l, sorted "za" filtered = Some l ∧ l ≡ₚ filtered ∧
        StronglySorted (λ a b, localeCompare (titleOf b) (titleOf a) ≤ 0) l) ∧
  (comparable ratings filtered →
   ∃ l, sorted "rating-high" filtered = Some l ∧ l ≡ₚ filtered ∧
        StronglySorted (λ a b, (avg b <= avg a)%Q) l) ∧
  (comparable ratings filtered →
   ∃ l, sorted "rating-low" filtered = Some l ∧ l ≡ₚ filtered ∧
        StronglySorted (λ a b, (avg a <= avg b)%Q) l) ∧
  (∀ mode, mode ∉ ["az"; "za"; "newest"; "rating-high"; "rating-low"] →
     sorted mode filtered = Some filtered) ∧
  sortModeOf None = "default" ∧
  (∀ config engine sortSelect page grid,
     sublist (ProjectVisibilityEngine.getVisibleProjects engine)
             (ProjectVisibilityEngine.projects engine) ∧
     (∀ shown,
        render localeCompare ratings config engine sortSelect page grid = Some shown →
        ∃ l, sorted (sortModeOf sortSelect)
                    (ProjectVisibilityEngine.getVisibleProjects engine) = Some l ∧
             pageItems shown = pageOf l page (ITEMS_PER_PAGE config)) ∧
     (rated ratings (ProjectVisibilityEngine.getVisibleProjects engine) →
      is_Some (render localeCompare ratings config engine sortSelect page grid))) ∧
  applySort Collation.localeCompare ratings "az"
            [titled "Zeta"; titled "alpha"; titled "Mango"] =
  Some [titled "alpha"; titled "Mango"; titled "Zeta"].
Proof.
  intros Hc. split; [done|]. split; [done|].
  split.
  { eexists. split; [reflexivity|]. split; [apply sort_perm|].
    eapply StronglySorted_impl; [|apply sort_strongly_sorted, az_consistent, Hc].
    intros a b. apply inject_Z_nonpos. }
  split.
  { eexists. split; [reflexivity|]. split; [apply sort_perm|].
    eapply StronglySorted_impl; [|apply sort_strongly_sorted, za_consistent, Hc].
    intros a b. apply inject_Z_nonpos. }
  split.
  { intros Hcmp. eexists. split; [by apply applySort_rating_high|].
    split; [apply sort_perm|].
    eapply StronglySorted_impl; [|apply sort_strongly_sorted, rating_high_consistent].
    simpl. intros a b. lra. }
  split.
  { intros Hcmp. eexists. split; [by apply applySort_rating_low|].
    split; [apply sort_perm|].
    eapply StronglySorted_impl; [|apply sort_strongly_sorted, rating_low_consistent].
    simpl. intros a b. lra. }
  split.
  { intros mode Hmode. unfold applySort.
    repeat (destruct (decide _) as [->|_];
            [exfalso; apply Hmode; repeat (try (by left); right)|]).
    done. }
  split; [done|]. split; [|by vm_compute].
  intros config engine sortSelect page grid.
  split; [apply getVisibleProjects_sublist|]. split; [apply render_Some|]. intros Hr.
  destruct (render_rated config engine sortSelect page grid Hr) as (l & _ & Hrender).
  by rewrite Hrender.
Qed.

(** C7. Both rating sorts are stable: for every average, the records with
    that average form the same sequence before and after the sort; hence two
    records with equal averages, one before the other in the filtered list,
    are still in that order afterwards. The sorts are those of a list whose
    averages are there to be compared. *)
Theorem rating_sorts_stable filtered :
  comparable ratings filtered →
  ∃ high low,
    sorted "rating-high" filtered = Some high ∧
    sorted "rating-low" filtered = Some low ∧
    (∀ v : Q,
       filter (λ p, avg p == v)%Q high = filter (λ p, avg p == v)%Q filtered ∧
       filter (λ p, avg p == v)%Q low = filter (λ p, avg p == v)%Q filtered) ∧
    (∀ a b, (avg a == avg b)%Q → before a b filtered →
       before a b high ∧ before a b low).
Proof.
  intros Hcmp. eexists. eexists.
  split; [by apply applySort_rating_high|]. split; [by apply applySort_rating_low|].
  split.
  - intros v. split; apply sort_filter; simpl; intros a b Ha Hb; lra.
  - intros a b Hab Hbefore.
    split; apply (sort_keeps_order _ (λ p, avg p == avg a)%Q);
      try done; simpl; try (intros x y Hx Hy); lra.
Qed.

End SortModes.

(** The collation of the examples is consistent, and under it the four
    sorting modes of three records come out as stated. *)
Lemma applySort_modes_witness :
  consistent_collation Collation.localeCompare ∧
  ∃ l, applySort Collation.localeCompare ∅ "za"
         [titled "Zeta"; titled "alpha"; titled "Mango"] = Some l ∧
       titleOf <$> l ≡ₚ ["Zeta"; "alpha"; "Mango"].
Proof.
  assert (Hc : consistent_collation Collation.localeCompare).
  { split; [apply localeCompare_total|apply localeCompare_trans]. }
  split; [exact Hc|].
  destruct (applySort_modes Collation.localeCompare ∅
              [titled "Zeta"; titled "alpha"; titled "Mango"] Hc)
    as (_ & _ & _ & (l & Hl & Hp & _) & _).
  exists l. split; [exact Hl|]. by rewrite Hp.
Defined.

(** Three records, one of them rated: both rating sorts return. *)
Lemma rating_sorts_stable_witness :
  ∃ high low,
    applySort Collation.localeCompare {[ "snake" := [mkRating 4 "" 0] ]} "rating-high"
              [clock; snake; todo] = Some high ∧
    applySort Collation.localeCompare {[ "snake" := [mkRating 4 "" 0] ]} "rating-low"
              [clock; snake; todo] = Some low.
Proof.
  destruct (rating_sorts_stable Collation.localeCompare {[ "snake" := [mkRating 4 "" 0] ]}
              [clock; snake; todo]) as (high & low & Hhigh & Hlow & _).
  - right. intros p Hp. repeat (apply elem_of_cons in Hp as [->|Hp]); [by eexists..|].
    by apply elem_of_nil in Hp.
  - exists high, low. split; [exact Hhigh|exact Hlow].
Defined.

(** ** Ratings *)

Section RatingFacts.
Implicit Types (ratings : gmap string (list RatingRecord)) (rs : list RatingRecord).

Lemma fold_left_total rs : ∀ acc,
  fold_left (λ acc r, acc + rating r) rs acc = acc + total_rating rs.
Proof.
  induction rs as [|r rs IH]; intros acc; simpl; [lia|]. rewrite IH. lia.
Qed.

Lemma total_rating_snoc rs x : total_rating (rs ++ [x]) = total_rating rs + rating x.
Proof.
  induction rs as [|r rs IH]; simpl; [lia|]. rewrite IH. lia.
Qed.

Lemma lower_char_idemp c : lower_char (lower_char c) = lower_char c.
Proof. destruct c as [[] [] [] [] [] [] [] []]; reflexivity. Qed.

Lemma toLowerCase_idemp s : toLowerCase (toLowerCase s) = toLowerCase s.
Proof. induction s as [|c s IH]; simpl; [done|]. by rewrite lower_char_idemp, IH. Qed.

(** Of the names on [Object.prototype], [sanitizeKey] can only return
    [constructor] and [__proto__]: every other one has an upper-case letter
    in it. *)
Lemma sanitizeKey_prototype_names t name :
  name ∈ ["__defineGetter__"; "__defineSetter__"; "hasOwnProperty"; "__lookupGetter__";
          "__lookupSetter__"; "isPrototypeOf"; "propertyIsEnumerable"; "toString";
          "valueOf"; "toLocaleString"] →
  sanitizeKey t ≠ name.
Proof.
  intros Hname Hkey.
  assert (Hlow : toLowerCase name = name).
  { rewrite <- Hkey. unfold sanitizeKey. apply toLowerCase_idemp. }
  repeat (apply elem_of_cons in Hname as [->|Hname]; [discriminate Hlow|]).
  by apply elem_of_nil in Hname.
Qed.

Lemma property_Inherited ratings key :
  property ratings key = Inherited ↔ ratings !! key = None ∧ inherited key = true.
Proof.
  unfold property. destruct (ratings !! key); [by split; [|intros []]|].
  destruct (inherited key); by split; [|intros []].
Qed.

(** [getProjectRating] and [submitRating] throw on the same keys: those that
    name an inherited property and hold no ratings of their own. *)
Lemma getProjectRating_None ratings t :
  getProjectRating ratings t = None ↔
  ratings !! sanitizeKey t = None ∧ inherited (sanitizeKey t) = true.
Proof.
  rewrite <- property_Inherited. unfold getProjectRating.
  destruct (property ratings (sanitizeKey t)); try destruct (decide _); by split.
Qed.

Lemma submitRating_None ratings t r review now :
  submitRating ratings t r review now = None ↔
  ratings !! sanitizeKey t = None ∧ inherited (sanitizeKey t) = true.
Proof.
  rewrite <- property_Inherited. unfold submitRating.
  destruct (property ratings (sanitizeKey t)); by split.
Qed.

Lemma getProjectRating_Some ratings t summary :
  getProjectRating ratings t = Some summary →
  let rs := default [] (ratings !! sanitizeKey t) in
  summary =
    if decide (length rs = 0%nat) then mkSummary 0 0
    else mkSummary (inject_Z (total_rating rs) / inject_Z (Z.of_nat (length rs)))
                   (Z.of_nat (length rs)).
Proof.
  unfold getProjectRating. intros H.
  destruct (property ratings (sanitizeKey t)); try done;
    destruct (decide _); injection H as <-; try done;
    by rewrite fold_left_total, Z.add_0_l.
Qed.

Lemma getProjectRating_count ratings t summary :
  getProjectRating ratings t = Some summary →
  count summary = Z.of_nat (length (default [] (ratings !! sanitizeKey t))).
Proof.
  intros ->%getProjectRating_Some. destruct (decide _) as [->|_]; done.
Qed.

Lemma getProjectRating_stored ratings t rs :
  ratings !! sanitizeKey t = Some rs → rs ≠ [] →
  getProjectRating ratings t =
  Some (mkSummary (inject_Z (total_rating rs) / inject_Z (Z.of_nat (length rs)))
                  (Z.of_nat (length rs))).
Proof.
  intros Hrs Hne.
  destruct (getProjectRating ratings t) as [summary|] eqn:E.
  - apply getProjectRating_Some in E. rewrite Hrs in E. simpl in E.
    destruct (decide _) as [Hlen|_]; [by destruct rs|]. by rewrite E.
  - apply getProjectRating_None in E as [E _]. congruence.
Qed.

Lemma getProjectRating_unrated ratings t :
  default [] (ratings !! sanitizeKey t) = [] → inherited (sanitizeKey t) = false →
  getProjectRating ratings t = Some (mkSummary 0 0).
Proof.
  intros Hrs Hinh.
  destruct (getProjectRating ratings t) as [summary|] eqn:E.
  - apply getProjectRating_Some in E. by rewrite Hrs in E; rewrite E.
  - apply getProjectRating_None in E as [_ E]. congruence.
Qed.

Lemma submitRating_Some ratings t r review now after :
  submitRating ratings t r review now = Some after →
  after = <[sanitizeKey t := default [] (ratings !! sanitizeKey t) ++ [mkRating r review now]]>
            ratings.
Proof.
  unfold submitRating.
  destruct (property ratings (sanitizeKey t)); try done; intros [= <-];
    (destruct (ratings !! sanitizeKey t) as [rs|] eqn:E; [by rewrite E|]);
    rewrite lookup_insert_eq; simpl; by rewrite insert_insert_eq.
Qed.

Lemma submitRating_lookup ratings t r review now after :
  submitRating ratings t r review now = Some after →
  after !! sanitizeKey t =
  Some (default [] (ratings !! sanitizeKey t) ++ [mkRating r review now]).
Proof. intros ->%submitRating_Some. by rewrite lookup_insert_eq. Qed.

Lemma submitRating_other ratings t r review now after k :
  submitRating ratings t r review now = Some after →
  k ≠ sanitizeKey t → after !! k = ratings !! k.
Proof. intros ->%submitRating_Some Hk. by rewrite lookup_insert_ne. Qed.

(** A submission returns exactly where the lookup does. *)
Lemma submitRating_is_Some ratings t r review now :
  is_Some (submitRating ratings t r review now) ↔ is_Some (getProjectRating ratings t).
Proof.
  rewrite <- !not_eq_None_Some, submitRating_None, getProjectRating_None. done.
Qed.

Lemma lower_char_underscore : lower_char "_" = "_"%char.
Proof. reflexivity. Qed.

Lemma sanitizeKey_cons c s :
  sanitizeKey (String c s) =
  String (lower_char (if is_alnum c then c else "_"%char)) (sanitizeKey s).
Proof. reflexivity. Qed.

Lemma similar_sanitizeKey t1 t2 : similar t1 t2 → sanitizeKey t1 = sanitizeKey t2.
Proof.
  induction 1 as [|c1 c2 s1 s2 Hc _ IH]; [done|].
  rewrite !sanitizeKey_cons, IH. f_equal.
  destruct Hc as [[-> ->]|(-> & -> & ?)]; done.
Qed.

(** A rating submitted under a key is one more rating, and enters the
    average, of every title with that key. *)
Lemma submitRating_summary ratings t1 t2 r review now :
  sanitizeKey t1 = sanitizeKey t2 →
  ∀ before, getProjectRating ratings t2 = Some before →
  ∃ after summary,
    submitRating ratings t1 r review now = Some after ∧
    getProjectRating after t2 = Some summary ∧
    count summary = count before + 1 ∧
    (average summary ==
       inject_Z (total_rating (default [] (ratings !! sanitizeKey t2)) + r) /
       inject_Z (count before + 1))%Q.
Proof.
  intros Hkey before Hbefore.
  destruct (proj2 (submitRating_is_Some ratings t1 r review now)) as [after Hafter].
  { unfold getProjectRating in *. rewrite Hkey. by rewrite Hbefore. }
  set (old := default [] (ratings !! sanitizeKey t2)).
  assert (Hnew : after !! sanitizeKey t2 = Some (old ++ [mkRating r review now])).
  { unfold old. rewrite <- Hkey. by apply submitRating_lookup. }
  exists after. eexists. split; [done|].
  split; [apply (getProjectRating_stored _ _ _ Hnew); by destruct old|].
  rewrite (getProjectRating_count _ _ _ Hbefore). fold old. cbn [count average].
  rewrite length_app, total_rating_snoc. simpl.
  replace (Z.of_nat (length old + 1)) with (Z.of_nat (length old) + 1) by lia.
  done.
Qed.

End RatingFacts.

(** C8. When the ratings stored for a project are [r_1 .. r_n] with
    [n > 0], [getProjectRating] returns the average [(r_1 + ... + r_n) / n]
    and the count [n]; for the ratings 5, 3, 4 that is 4 and 3. *)
Theorem getProjectRating_average
    (ratings : gmap string (list RatingRecord)) (projectTitle : string)
    (rs : list RatingRecord) :
  ratings !! sanitizeKey projectTitle = Some rs →
  (0 < length rs)%nat →
  ∃ summary,
    getProjectRating ratings projectTitle = Some summary ∧
    (average summary == inject_Z (total_rating rs) / inject_Z (Z.of_nat (length rs)))%Q ∧
    count summary = Z.of_nat (length rs) ∧
    (rating <$> rs = [5; 3; 4] → (average summary == 4)%Q ∧ count summary = 3).
Proof.
  intros Hrs Hn.
  assert (Hne : rs ≠ []) by (destruct rs; [simpl in Hn; lia|done]).
  eexists. split; [exact (getProjectRating_stored _ _ _ Hrs Hne)|]. simpl.
  split; [reflexivity|]. split; [done|].
  intros Hr. destruct rs as [|r1 [|r2 [|r3 [|? ?]]]]; try done.
  injection Hr as H1 H2 H3. unfold total_rating. simpl. rewrite H1, H2, H3. done.
Qed.

(** Three ratings 5, 3, 4 stored under the key of "My Project". *)
Lemma getProjectRating_average_witness :
  ∃ summary,
    getProjectRating
      {[ "my_project" := [mkRating 5 "" 1; mkRating 3 "ok" 2; mkRating 4 "" 3] ]}
      "My Project" = Some summary ∧
    (average summary == 4)%Q.
Proof.
  destruct (getProjectRating_average
    {[ "my_project" := [mkRating 5 "" 1; mkRating 3 "ok" 2; mkRating 4 "" 3] ]}
    "My Project" [mkRating 5 "" 1; mkRating 3 "ok" 2; mkRating 4 "" 3])
    as (summary & Hs & _ & _ & H534).
  - reflexivity.
  - simpl. lia.
  - exists summary. split; [exact Hs|]. exact (proj1 (H534 eq_refl)).
Defined.

(** C10, where the code departs from it. "--proto--" and "__proto__" are two
    titles with one key, and both survive deduplication; but the key names a
    property every object inherits, so that in a store without ratings under
    it neither title has a summary to read, and a rating submitted for the
    one is an exception, which leaves the other as it was. The same holds
    of "Constructor" and "constructor". *)
Theorem prototype_key_ratings_throw :
  "--proto--" ≠ "__proto__" ∧
  sanitizeKey "--proto--" = sanitizeKey "__proto__" ∧
  deduplicate [titled "--proto--"; titled "__proto__"] =
    [titled "--proto--"; titled "__proto__"] ∧
  getProjectRating ∅ "--proto--" = None ∧
  getProjectRating ∅ "__proto__" = None ∧
  submitRating ∅ "--proto--" 5 "" 0 = None ∧
  sanitizeKey "Constructor" = sanitizeKey "constructor" ∧
  getProjectRating ∅ "constructor" = None ∧
  submitRating ∅ "Constructor" 5 "" 0 = None.
Proof. repeat split; by vm_compute. Qed.

(** X27. Ratings are kept per [sanitizeKey], not per title. Two distinct titles
    with the same key have the same rating summary, or none, in every state,
    and a rating submitted for either has one and the same outcome. Where
    the titles have a summary, a rating submitted for one changes the summary
    of the other: its count grows by one and the new rating enters its
    average. Titles that differ only in letter case or in non-alphanumeric
    characters have the same key, as "Foo Bar" and "foo-bar" do, and those
    two both survive deduplication. *)
Theorem sanitizeKey_collisions :
  (∀ t1 t2 : string,
     t1 ≠ t2 → sanitizeKey t1 = sanitizeKey t2 →
     (∀ ratings, getProjectRating ratings t1 = getProjectRating ratings t2) ∧
     (∀ ratings r review now,
        submitRating ratings t1 r review now = submitRating ratings t2 r review now ∧
        ∀ before, getProjectRating ratings t2 = Some before →
          ∃ after summary,
            submitRating ratings t1 r review now = Some after ∧
            getProjectRating after t2 = Some summary ∧
            summary ≠ before ∧
            count summary = count before + 1 ∧
            (average summary ==
               inject_Z (total_rating (default [] (ratings !! sanitizeKey t2)) + r) /
               inject_Z (count before + 1))%Q)) ∧
  (∀ t1 t2 : string, similar t1 t2 → sanitizeKey t1 = sanitizeKey t2) ∧
  ("Foo Bar" ≠ "foo-bar" ∧ similar "Foo Bar" "foo-bar" ∧
   sanitizeKey "Foo Bar" = sanitizeKey "foo-bar" ∧
   deduplicate [titled "Foo Bar"; titled "foo-bar"] =
     [titled "Foo Bar"; titled "foo-bar"]).
Proof.
  split; [|split; [exact similar_sanitizeKey|]].
  - intros t1 t2 _ Hkey. split.
    + intros ratings. unfold getProjectRating. by rewrite Hkey.
    + intros ratings r review now.
      split; [unfold submitRating; by rewrite Hkey|].
      intros before Hbefore.
      destruct (submitRating_summary ratings t1 t2 r review now Hkey before Hbefore)
        as (after & summary & Hafter & Hsummary & Hcount & Havg).
      exists after, summary. repeat (split; [done|]).
      split; [intros ->; lia|]. by split.
  - split; [done|]. split; [|by vm_compute].
    repeat (constructor; [by vm_compute; (left + right)|]).
    constructor.
Qed.

(** "Foo Bar" and "foo-bar" share the key [foo_bar]: one rating for the
    first is one rating of the second. *)
Lemma sanitizeKey_collisions_witness :
  ∃ after summary,
    submitRating ∅ "Foo Bar" 5 "" 0 = Some after ∧
    getProjectRating after "foo-bar" = Some summary ∧
    count summary = 1.
Proof.
  destruct sanitizeKey_collisions as [H _].
  destruct (H "Foo Bar" "foo-bar" ltac:(done) ltac:(reflexivity)) as [_ Hsubmit].
  destruct (Hsubmit ∅ 5 "" 0) as [_ Hafter].
  destruct (Hafter (mkSummary 0 0) ltac:(reflexivity))
    as (after & summary & Ha & Hs & _ & Hcount & _).
  exists after, summary. split; [exact Ha|]. split; [exact Hs|exact Hcount].
Defined.

(** ** Loading *)

Section LoadFacts.
Implicit Types (net : Network) (entry : ManifestEntry) (entries : list ManifestEntry).

Lemma load_entry_None net entry : load_entry net entry = None ↔ entry_fails net entry.
Proof.
  unfold load_entry, entry_fails.
  destruct (project_file net (path entry)) as [| | |[| |p|l]]; split; try done.
  - intros _ item [= <-]. by left.
  - intros _ item [= <-]. by right.
  - intros H. by destruct (H _ eq_refl).
  - intros H. by destruct (H _ eq_refl).
Qed.

Lemma load_entry_record net entry projectData :
  project_file net (path entry) = Body (JObject projectData) →
  load_entry net entry = Some (JObject (set_link (entry_link entry) projectData)).
Proof. unfold load_entry. by intros ->. Qed.

Lemma omap_id_nil {A : Type} (l : list (option A)) :
  omap id l = [] ↔ ∀ x, x ∈ l → x = None.
Proof.
  induction l as [|[a|] l IH]; simpl.
  - split; [by intros _ x ?%elem_of_nil|done].
  - split; [done|]. intros H. by specialize (H (Some a) ltac:(left)).
  - rewrite IH. split.
    + intros H x [->|?]%elem_of_cons; auto.
    + intros H x Hx. apply H. by right.
Qed.

Lemma omap_id_fmap {A B : Type} (f : A → option B) (l : list A) :
  omap id (f <$> l) = omap f l.
Proof.
  induction l as [|x l IH]; [done|]. csimpl. destruct (f x); csimpl; by rewrite IH.
Qed.

Lemma fetchFromManifest_None net : fetchFromManifest net = None ↔ manifest_fails net.
Proof.
  unfold fetchFromManifest, manifest_fails.
  destruct (manifest_file net) as [| | |m]; try (split; done).
  destruct (manifest_projects m) as [entries|] eqn:E.
  - split; [done|]. intros H. specialize (H m eq_refl). congruence.
  - split; [|done]. by intros _ m' [= <-].
Qed.

Lemma fetchFromManifest_nil net : fetchFromManifest net = Some [] ↔ manifest_empty net.
Proof.
  unfold fetchFromManifest, manifest_empty.
  destruct (manifest_file net) as [| | |m].
  1-3: split; [done|]; by intros (? & ? & ? & _).
  destruct (manifest_projects m) as [entries|] eqn:E.
  - split.
    + intros [= H]. exists m, entries. split; [done|]. split; [done|].
      intros entry Hin. apply load_entry_None.
      apply (proj1 (omap_id_nil _) H). apply list_elem_of_fmap. by exists entry.
    + intros (m' & entries' & [= <-] & Hentries & Hfail). f_equal.
      rewrite E in Hentries. injection Hentries as <-.
      apply omap_id_nil. intros x (entry & -> & Hin)%list_elem_of_fmap.
      by apply load_entry_None, Hfail.
  - split; [done|]. intros (m' & entries' & [= <-] & Hentries & _). congruence.
Qed.

Lemma fetchFromManifest_entries net entries :
  fetchFromManifest (with_entries net entries) = Some (omap (load_entry net) entries).
Proof.
  unfold fetchFromManifest. simpl. by rewrite omap_id_fmap.
Qed.

Lemma mapM_item_record_objects (ps : list Project) :
  mapM item_record (JObject <$> ps) = Some ps.
Proof. by apply mapM_fmap_Some. Qed.

Lemma item_record_None (item : JsonItem) : item_record item = None ↔ item_throws item.
Proof.
  unfold item_throws. destruct item as [| |p|l]; simpl.
  - split; [by left|done].
  - split; [done|]. by intros [?|(? & ? & _)].
  - split; [done|]. by intros [?|(? & ? & _)].
  - destruct (falsy l) eqn:E.
    + split; [done|]. intros [?|(l' & [= <-] & ?)]; [done|congruence].
    + split; [|done]. intros _. right. by exists l.
Qed.

Lemma mapM_item_record_None (items : list JsonItem) :
  mapM item_record items = None ↔ ∃ item, item ∈ items ∧ item_throws item.
Proof.
  rewrite mapM_None, Exists_exists. by setoid_rewrite item_record_None.
Qed.

(** The manifest, when it yields an object, is the store's only source. *)
Lemma fetchProjects_manifest net1 net2 net3 ps :
  fetchFromManifest net2 = Some ps → ps ≠ [] →
  fetchProjects net1 net2 net3 =
  match mapM item_record ps with
  | None => LoadError
  | Some records => Loaded (deduplicate records)
  end.
Proof.
  intros Hm Hne. unfold fetchProjects. rewrite Hm. by destruct ps.
Qed.

(** Otherwise the store comes from the legacy call alone. *)
Lemma fetchProjects_fallback net1 net2 net3 :
  manifest_fails net2 ∨ manifest_empty net2 →
  fetchProjects net1 net2 net3 =
  match fetchFromLegacyJson net3 with
  | LegacyOther => LoadError
  | LegacyArray items =>
      match mapM item_record items with
      | None => LoadError
      | Some records => Loaded (deduplicate records)
      end
  end.
Proof.
  intros [H%fetchFromManifest_None|H%fetchFromManifest_nil];
    unfold fetchProjects; by rewrite H.
Qed.

Lemma fetchFromLegacyJson_fails net :
  legacy_fails net → fetchFromLegacyJson net = LegacyArray [].
Proof.
  unfold legacy_fails, fetchFromLegacyJson.
  destruct (legacy_file net) as [| | |json]; try done. intros H. by apply H.
Qed.

End LoadFacts.

(** C5. When the manifest call fails or yields no record, the store is the
    legacy catalogue, deduplicated by the same rule; this does not depend on
    what the first of the two manifest calls found. When the legacy catalogue
    cannot be fetched either, the store is empty. *)
Theorem legacy_fallback (net1 net2 net3 : Network) :
  manifest_fails net2 ∨ manifest_empty net2 →
  (∀ catalog : list Project,
     legacy_file net3 = Body (LegacyArray (JObject <$> catalog)) →
     fetchProjects net1 net2 net3 = Loaded (deduplicate catalog)) ∧
  (legacy_fails net3 → fetchProjects net1 net2 net3 = Loaded []).
Proof.
  intros Hm. rewrite (fetchProjects_fallback _ _ _ Hm). split.
  - intros catalog Hl. unfold fetchFromLegacyJson. rewrite Hl.
    by rewrite mapM_item_record_objects.
  - intros Hl. by rewrite (fetchFromLegacyJson_fails _ Hl).
Qed.

(** The manifest is unreachable and the legacy catalogue lists "Foo" and
    "foo": the store is the first of them. *)
Lemma legacy_fallback_witness :
  fetchProjects offline offline
    (mkNetwork NetworkError (λ _, NetworkError)
               (Body (LegacyArray (JObject <$> [Foo; untitled; foo])))) =
  Loaded [Foo].
Proof.
  refine (proj1 (legacy_fallback offline offline
    (mkNetwork NetworkError (λ _, NetworkError)
               (Body (LegacyArray (JObject <$> [Foo; untitled; foo])))) _)
    [Foo; untitled; foo] _).
  - left. intros manifest H. discriminate H.
  - reflexivity.
Defined.

Section LoadFailures.
Implicit Types (net : Network) (entry : ManifestEntry) (entries : list ManifestEntry).

Lemma omap_load_entry_skip net entries1 entry entries2 :
  entry_fails net entry →
  omap (load_entry net) (entries1 ++ entry :: entries2) =
  omap (load_entry net) (entries1 ++ entries2).
Proof.
  intros Hfail%load_entry_None. rewrite !omap_app. f_equal. csimpl. by rewrite Hfail.
Qed.

Lemma omap_load_entry_not_nil net entries entry :
  entry ∈ entries → ¬ entry_fails net entry → omap (load_entry net) entries ≠ [].
Proof.
  intros Hin Hok Hnil. apply Hok, load_entry_None.
  destruct (load_entry net entry) as [p|] eqn:E; [|done].
  assert (Hp : p ∈ omap (load_entry net) entries).
  { apply list_elem_of_omap. by exists entry. }
  rewrite Hnil in Hp. by apply elem_of_nil in Hp.
Qed.

Lemma fetchFromManifest_listed net manifest entries :
  manifest_file net = Body manifest → manifest_projects manifest = Some entries →
  fetchFromManifest net = Some (omap (load_entry net) entries).
Proof.
  intros Hm He. unfold fetchFromManifest. by rewrite Hm, He, omap_id_fmap.
Qed.

(** [fetchProjects] reads the second network through the manifest call
    alone. *)
Lemma fetchProjects_manifest_ext net1 net2 net2' net3 :
  fetchFromManifest net2 = fetchFromManifest net2' →
  fetchProjects net1 net2 net3 = fetchProjects net1 net2' net3.
Proof. unfold fetchProjects. by intros ->. Qed.

(** Where every document is a record or fails, what loads is the records. *)
Lemma omap_load_entry_records net entries :
  text_titles net entries →
  omap (load_entry net) entries = JObject <$> omap (entry_record net) entries.
Proof.
  induction entries as [|entry entries IH]; intros Htext; [done|].
  assert (Hrest : text_titles net entries).
  { intros e l He. apply Htext. by right. }
  pose proof (Htext entry) as Hentry.
  csimpl. unfold load_entry at 1, entry_record at 1.
  destruct (project_file net (path entry)) as [| | |[| |p|l]]; csimpl;
    rewrite ?IH by done; try done.
  by destruct (Hentry l ltac:(left)).
Qed.

Lemma applySort_nil localeCompare ratings mode :
  applySort localeCompare ratings mode [] = Some [].
Proof. unfold applySort. by repeat destruct (decide _). Qed.

Lemma pageCount_nil {A : Type} (S : Z) : pageCount ([] : list A) S = 0.
Proof. unfold pageCount. simpl. by destruct S. Qed.

Lemma render_empty_store localeCompare ratings config sortSelect page grid :
  ∃ shown,
    render localeCompare ratings config (ProjectVisibilityEngine.new [])
           sortSelect page grid = Some shown ∧
    pageItems shown = [] ∧ emptyState shown = true ∧ paginationPages shown = 0.
Proof.
  unfold render. simpl. rewrite applySort_nil. simpl.
  assert (Hpage : pageOf ([] : list Project) page (ITEMS_PER_PAGE config) = []).
  { unfold pageOf, slice. by rewrite drop_nil, take_nil. }
  rewrite Hpage. eexists. split; [by destruct grid|]. done.
Qed.

(** The data of a load end in an exception in these cases and no other:
    the array in use, which is what the manifest call returns when that is
    not empty and the legacy document otherwise, is no array, or holds an
    item on which the callback of the filter throws. *)
Lemma fetchProjects_LoadError net1 net2 net3 :
  fetchProjects net1 net2 net3 = LoadError ↔
  (∃ ps, fetchFromManifest net2 = Some ps ∧ ps ≠ [] ∧
         ∃ item, item ∈ ps ∧ item_throws item) ∨
  ((manifest_fails net2 ∨ manifest_empty net2) ∧
   (legacy_file net3 = Body LegacyOther ∨
    ∃ items, legacy_file net3 = Body (LegacyArray items) ∧
             ∃ item, item ∈ items ∧ item_throws item)).
Proof.
  assert (Hlegacy :
    match fetchFromLegacyJson net3 with
    | LegacyOther => LoadError
    | LegacyArray items =>
        match mapM item_record items with
        | None => LoadError
        | Some records => Loaded (deduplicate records)
        end
    end = LoadError ↔
    legacy_file net3 = Body LegacyOther ∨
    ∃ items, legacy_file net3 = Body (LegacyArray items) ∧
             ∃ item, item ∈ items ∧ item_throws item).
  { unfold fetchFromLegacyJson.
    destruct (legacy_file net3) as [| | |[items|]].
    1-3: split; [done|]; by intros [?|(? & ? & _)].
    - destruct (mapM item_record items) as [records|] eqn:E.
      + split; [done|]. intros [?|(items' & [= <-] & Hthrow)]; [done|].
        apply mapM_item_record_None in Hthrow. congruence.
      + split; [|done]. intros _. right. exists items. split; [done|].
        by apply mapM_item_record_None.
    - split; [by left|done]. }
  destruct (fetchFromManifest net2) as [[|item ps]|] eqn:Hm.
  - assert (Hnone : manifest_fails net2 ∨ manifest_empty net2)
      by (right; by apply fetchFromManifest_nil).
    rewrite (fetchProjects_fallback _ _ _ Hnone), Hlegacy. split; [by right|].
    by intros [(ps & [= <-] & ? & _)|[_ ?]].
  - rewrite (fetchProjects_manifest _ _ _ (item :: ps) Hm) by done. split.
    + intros Herr. left. exists (item :: ps). split; [done|]. split; [done|].
      apply mapM_item_record_None. by destruct (mapM item_record (item :: ps)).
    + intros [(ps' & [= <-] & _ & Hthrow%mapM_item_record_None)|[[Hf|He] _]].
      * by rewrite Hthrow.
      * apply fetchFromManifest_None in Hf. congruence.
      * apply fetchFromManifest_nil in He. congruence.
  - assert (Hnone : manifest_fails net2 ∨ manifest_empty net2)
      by (left; by apply fetchFromManifest_None).
    rewrite (fetchProjects_fallback _ _ _ Hnone), Hlegacy. split; [by right|].
    by intros [(ps & ? & _)|[_ ?]].
Qed.

End LoadFailures.

(** Against C6 as stated: with nothing reachable both sources fail, and the
    load ends with an empty store, not with the error message; [render],
    called over the skeleton cards, then shows the empty state. *)
Lemma total_failure_is_not_an_error :
  manifest_fails offline ∧ legacy_fails offline ∧
  fetchProjects offline offline offline = Loaded [] ∧
  fetchProjects offline offline offline ≠ LoadError ∧
  render Collation.localeCompare ∅ default_config (ProjectVisibilityEngine.new [])
         None 1 GridSkeleton = Some (mkRendered [] 0 true 0).
Proof.
  split; [by intros manifest H|]. split; [by intros json H|].
  split; [done|]. split; [done|]. by vm_compute.
Qed.

(** C6, as the code has it. A manifest entry whose document cannot be
    fetched or parsed is skipped: the manifest call returns what it would
    return without that entry, and the load ends as it would end without it.
    So, where the documents that do load are records, the store is the
    deduplicated list of them as long as there is one, whatever the first
    manifest call and the legacy catalogue hold. When both sources are empty
    or fail, the load ends with an empty store and [render] shows the empty
    state, with no page and no pagination. *)
Theorem load_failures :
  (∀ net entries1 entry entries2,
     entry_fails net entry →
     fetchFromManifest (with_entries net (entries1 ++ entry :: entries2)) =
     fetchFromManifest (with_entries net (entries1 ++ entries2)) ∧
     ∀ net1 net3,
       fetchProjects net1 (with_entries net (entries1 ++ entry :: entries2)) net3 =
       fetchProjects net1 (with_entries net (entries1 ++ entries2)) net3) ∧
  (∀ net1 net2 net3 manifest entries entry,
     manifest_file net2 = Body manifest →
     manifest_projects manifest = Some entries →
     entry ∈ entries → ¬ entry_fails net2 entry →
     text_titles net2 entries →
     fetchProjects net1 net2 net3 =
     Loaded (deduplicate (omap (entry_record net2) entries))) ∧
  (∀ net1 net2 net3,
     manifest_fails net2 ∨ manifest_empty net2 → legacy_fails net3 →
     fetchProjects net1 net2 net3 = Loaded [] ∧
     ∀ localeCompare ratings config sortSelect page grid,
       ∃ shown,
         render localeCompare ratings config (ProjectVisibilityEngine.new [])
                sortSelect page grid = Some shown ∧
         pageItems shown = [] ∧ emptyState shown = true ∧ paginationPages shown = 0).
Proof.
  split; [|split].
  - intros net entries1 entry entries2 Hfail.
    assert (Hsame :
      fetchFromManifest (with_entries net (entries1 ++ entry :: entries2)) =
      fetchFromManifest (with_entries net (entries1 ++ entries2))).
    { rewrite !fetchFromManifest_entries. f_equal. by apply omap_load_entry_skip. }
    split; [done|]. intros net1 net3. by apply fetchProjects_manifest_ext.
  - intros net1 net2 net3 manifest entries entry Hm He Hin Hok Htext.
    rewrite (fetchProjects_manifest net1 net2 net3 (omap (load_entry net2) entries)).
    + by rewrite omap_load_entry_records, mapM_item_record_objects.
    + by eapply fetchFromManifest_listed.
    + by eapply omap_load_entry_not_nil.
  - intros net1 net2 net3 Hm Hl. split.
    + rewrite (fetchProjects_fallback _ _ _ Hm).
      by rewrite (fetchFromLegacyJson_fails _ Hl).
    + intros. apply render_empty_store.
Qed.

(** One of two manifest entries cannot be fetched; the other one makes up the
    store, with the link of the manifest. *)
Lemma load_failures_witness :
  let files (path : string) :=
    if decide (path = "./projects/foo/project.json")
    then Body (JObject Foo) else HttpError in
  let manifest :=
    mkManifest 2 (Some [mkEntry "./projects/gone/project.json" (Some "./projects/gone/") "gone";
                        mkEntry "./projects/foo/project.json" (Some "./projects/foo/") "foo"]) in
  fetchProjects offline (mkNetwork (Body manifest) files NetworkError) offline =
  Loaded [set_link (Some "./projects/foo/") Foo].
Proof.
  intros files manifest.
  destruct load_failures as (_ & Hload & _).
  refine (Hload offline (mkNetwork (Body manifest) files NetworkError) offline manifest _
            (mkEntry "./projects/foo/project.json" (Some "./projects/foo/") "foo")
            eq_refl eq_refl _ _ _).
  - right. left.
  - intros Hfail. by destruct (Hfail (JObject Foo) eq_refl).
  - intros entry l _ H. simpl in H. unfold files in H. by destruct (decide _).
Defined.


(** ** Text helpers *)

Section HtmlFacts.
Import Html.

Lemma str_app_cons x (a b : string) : String x a +:+ b = String x (a +:+ b).
Proof. reflexivity. Qed.

Lemma str_app_nil_l (a : string) : "" +:+ a = a.
Proof. reflexivity. Qed.

Lemma str_app_assoc (a b c : string) : (a +:+ b) +:+ c = a +:+ (b +:+ c).
Proof. induction a as [|x a IH]; [done|]. by rewrite !str_app_cons, IH. Qed.

Lemma str_app_nil_r (a : string) : a +:+ "" = a.
Proof. induction a as [|x a IH]; [done|]. by rewrite str_app_cons, IH. Qed.

Lemma replaceAll_app c r (a b : string) :
  replaceAll c r (a +:+ b) = replaceAll c r a +:+ replaceAll c r b.
Proof.
  induction a as [|x a IH]; [done|]. rewrite str_app_cons. simpl.
  destruct (decide (x = c)); by rewrite IH, ?str_app_assoc.
Qed.

Lemma replaceAll_cons c r x (s : string) :
  replaceAll c r (String x s) = replaceAll c r (String x "") +:+ replaceAll c r s.
Proof. simpl. destruct (decide (x = c)); by rewrite ?str_app_nil_r. Qed.

(** The five passes act on each character on its own: what an earlier pass
    puts in is left alone by the later ones. *)
Lemma passes_cons x (s : string) :
  replaceAll "'" "&#039;"
    (replaceAll dquote "&quot;"
       (replaceAll ">" "&gt;"
          (replaceAll "<" "&lt;" (replaceAll "&" "&amp;" (String x s))))) =
  escape_char x +:+
  replaceAll "'" "&#039;"
    (replaceAll dquote "&quot;"
       (replaceAll ">" "&gt;"
          (replaceAll "<" "&lt;" (replaceAll "&" "&amp;" s)))).
Proof.
  rewrite (replaceAll_cons "&"), !replaceAll_app. f_equal.
  unfold escape_char.
  destruct (decide (x = "&"%char)) as [->|H1]; [done|].
  destruct (decide (x = "<"%char)) as [->|H2]; [done|].
  destruct (decide (x = ">"%char)) as [->|H3]; [done|].
  destruct (decide (x = dquote)) as [->|H4]; [done|].
  destruct (decide (x = "'"%char)) as [->|H5]; [done|].
  simpl. repeat (destruct (decide _); [done|]; simpl). done.
Qed.

Lemma escapeHtml_escape (s : string) : escapeHtml (Some s) = escape s.
Proof.
  unfold escapeHtml, falsy. destruct (decide (s = "")) as [->|Hne]; [done|].
  simpl default. clear Hne.
  induction s as [|x s IH]; [done|]. rewrite passes_cons. simpl. by rewrite IH.
Qed.

Lemma escape_app (a b : string) : escape (a +:+ b) = escape a +:+ escape b.
Proof.
  induction a as [|x a IH]; [done|]. rewrite str_app_cons. simpl.
  by rewrite IH, str_app_assoc.
Qed.

Lemma has_char_app c (a b : string) :
  has_char c (a +:+ b) ↔ has_char c a ∨ has_char c b.
Proof.
  induction a as [|x a IH]; [simpl; tauto|]. rewrite str_app_cons. simpl.
  rewrite IH. tauto.
Qed.

Lemma escape_char_clean c x :
  c ∈ ["<"%char; ">"%char; dquote; "'"%char] → ¬ has_char c (escape_char x).
Proof.
  intros Hc. unfold escape_char.
  assert (Hconst : ∀ s : string,
    s ∈ ["&amp;"; "&lt;"; "&gt;"; "&quot;"; "&#039;"] → ¬ has_char c s).
  { intros s Hs. repeat (apply elem_of_cons in Hs as [->|Hs]);
      [..|by apply elem_of_nil in Hs];
      repeat (apply elem_of_cons in Hc as [->|Hc]); try (by apply elem_of_nil in Hc);
      simpl; intros H; repeat (destruct H as [H|H]; [discriminate H|]); done. }
  repeat (destruct (decide _) as [->|?];
          [apply Hconst; repeat (try (by left); right)|]).
  simpl. intros [->|[]].
  repeat (apply elem_of_cons in Hc as [?|Hc]; [done|]). by apply elem_of_nil in Hc.
Qed.

Lemma escape_clean c (s : string) :
  c ∈ ["<"%char; ">"%char; dquote; "'"%char] → ¬ has_char c (escape s).
Proof.
  intros Hc. induction s as [|x s IH]; simpl; [tauto|].
  rewrite has_char_app. intros [H|H]; [by apply (escape_char_clean c x)|done].
Qed.

Lemma escape_inj (s : string) : ∀ t, escape s = escape t → s = t.
Proof.
  induction s as [|x s IH]; intros [|y t]; simpl; unfold escape_char; intros H.
  - done.
  - repeat case_decide; rewrite ?str_app_cons, ?str_app_nil_l in H; discriminate H.
  - repeat case_decide; rewrite ?str_app_cons, ?str_app_nil_l in H; discriminate H.
  - repeat case_decide; subst; rewrite ?str_app_cons, ?str_app_nil_l in H;
      simplify_eq; f_equal; by apply IH.
Qed.

Lemma upper_char_idemp c : upper_char (upper_char c) = upper_char c.
Proof.
  destruct c as [[] [] [] [] [] [] [] []]; reflexivity.
Qed.

End HtmlFacts.

(** X1. [escapeHtml] escapes each character on its own, although it is
    written as five passes over the whole text: no entity is escaped twice.
    So it distributes over concatenation, its result holds none of the
    characters less-than, greater-than, double quote and apostrophe, and it
    loses nothing: texts with the same result are the same text. *)
Theorem escapeHtml_spec :
  (∀ s : string, Html.escapeHtml (Some s) = escape s) ∧
  (∀ a b : string,
     Html.escapeHtml (Some (a +:+ b)) =
     Html.escapeHtml (Some a) +:+ Html.escapeHtml (Some b)) ∧
  (∀ (str : option string) (c : ascii),
     c ∈ ["<"%char; ">"%char; Html.dquote; "'"%char] →
     ¬ has_char c (Html.escapeHtml str)) ∧
  (∀ s t : string, Html.escapeHtml (Some s) = Html.escapeHtml (Some t) → s = t) ∧
  Html.escapeHtml None = "" ∧
  Html.escapeHtml (Some "Tom & <b>Jerry</b>") = "Tom &amp; &lt;b&gt;Jerry&lt;/b&gt;".
Proof.
  split; [exact escapeHtml_escape|]. split.
  { intros a b. by rewrite !escapeHtml_escape, escape_app. }
  split.
  { intros [s|] c Hc; [|simpl; tauto]. rewrite escapeHtml_escape. by apply escape_clean. }
  split; [|done].
  intros s t. rewrite !escapeHtml_escape. apply escape_inj.
Qed.

(** X2. Applying [capitalize] twice is applying it once; a text is left as
    it is exactly when its first character is its own upper case; a missing
    or empty text gives the empty text. *)
Theorem capitalize_spec :
  (∀ s : string, Html.capitalize (Some (Html.capitalize (Some s))) = Html.capitalize (Some s)) ∧
  (∀ (c : ascii) (s : string),
     Html.capitalize (Some (String c s)) = String c s ↔ Html.upper_char c = c) ∧
  Html.capitalize None = "" ∧ Html.capitalize (Some "") = "".
Proof.
  split; [|split; [|done]].
  - intros [|c s]; [done|]. unfold Html.capitalize. simpl. by rewrite upper_char_idemp.
  - intros c s. unfold Html.capitalize. simpl. split; [by intros [= ?]|by intros ->].
Qed.


(** ** Source links *)

Section FolderMatchFacts.
Import FolderMatch.

Lemma strip_prefix_spec (p : string) : ∀ s r, strip_prefix p s = Some r ↔ s = p +:+ r.
Proof.
  induction p as [|a p IH]; intros s r; simpl.
  - rewrite str_app_nil_l. split; [by intros [= ->]|by intros ->].
  - rewrite str_app_cons. destruct s as [|b s]; [done|].
    destruct (decide (a = b)) as [->|Hne].
    + rewrite IH. split; [by intros ->|by intros [= ->]].
    + split; [done|]. intros [= ? _]. done.
Qed.

Lemma span_segment_spec (s : string) : ∀ seg rest,
  span_segment s = (seg, rest) →
  s = seg +:+ rest ∧ slash_free seg ∧ (rest = "" ∨ ∃ rest', rest = String "/" rest').
Proof.
  unfold slash_free. induction s as [|c s IH]; intros seg rest; simpl.
  - intros [= <- <-]. split; [done|]. split; [simpl; tauto|by left].
  - destruct (decide (c = "/"%char)) as [->|Hc].
    + intros [= <- <-]. split; [done|]. split; [simpl; tauto|]. right. by exists s.
    + destruct (span_segment s) as [seg' rest'] eqn:E. intros [= <- <-].
      destruct (IH seg' rest' eq_refl) as (-> & Hfree & Hrest).
      split; [done|]. split; [|done]. simpl. intros [?|?]; [done|]. by apply Hfree.
Qed.

Lemma span_segment_slash (folder post : string) :
  slash_free folder →
  span_segment (folder +:+ String "/" post) = (folder, String "/" post).
Proof.
  unfold slash_free. induction folder as [|c folder IH]; intros Hfree; [done|].
  rewrite str_app_cons. simpl. simpl in Hfree.
  destruct (decide (c = "/"%char)) as [Hc|Hc]; [tauto|].
  rewrite IH; [done|tauto].
Qed.

Lemma match_here_spec (s folder : string) :
  match_here s = Some folder ↔
  folder ≠ "" ∧ slash_free folder ∧
  ∃ post, s = "./projects/" +:+ folder +:+ String "/" post.
Proof.
  unfold match_here. split.
  - destruct (strip_prefix "./projects/" s) as [after|] eqn:Hstrip; [|done].
    apply strip_prefix_spec in Hstrip as ->.
    destruct (span_segment after) as [seg rest] eqn:Hspan.
    apply span_segment_spec in Hspan as (-> & Hfree & Hrest).
    destruct seg as [|c seg]; [done|]. destruct rest as [|r rest]; [done|].
    intros [= <-]. split; [done|]. split; [done|].
    destruct Hrest as [?|[rest' [= -> ->]]]; [done|]. by exists rest'.
  - intros (Hne & Hfree & post & ->).
    assert (Hstrip : strip_prefix "./projects/" ("./projects/" +:+ folder +:+ String "/" post)
                     = Some (folder +:+ String "/" post)) by by apply strip_prefix_spec.
    rewrite Hstrip, span_segment_slash by done. by destruct folder.
Qed.

Lemma folderMatch_sound (link : string) : ∀ folder,
  folderMatch link = Some folder →
  folder ≠ "" ∧ slash_free folder ∧ occurs_in ("./projects/" +:+ folder +:+ "/") link.
Proof.
  induction link as [|c link IH]; intros folder; simpl.
  - done.
  - destruct (match_here (String c link)) as [f|] eqn:E.
    + intros [= ->]. apply match_here_spec in E as (? & ? & post & Hpost).
      split; [done|]. split; [done|]. exists "", post.
      by rewrite Hpost, str_app_nil_l, !str_app_assoc.
    + intros H. apply IH in H as (? & ? & pre & post & ->).
      split; [done|]. split; [done|]. by exists (String c pre), post.
Qed.

Lemma folderMatch_complete (link : string) :
  folderMatch link = None → ¬ has_folder link.
Proof.
  induction link as [|c link IH]; simpl.
  - intros _ (folder & _ & _ & [|? ?] & post & H); done.
  - destruct (match_here (String c link)) as [f|] eqn:E; [done|].
    intros Hnone (folder & Hne & Hfree & pre & post & Hlink).
    destruct pre as [|p pre].
    + rewrite str_app_nil_l, !str_app_assoc in Hlink.
      assert (match_here (String c link) = Some folder); [|congruence].
      apply match_here_spec. split; [done|]. split; [done|]. by exists post.
    + rewrite str_app_cons in Hlink. injection Hlink as -> ->.
      apply (IH Hnone). exists folder. split; [done|]. split; [done|]. by exists pre, post.
Qed.

End FolderMatchFacts.

(** X3. [getSourceCodeUrl] answers "#" for a missing or empty link. A link
    that starts with "./projects/", a folder name and "/" is sent to the
    folder's page of the repository. A link in which no folder can be
    captured is returned as it is; otherwise the answer is the repository
    page of a folder that is non-empty, has no "/" and stands in the link
    between "./projects/" and "/". *)
Theorem getSourceCodeUrl_spec (encodeURIComponent : string → string) :
  let base := "https://github.com/YadavAkhileshh/OpenPlayground/tree/main/projects/" in
  getSourceCodeUrl encodeURIComponent None = "#" ∧
  getSourceCodeUrl encodeURIComponent (Some "") = "#" ∧
  (∀ folder rest : string,
     folder ≠ "" → slash_free folder →
     getSourceCodeUrl encodeURIComponent
       (Some ("./projects/" +:+ folder +:+ "/" +:+ rest)) =
     base +:+ encodeURIComponent folder) ∧
  (∀ link : string,
     link ≠ "" → ¬ has_folder link →
     getSourceCodeUrl encodeURIComponent (Some link) = link) ∧
  (∀ link : string,
     link ≠ "" → has_folder link →
     ∃ folder, folder ≠ "" ∧ slash_free folder ∧
               occurs_in ("./projects/" +:+ folder +:+ "/") link ∧
               getSourceCodeUrl encodeURIComponent (Some link) =
               base +:+ encodeURIComponent folder).
Proof.
  intros base. split; [done|]. split; [done|].
  assert (Hfalsy : ∀ link : string, link ≠ "" → falsy (Some link) = false).
  { intros link Hne. unfold falsy. by destruct (decide (link = "")). }
  split; [|split].
  - intros folder rest Hne Hfree. unfold getSourceCodeUrl.
    rewrite Hfalsy by by destruct folder. simpl default.
    assert (Hm : FolderMatch.match_here ("./projects/" +:+ folder +:+ "/" +:+ rest) = Some folder).
    { apply match_here_spec. split; [done|]. split; [done|]. by exists rest. }
    assert (Hf : FolderMatch.folderMatch ("./projects/" +:+ folder +:+ "/" +:+ rest) = Some folder).
    { change ("./projects/" +:+ folder +:+ "/" +:+ rest)
        with (String "." ("/projects/" +:+ folder +:+ "/" +:+ rest)) in *.
      simpl. by rewrite Hm. }
    by rewrite Hf.
  - intros link Hne Hnone. unfold getSourceCodeUrl. rewrite Hfalsy by done. simpl default.
    destruct (FolderMatch.folderMatch link) as [folder|] eqn:E; [|done].
    exfalso. apply Hnone. exists folder. by apply folderMatch_sound.
  - intros link Hne Hsome. unfold getSourceCodeUrl. rewrite Hfalsy by done. simpl default.
    destruct (FolderMatch.folderMatch link) as [folder|] eqn:E.
    + exists folder. apply folderMatch_sound in E as (? & ? & ?). done.
    + by apply folderMatch_complete in E.
Qed.

(** ** Stars *)

Section StarFacts.

Lemma inject_Z_le (a b : Z) : a ≤ b → (inject_Z a <= inject_Z b)%Q.
Proof. intros H. by rewrite <- Zle_Qle. Qed.

Lemma floor_ge (r : Q) (i : Z) : (inject_Z i <= r)%Q ↔ i ≤ Qfloor r.
Proof.
  split.
  - intros H%Qfloor_resp_le. by rewrite Qfloor_Z in H.
  - intros H%inject_Z_le. pose proof (Qfloor_le r). lra.
Qed.

Lemma floor_bounds (r : Q) :
  (inject_Z (Qfloor r) <= r)%Q ∧ (r < inject_Z (Qfloor r) + 1)%Q.
Proof.
  split; [apply Qfloor_le|]. pose proof (Qlt_floor r) as H.
  rewrite inject_Z_plus in H. exact H.
Qed.

(** Star [i] is full up to the integer part of the rating, half right after
    it when the fractional part is at least one half, and empty otherwise. *)
Lemma star_at_spec (r : Q) (i : Z) :
  star_at r i =
  if decide (i ≤ Qfloor r) then StarFill
  else if decide (i = Qfloor r + 1 ∧ (1 # 2 <= r - inject_Z (Qfloor r))%Q) then StarHalf
  else StarLine.
Proof.
  unfold star_at. destruct (floor_bounds r) as [Hlo Hhi].
  destruct (decide (i ≤ Qfloor r)) as [Hi|Hi].
  - apply floor_ge, Qle_bool_iff in Hi. by rewrite Hi.
  - assert (Qle_bool (inject_Z i) r = false) as ->.
    { destruct (Qle_bool (inject_Z i) r) eqn:E; [|done].
      apply Qle_bool_iff, floor_ge in E. done. }
    destruct (decide _) as [[-> Hhalf]|Hn].
    + assert ((inject_Z (Qfloor r + 1) - (1 # 2) <= r)%Q) as H%Qle_bool_iff.
      { rewrite inject_Z_plus. change (inject_Z 1) with 1%Q. lra. }
      by rewrite H.
    + destruct (Qle_bool (inject_Z i - (1 # 2)) r) eqn:E; [|done].
      apply Qle_bool_iff in E. exfalso. apply Hn.
      assert (Heq : i = Qfloor r + 1).
      { destruct (Z_le_gt_dec i (Qfloor r + 1)) as [?|Hgt]; [lia|].
        assert (Qfloor r + 2 ≤ i) as H2%inject_Z_le by lia.
        rewrite inject_Z_plus in H2. change (inject_Z 2) with 2%Q in H2. lra. }
      split; [done|]. subst i. rewrite inject_Z_plus in E.
      change (inject_Z 1) with 1%Q in E. lra.
Qed.

Lemma generateStars_unfold (r : Q) :
  generateStars r =
  star_html (star_at r 1) +:+ star_html (star_at r 2) +:+ star_html (star_at r 3) +:+
  star_html (star_at r 4) +:+ star_html (star_at r 5).
Proof.
  unfold generateStars. simpl. by rewrite str_app_nil_l, !str_app_assoc.
Qed.

End StarFacts.

(** X4. [generateStars] draws five stars, and star [i] is full exactly when
    [i] is at most the integer part of the rating, half exactly when it is
    the next star and the fractional part is at least one half, and empty
    otherwise: a rating of 3.9 shows three full stars and a half one, not
    four. A rating of 0 gives five empty stars and a rating of 5 five full
    ones. *)
Theorem generateStars_spec (rating : Q) :
  generateStars rating =
    star_html (star_at rating 1) +:+ star_html (star_at rating 2) +:+
    star_html (star_at rating 3) +:+ star_html (star_at rating 4) +:+
    star_html (star_at rating 5) ∧
  (∀ i : Z,
     (star_at rating i = StarFill ↔ i ≤ Qfloor rating) ∧
     (star_at rating i = StarHalf ↔
        i = Qfloor rating + 1 ∧ (1 # 2 <= rating - inject_Z (Qfloor rating))%Q) ∧
     (star_at rating i = StarLine ↔
        Qfloor rating + 1 < i ∨
        (i = Qfloor rating + 1 ∧ (rating - inject_Z (Qfloor rating) < 1 # 2)%Q))) ∧
  (λ r, star_at r <$> [1; 2; 3; 4; 5]) <$> [(39 # 10)%Q; 0%Q; 5%Q] =
    [[StarFill; StarFill; StarFill; StarHalf; StarLine];
     [StarLine; StarLine; StarLine; StarLine; StarLine];
     [StarFill; StarFill; StarFill; StarFill; StarFill]].
Proof.
  split; [apply generateStars_unfold|]. split; [|done].
  intros i. rewrite star_at_spec.
  destruct (decide (i ≤ Qfloor rating)) as [Hi|Hi].
  - split; [done|]. split; (split; [done|]).
    + intros [-> _]. lia.
    + intros [?|[-> _]]; lia.
  - destruct (decide _) as [[-> Hhalf]|Hn].
    + split; [done|]. split; [done|]. split; [done|].
      intros [?|[_ ?]]; [lia|lra].
    + split; [done|]. split; [done|]. split; [|done]. intros _.
      destruct (decide (i = Qfloor rating + 1)) as [->|?]; [|left; lia].
      right. split; [done|].
      destruct (Qlt_le_dec (rating - inject_Z (Qfloor rating)) (1 # 2)); [done|].
      exfalso. by apply Hn.
Qed.

(** ** Ratings over time *)

Section RatingInvariants.
Implicit Types (ratings : gmap string (list RatingRecord)) (rs : list RatingRecord).

Lemma inherited_spec key :
  inherited key = true ↔ key = "constructor" ∨ key = "__proto__".
Proof. unfold inherited. apply bool_decide_eq_true. Qed.

Lemma getProjectRating_other ratings t t' r review now after :
  submitRating ratings t r review now = Some after →
  sanitizeKey t' ≠ sanitizeKey t →
  getProjectRating after t' = getProjectRating ratings t'.
Proof.
  intros Hafter Hk. unfold getProjectRating, property.
  by rewrite (submitRating_other _ _ _ _ _ _ _ Hafter Hk).
Qed.

Lemma submitRating_prefix ratings t r review now after key rs :
  submitRating ratings t r review now = Some after →
  ratings !! key = Some rs →
  ∃ rs', after !! key = Some rs' ∧ rs `prefix_of` rs'.
Proof.
  intros Hafter Hrs. destruct (decide (key = sanitizeKey t)) as [->|Hne].
  - rewrite (submitRating_lookup _ _ _ _ _ _ Hafter), Hrs. simpl.
    eexists. split; [done|]. by apply prefix_app_r.
  - rewrite (submitRating_other _ _ _ _ _ _ _ Hafter Hne). by exists rs.
Qed.

Lemma submitRating_valid ratings t r review now after :
  1 ≤ r ≤ 5 → ratings_valid ratings →
  submitRating ratings t r review now = Some after →
  ratings_valid after.
Proof.
  intros Hr Hvalid Hafter key rs x Hrs Hx.
  destruct (decide (key = sanitizeKey t)) as [->|Hne].
  - rewrite (submitRating_lookup _ _ _ _ _ _ Hafter) in Hrs. injection Hrs as <-.
    apply elem_of_app in Hx as [Hx|Hx].
    + destruct (ratings !! sanitizeKey t) as [old|] eqn:E; simpl in Hx.
      * by apply (Hvalid _ _ _ E).
      * by apply elem_of_nil in Hx.
    + apply list_elem_of_singleton in Hx as ->. done.
  - rewrite (submitRating_other _ _ _ _ _ _ _ Hafter Hne) in Hrs.
    by apply (Hvalid _ _ _ Hrs).
Qed.

Lemma clickStar_range n sel : 0 ≤ sel ≤ 5 → 0 ≤ RatingModal.clickStar n sel ≤ 5.
Proof.
  intros Hsel. unfold RatingModal.clickStar, RatingModal.stars.
  do 5 (destruct n as [|n]; [simpl; lia|]). simpl. done.
Qed.

Lemma selected_range clicks : 0 ≤ RatingModal.selected clicks ≤ 5.
Proof.
  unfold RatingModal.selected.
  assert (H : ∀ sel, 0 ≤ sel ≤ 5 →
    0 ≤ fold_left (λ selectedRating n, RatingModal.clickStar n selectedRating) clicks sel ≤ 5).
  { induction clicks as [|n clicks IH]; intros sel Hsel; [done|].
    simpl. by apply IH, clickStar_range. }
  apply H. lia.
Qed.

Lemma total_rating_bounds rs :
  (∀ r, r ∈ rs → 1 ≤ rating r ≤ 5) →
  Z.of_nat (length rs) ≤ total_rating rs ≤ 5 * Z.of_nat (length rs).
Proof.
  induction rs as [|r rs IH]; intros H; simpl; [lia|].
  pose proof (H r ltac:(left)).
  assert (∀ x, x ∈ rs → 1 ≤ rating x ≤ 5) as Hrs by (intros x Hx; apply H; by right).
  specialize (IH Hrs). unfold total_rating in *. simpl. lia.
Qed.

Lemma average_bounds (total n : Z) :
  0 < n → n ≤ total ≤ 5 * n →
  (1 <= inject_Z total / inject_Z n)%Q ∧ (inject_Z total / inject_Z n <= 5)%Q.
Proof.
  intros Hn [Hlo Hhi].
  assert (Hpos : (0 < inject_Z n)%Q) by (change 0%Q with (inject_Z 0); by rewrite <- Zlt_Qlt).
  split.
  - apply Qle_shift_div_l; [done|]. rewrite Qmult_1_l. by apply inject_Z_le.
  - apply Qle_shift_div_r; [done|].
    change 5%Q with (inject_Z 5). rewrite <- inject_Z_mult. by apply inject_Z_le.
Qed.

End RatingInvariants.

(** X5. Ratings are only ever appended. [submitRating] throws exactly when
    the key of the title is [constructor] or [__proto__] and the store has no
    ratings under it; nothing is stored then. Otherwise it returns, and the
    sequence stored under the key is the old one followed by the new record;
    every sequence stored before is still there as a prefix of what is stored
    now; and a project with another key keeps its summary. *)
Theorem submitRating_appends
    (ratings : gmap string (list RatingRecord)) (projectTitle : string)
    (r : Z) (review : string) (now : Z) :
  let key := sanitizeKey projectTitle in
  (submitRating ratings projectTitle r review now = None ↔
     ratings !! key = None ∧ (key = "constructor" ∨ key = "__proto__")) ∧
  (∀ after, submitRating ratings projectTitle r review now = Some after →
     after !! key = Some (default [] (ratings !! key) ++ [mkRating r review now]) ∧
     (∀ k, k ≠ key → after !! k = ratings !! k) ∧
     (∀ k rs, ratings !! k = Some rs →
        ∃ rs', after !! k = Some rs' ∧ rs `prefix_of` rs') ∧
     (∀ other, sanitizeKey other ≠ key →
        getProjectRating after other = getProjectRating ratings other)).
Proof.
  intros key. split; [by rewrite submitRating_None, inherited_spec|].
  intros after Hafter.
  split; [by apply submitRating_lookup|].
  split; [intros k Hk; by eapply submitRating_other|].
  split; [intros k rs; by eapply submitRating_prefix|].
  intros other Hk. by eapply getProjectRating_other.
Qed.

(** X6. The rating dialog keeps every stored rating within 1..5: whatever
    stars are clicked, in whatever order, the rating chosen is 0 (none) or
    one of 1..5, and "Submit" stores it only when it is not 0. *)
Theorem modal_keeps_ratings_valid
    (project : Project) (clicks : list nat) (review : string) (now : Z)
    (s : Manager.State) :
  ratings_valid (Manager.ratings s) →
  0 ≤ RatingModal.selected clicks ≤ 5 ∧
  ratings_valid (Manager.ratings (RatingModal.submit project clicks review now s)) ∧
  (RatingModal.selected clicks = 0 → RatingModal.submit project clicks review now s = s).
Proof.
  intros Hvalid. pose proof (selected_range clicks) as Hsel.
  split; [done|]. unfold RatingModal.submit, Manager.handle.
  destruct (decide (0 < RatingModal.selected clicks)) as [Hpos|Hzero]; [|done].
  split; [|lia].
  destruct (submitRating _ _ _ _ _) as [after|] eqn:Hafter; [|done].
  simpl. eapply submitRating_valid; [|done|exact Hafter]. lia.
Qed.

(** In an empty store, the third star is clicked, then the fifth. *)
Lemma modal_keeps_ratings_valid_witness :
  ratings_valid
    (Manager.ratings
       (RatingModal.submit (titled "Snake") [2%nat; 4%nat] "" 0
          (Manager.mk [] None "card" 1 ∅ None))).
Proof.
  refine (proj1 (proj2 (modal_keeps_ratings_valid (titled "Snake") [2%nat; 4%nat] "" 0
                          (Manager.mk [] None "card" 1 ∅ None) _))).
  intros key rs r H. simpl in H. by rewrite lookup_empty in H.
Defined.

(** X7. [getProjectRating] throws exactly when the key of the title is
    [constructor] or [__proto__] and the store has no ratings under it.
    Otherwise, while every stored rating is within 1..5, the average it
    returns is 0 when the project has no rating and lies between 1 and 5 when
    it has one; so a rated project always shows a first star that is full,
    and an unrated one shows five empty stars. *)
Theorem average_in_range
    (ratings : gmap string (list RatingRecord)) (projectTitle : string) :
  ratings_valid ratings →
  let key := sanitizeKey projectTitle in
  (getProjectRating ratings projectTitle = None ↔
     ratings !! key = None ∧ (key = "constructor" ∨ key = "__proto__")) ∧
  ∀ summary, getProjectRating ratings projectTitle = Some summary →
    (count summary = 0 →
       average summary = 0%Q ∧
       star_at (average summary) <$> [1; 2; 3; 4; 5] =
         [StarLine; StarLine; StarLine; StarLine; StarLine]) ∧
    (0 < count summary →
       (1 <= average summary)%Q ∧ (average summary <= 5)%Q ∧
       star_at (average summary) 1 = StarFill) ∧
    0 ≤ count summary.
Proof.
  intros Hvalid key. split; [by rewrite getProjectRating_None, inherited_spec|].
  intros summary ->%getProjectRating_Some. fold key.
  destruct (ratings !! key) as [rs|] eqn:Hrs; simpl;
    [|split; [done|]; split; [lia|done]].
  destruct (decide (length rs = 0%nat)) as [Hz|Hnz]; simpl;
    [split; [done|]; split; [lia|done]|].
  assert (Hb : Z.of_nat (length rs) ≤ total_rating rs ≤ 5 * Z.of_nat (length rs)).
  { apply total_rating_bounds. intros x Hx. by apply (Hvalid _ _ _ Hrs). }
  assert (Hn : 0 < Z.of_nat (length rs)) by lia.
  set (n := Z.of_nat (length rs)) in *.
  set (total := total_rating rs) in *.
  destruct (average_bounds total n Hn Hb) as [Hlo Hhi].
  split; [lia|]. split; [|lia]. intros _. split; [done|]. split; [done|].
  unfold star_at. change (inject_Z 1) with 1%Q.
  apply Qle_bool_iff in Hlo. by rewrite Hlo.
Qed.

(** Snake has one rating, a 4. *)
Lemma average_in_range_witness :
  ∃ summary,
    getProjectRating {[ "snake" := [mkRating 4 "" 0] ]} "Snake" = Some summary ∧
    (1 <= average summary)%Q.
Proof.
  destruct (average_in_range {[ "snake" := [mkRating 4 "" 0] ]} "Snake") as [_ H].
  - intros key rs r [<- <-]%lookup_singleton_Some Hr.
    apply list_elem_of_singleton in Hr as ->. simpl. lia.
  - exists (mkSummary (inject_Z 4 / inject_Z 1) 1).
    split; [reflexivity|].
    refine (proj1 (proj1 (proj2 (H (mkSummary (inject_Z 4 / inject_Z 1) 1) eq_refl)) _)).
    reflexivity.
Defined.

(** ** The pager *)

Section PagerFacts.

Lemma StronglySorted_sublist {A : Type} (R : A → A → Prop) (k l : list A) :
  sublist k l → StronglySorted R l → StronglySorted R k.
Proof.
  induction 1 as [|x k l Hsub IH|x k l Hsub IH]; intros Hs; [done|..].
  - apply StronglySorted_inv in Hs as [Hs Hx]. constructor; [by apply IH|].
    apply Forall_forall. intros y Hy. apply (proj1 (Forall_forall _ _) Hx).
    by eapply elem_of_sublist.
  - apply StronglySorted_inv in Hs as [Hs _]. by apply IH.
Qed.

Lemma seqZ_sorted (n : nat) : ∀ m, StronglySorted Z.lt (seqZ m (Z.of_nat n)).
Proof.
  induction n as [|n IH]; intros m; [constructor|].
  rewrite seqZ_cons by lia. replace (Z.pred (Z.of_nat (S n))) with (Z.of_nat n) by lia.
  constructor; [apply IH|]. apply Forall_forall. intros x Hx%elem_of_seqZ. lia.
Qed.

Lemma omap_cons {A B : Type} (f : A → option B) (x : A) (l : list A) :
  omap f (x :: l) = match f x with Some y => y :: omap f l | None => omap f l end.
Proof. reflexivity. Qed.

Lemma omap_length_filter {A B : Type} (f : A → option B) (l : list A) :
  length (omap f l) = length (filter (λ x, is_Some (f x)) l).
Proof.
  induction l as [|x l IH]; [done|]. rewrite omap_cons, filter_cons.
  destruct (decide (is_Some (f x))) as [[y Hy]|Hn].
  - rewrite Hy. simpl. by rewrite IH.
  - destruct (f x) as [y|] eqn:E; [|done]. exfalso. by apply Hn.
Qed.

Lemma omap_button_page_sublist (c t : Z) (l : list Z) :
  sublist (omap button_page (omap (pager_item c t) l)) l.
Proof.
  induction l as [|i l IH]; [constructor|]. rewrite omap_cons.
  unfold pager_item at 1.
  repeat case_decide; rewrite ?omap_cons; simpl;
    first [by apply sublist_skip|by apply sublist_cons].
Qed.

Lemma pager_item_button (c t i : Z) (item : PagerItem) :
  pager_item c t i = Some item →
  (∀ page active, item = PageButton page active →
     page = i ∧ active = bool_decide (i = c) ∧
     (i = 1 ∨ i = t ∨ c - 2 ≤ i ≤ c + 2)) ∧
  (i = 1 ∨ i = t ∨ c - 3 ≤ i ≤ c + 3).
Proof.
  unfold pager_item.
  destruct (decide (i = 1 ∨ i = t ∨ c - 2 ≤ i ≤ c + 2)) as [Hb|Hb].
  - intros [= <-]. split; [|lia]. by intros page active [= <- <-].
  - destruct (decide (i = c - 3 ∨ i = c + 3)) as [Hd|Hd]; [|done].
    intros [= <-]. split; [|lia]. intros page active H. discriminate H.
Qed.

Lemma pager_middle_length (c t : Z) :
  (length (omap (pager_item c t) (seqZ 1 t)) ≤ 9)%nat.
Proof.
  rewrite omap_length_filter.
  change 9%nat with (length [1; t; c - 3; c - 2; c - 1; c; c + 1; c + 2; c + 3]).
  apply submseteq_length, NoDup_submseteq.
  - apply NoDup_filter, NoDup_seqZ.
  - intros i [[item Hitem] _]%list_elem_of_filter.
    apply pager_item_button in Hitem as [_ Hi].
    assert (i = 1 ∨ i = t ∨ i = c - 3 ∨ i = c - 2 ∨ i = c - 1 ∨ i = c ∨
            i = c + 1 ∨ i = c + 2 ∨ i = c + 3) as Hcases by lia.
    repeat (destruct Hcases as [->|Hcases]; [repeat (try (by left); right)|]).
    subst. repeat (try (by left); right).
Qed.

End PagerFacts.

(** X8. With at most one page the pager is emptied. Otherwise it is a
    "previous" control, the page controls, and a "next" control; "previous"
    is disabled exactly on page 1 and "next" exactly on the last page; a page
    has a numbered button exactly when it is the first page, the last, or
    within two pages of the current one, and that button is marked active
    exactly for the current page; the numbered buttons stand in increasing
    order; and there are never more than eleven controls, however many pages
    there are. *)
Theorem renderPagination_spec (currentPage totalPages : Z) :
  (totalPages ≤ 1 → renderPagination true currentPage totalPages = Some []) ∧
  (1 < totalPages →
   ∃ middle,
     renderPagination true currentPage totalPages =
       Some (PrevButton (bool_decide (currentPage = 1)) (currentPage - 1) :: middle ++
             [NextButton (bool_decide (currentPage = totalPages)) (currentPage + 1)]) ∧
     (∀ page active,
        PageButton page active ∈ middle ↔
        has_button currentPage totalPages page ∧ active = bool_decide (page = currentPage)) ∧
     (∀ item, item ∈ middle →
        item = PagerDots ∨ ∃ page active, item = PageButton page active) ∧
     StronglySorted Z.lt (omap button_page middle) ∧
     (length middle ≤ 9)%nat) ∧
  renderPagination false currentPage totalPages = None.
Proof.
  split; [|split; [|done]].
  - intros Ht. unfold renderPagination. simpl. by destruct (decide (totalPages ≤ 1)).
  - intros Ht. exists (omap (pager_item currentPage totalPages) (seqZ 1 totalPages)).
    split.
    { unfold renderPagination. simpl. destruct (decide (totalPages ≤ 1)); [lia|done]. }
    split; [|split; [|split]].
    + intros page active. rewrite list_elem_of_omap. unfold has_button. split.
      * intros (i & Hi%elem_of_seqZ & Hitem).
        destruct (pager_item_button _ _ _ _ Hitem) as [Hb _].
        destruct (Hb page active eq_refl) as (-> & -> & ?). split; [|done]. split; [lia|done].
      * intros [[Hrange Hshown] ->]. exists page. split; [apply elem_of_seqZ; lia|].
        unfold pager_item. destruct (decide _) as [?|Hn]; [done|]. exfalso. apply Hn. lia.
    + intros item (i & _ & Hitem)%list_elem_of_omap. unfold pager_item in Hitem.
      destruct (decide (i = 1 ∨ _)); [|destruct (decide (i = _ ∨ _)); [|done]];
        injection Hitem as <-; [right; eauto|by left].
    + eapply StronglySorted_sublist; [apply omap_button_page_sublist|].
      destruct (decide (0 ≤ totalPages)) as [Hpos|Hneg]; [|lia].
      rewrite <- (Z2Nat.id totalPages) by done. apply seqZ_sorted.
    + apply pager_middle_length.
Qed.

(** Page 5 of 20: buttons 1, 3..7 and 20. *)
Example pager_page_5_of_20 :
  renderPagination true 5 20 =
  Some [PrevButton false 4; PageButton 1 false; PagerDots; PageButton 3 false;
        PageButton 4 false; PageButton 5 true; PageButton 6 false; PageButton 7 false;
        PagerDots; PageButton 20 false; NextButton false 6].
Proof. by vm_compute. Qed.

(** ** Pages and events *)

Section PageFacts.
Context {A : Type}.
Implicit Types (l : list A).

Lemma pageOf_take_drop l (p S : Z) :
  0 < S → 1 ≤ p →
  pageOf l p S = take (Z.to_nat S) (drop (Z.to_nat ((p - 1) * S)) l).
Proof.
  intros HS Hp. apply list_eq. intros i. unfold pageOf.
  rewrite slice_lookup by nia.
  destruct (decide (i < Z.to_nat S)%nat) as [Hi|Hi].
  - rewrite lookup_take_lt, lookup_drop by done.
    destruct (decide _) as [Hlt|Hge]; [done|].
    symmetry. apply lookup_ge_None_2. lia.
  - rewrite lookup_take_ge by lia. destruct (decide _) as [Hlt|Hge]; [lia|done].
Qed.

Lemma pageOf_length l (p S : Z) :
  0 < S → 1 ≤ p →
  Z.of_nat (length (pageOf l p S)) =
  Z.max 0 (Z.min (Z.of_nat (length l)) (p * S) - (p - 1) * S).
Proof.
  intros HS Hp. unfold pageOf.
  replace ((p - 1) * S + S) with (p * S) by lia. apply slice_length; nia.
Qed.

Lemma pages_concat l (S : Z) (n : nat) :
  0 < S →
  concat ((λ p, pageOf l p S) <$> seqZ 1 (Z.of_nat n)) = take (n * Z.to_nat S) l.
Proof.
  intros HS. induction n as [|n IH]; [done|].
  rewrite seqZ_S, fmap_app, concat_app, IH. simpl. rewrite app_nil_r.
  rewrite pageOf_take_drop by lia.
  replace (Z.to_nat ((1 + Z.of_nat n - 1) * S)) with (n * Z.to_nat S)%nat by nia.
  rewrite take_take_drop. f_equal. lia.
Qed.

Lemma pageOf_range l (S : Z) :
  0 < S →
  (∀ p, 1 ≤ p ≤ pageCount l S → pageOf l p S ≠ []) ∧
  (∀ p, 1 ≤ p → pageCount l S < p → pageOf l p S = []).
Proof.
  intros HS. pose proof (pageCount_bounds l S HS) as Hb. split.
  - intros p Hp Hnil. pose proof (pageOf_length l p S HS ltac:(lia)) as Hlen.
    rewrite Hnil in Hlen. simpl in Hlen. nia.
  - intros p Hp1 Hp. apply length_zero_iff_nil.
    pose proof (pageOf_length l p S HS ltac:(lia)) as Hlen. nia.
Qed.

End PageFacts.

Section RenderFacts.
Variable localeCompare : string → string → Z.
Variable ratings : gmap string (list RatingRecord).

Lemma pageCount_length {A B : Type} (l : list A) (k : list B) (S : Z) :
  length l = length k → pageCount l S = pageCount k S.
Proof. unfold pageCount. by intros ->. Qed.

Lemma applySort_pageCount mode (filtered l : list Project) (S : Z) :
  applySort localeCompare ratings mode filtered = Some l →
  pageCount l S = pageCount filtered S.
Proof. intros Hl%applySort_perm. apply pageCount_length. by rewrite Hl. Qed.

End RenderFacts.

(** X9. Paging loses nothing: for a page size [S > 0], the pages 1 up to
    the page count, put one after the other, are the list itself; every page
    before the last holds exactly [S] records, and every page up to the page
    count holds at least one. *)
Theorem pages_partition (A : Type) (l : list A) (S : Z) :
  0 < S →
  concat ((λ p, pageOf l p S) <$> seqZ 1 (pageCount l S)) = l ∧
  (∀ p, 1 ≤ p < pageCount l S → Z.of_nat (length (pageOf l p S)) = S) ∧
  (∀ p, 1 ≤ p ≤ pageCount l S → pageOf l p S ≠ []) ∧
  (∀ p, 1 ≤ p → pageCount l S < p → pageOf l p S = []).
Proof.
  intros HS. pose proof (pageCount_bounds l S HS) as Hb.
  assert (Hk : 0 ≤ pageCount l S) by nia.
  split; [|split; [|apply pageOf_range, HS]].
  - rewrite <- (Z2Nat.id (pageCount l S)) at 1 by done.
    rewrite pages_concat by done. apply take_ge. nia.
  - intros p Hp. rewrite pageOf_length by lia. nia.
Qed.

(** Five records in pages of two. *)
Lemma pages_partition_witness :
  concat ((λ p, pageOf [1; 2; 3; 4; 5] p 2) <$> seqZ 1 (pageCount [1; 2; 3; 4; 5] 2)) =
  [1; 2; 3; 4; 5].
Proof. exact (proj1 (pages_partition Z [1; 2; 3; 4; 5] 2 ltac:(lia))). Defined.

(** X10. Sorting rearranges and nothing else. It throws in the two rating
    modes only, on a list of two records or more one of which has no summary
    to read. Wherever it returns, in every mode, known or not, and whatever
    [localeCompare] answers, the sorted list has the records of the filtered
    list, each as many times, so it has as many pages. *)
Theorem sorting_keeps_records
    (localeCompare : string → string → Z) (ratings : gmap string (list RatingRecord))
    (sortMode : string) (filtered : list Project) (itemsPerPage : Z) :
  (applySort localeCompare ratings sortMode filtered = None ↔
     (sortMode = "rating-high" ∨ sortMode = "rating-low") ∧
     (2 ≤ length filtered)%nat ∧
     ∃ p, p ∈ filtered ∧ getProjectRating ratings (titleOf p) = None) ∧
  (∀ l, applySort localeCompare ratings sortMode filtered = Some l →
     l ≡ₚ filtered ∧
     length l = length filtered ∧
     pageCount l itemsPerPage = pageCount filtered itemsPerPage).
Proof.
  split; [apply applySort_None|].
  intros l Hp%applySort_perm.
  split; [done|]. split; [by rewrite Hp|]. apply pageCount_length. by rewrite Hp.
Qed.

(** X11. [render] does not clamp the page. Where every listed record has a
    rating summary to read, with [S > 0] items per page and a page number
    [p >= 1], [render] returns, whatever the grid holds; the page count
    depends on the records listed only; up to the page count the page has
    items, the empty state is hidden and the pager gets the page count; past
    it, the page is empty, the empty state is shown and the pager is cleared,
    also when records are listed. *)
Theorem render_page_range
    (localeCompare : string → string → Z) (ratings : gmap string (list RatingRecord))
    (config : Config) (engine : ProjectVisibilityEngine.t)
    (sortSelect : option string) (p : Z) (grid : Grid) :
  0 < ITEMS_PER_PAGE config → 1 ≤ p →
  rated ratings (ProjectVisibilityEngine.getVisibleProjects engine) →
  ∃ shown,
    render localeCompare ratings config engine sortSelect p grid = Some shown ∧
    totalPages shown =
      pageCount (ProjectVisibilityEngine.getVisibleProjects engine) (ITEMS_PER_PAGE config) ∧
    (p ≤ totalPages shown →
       pageItems shown ≠ [] ∧ emptyState shown = false ∧
       paginationPages shown = totalPages shown) ∧
    (totalPages shown < p →
       pageItems shown = [] ∧ emptyState shown = true ∧ paginationPages shown = 0).
Proof.
  intros HS Hp Hr.
  destruct (render_rated localeCompare ratings config engine sortSelect p grid Hr)
    as (sorted & Hsorted & Hrender).
  eexists. split; [exact Hrender|].
  pose proof (applySort_pageCount localeCompare ratings _ _ _ (ITEMS_PER_PAGE config) Hsorted)
    as Hcount.
  destruct (pageOf_range sorted (ITEMS_PER_PAGE config) HS) as [Hin Hout].
  destruct (decide _) as [Hz|Hnz]; cbn [totalPages pageItems emptyState paginationPages].
  - split; [done|]. split.
    + intros Hle. exfalso. apply (Hin p); [lia|]. by apply length_zero_iff_nil.
    + intros _. split; [by apply length_zero_iff_nil|done].
  - split; [done|]. split.
    + intros _. split; [|done]. intros Hnil. by rewrite Hnil in Hnz.
    + intros Hlt. exfalso. apply Hnz. by rewrite (Hout p).
Qed.

(** Three records in pages of twelve: page 2 is past the end. *)
Lemma render_page_range_witness :
  ∃ shown,
    render Collation.localeCompare ∅ default_config
           (ProjectVisibilityEngine.new [clock; snake; todo]) None 2 GridCards = Some shown ∧
    emptyState shown = true.
Proof.
  destruct (render_page_range Collation.localeCompare ∅ default_config
              (ProjectVisibilityEngine.new [clock; snake; todo]) None 2 GridCards)
    as (shown & Hshown & _ & _ & Hpast).
  - simpl. lia.
  - lia.
  - intros p Hp. repeat (apply elem_of_cons in Hp as [->|Hp]); [by eexists..|].
    by apply elem_of_nil in Hp.
  - exists shown. split; [exact Hshown|]. apply Hpast.
    injection Hshown as <-. by vm_compute.
Defined.

(** ** Events, random choice, and the store *)

Section StoreFacts.

Lemma dedup_from_fixed (l : list Project) : ∀ seen,
  (∀ p, p ∈ l → complete p ∧ title_key p ∉ seen) →
  NoDup (title_key <$> l) →
  dedup_from seen l = l.
Proof.
  induction l as [|p l IH]; intros seen Hall Hnd; [done|].
  rewrite fmap_cons in Hnd. apply NoDup_cons in Hnd as [Hp Hnd].
  destruct (Hall p ltac:(left)) as [Hc Hk].
  assert (Hkeep : fst (dedup_step seen p) = true) by by apply dedup_step_keep.
  rewrite dedup_from_cons, Hkeep. f_equal. apply IH; [|done].
  intros q Hq. destruct (Hall q ltac:(by right)) as [Hcq Hkq]. split; [done|].
  rewrite dedup_step_seen. intros [?|[_ Heq]]; [done|].
  apply Hp. rewrite Heq. apply list_elem_of_fmap. by exists q.
Qed.

Lemma Qfloor_index (random : Q) (n : Z) :
  (0 <= random)%Q → (random < 1)%Q → 0 < n →
  0 ≤ Qfloor (random * inject_Z n) < n.
Proof.
  intros H0 H1 Hn.
  assert (Hpos : (0 < inject_Z n)%Q) by (change 0%Q with (inject_Z 0); by rewrite <- Zlt_Qlt).
  split.
  - apply floor_ge. change (inject_Z 0) with 0%Q. by apply Qmult_le_0_compat; [|apply Qlt_le_weak].
  - rewrite Zlt_Qlt. eapply Qle_lt_trans; [apply Qfloor_le|].
    rewrite <- (Qmult_1_l (inject_Z n)) at 2. by apply Qmult_lt_compat_r.
Qed.

End StoreFacts.

(** X12. Deduplicating twice changes nothing more: a store that came out of
    the deduplication passes through it as it is. *)
Theorem deduplicate_idempotent (projects : list Project) :
  deduplicate (deduplicate projects) = deduplicate projects.
Proof.
  unfold deduplicate at 1. apply dedup_from_fixed.
  - intros p Hp. apply dedup_from_elem in Hp as (Hc & _ & _). split; [done|].
    apply not_elem_of_empty.
  - apply dedup_from_NoDup.
Qed.

(** X13. With [Math.random()] in [[0, 1)], [openRandomProject] never reads
    past the store: on an empty store it does nothing, and otherwise it
    sends the browser to the link of a record of the store. When the store
    came out of the deduplication that link is a real one, neither missing
    nor empty. *)
Theorem openRandomProject_in_store (allProjects : list Project) (random : Q) :
  (0 <= random)%Q → (random < 1)%Q →
  (allProjects = [] → openRandomProject allProjects random = Stay) ∧
  (allProjects ≠ [] →
     ∃ p, p ∈ allProjects ∧ openRandomProject allProjects random = GoTo (link p)) ∧
  (∀ input, allProjects = deduplicate input → allProjects ≠ [] →
     ∃ href, openRandomProject allProjects random = GoTo (Some href) ∧ href ≠ "").
Proof.
  intros H0 H1.
  assert (Hgo : allProjects ≠ [] →
    ∃ p, p ∈ allProjects ∧ openRandomProject allProjects random = GoTo (link p)).
  { intros Hne. unfold openRandomProject.
    destruct (decide (length allProjects = 0%nat)) as [Hz|Hnz];
      [by apply length_zero_iff_nil in Hz|].
    destruct (Qfloor_index random (Z.of_nat (length allProjects)) H0 H1 ltac:(lia))
      as [Hlo Hhi].
    destruct (decide _) as [_|?]; [|lia].
    destruct (lookup_lt_is_Some_2 allProjects
                (Z.to_nat (Qfloor (random * inject_Z (Z.of_nat (length allProjects))))))
      as [p Hp]; [lia|].
    rewrite Hp. exists p. split; [|done]. by eapply list_elem_of_lookup_2. }
  split; [by intros ->|]. split; [done|].
  intros input -> Hne. destruct (Hgo Hne) as (p & Hp & ->).
  apply dedup_from_elem in Hp as ([_ (href & Hhref & Hne')] & _ & _).
  exists href. by rewrite Hhref.
Qed.

(** A store of three records and the draw 0.5. *)
Lemma openRandomProject_in_store_witness :
  ∃ p, p ∈ [clock; snake; todo] ∧
       openRandomProject [clock; snake; todo] (1 # 2) = GoTo (link p).
Proof.
  refine (proj1 (proj2 (openRandomProject_in_store [clock; snake; todo] (1 # 2) _ _)) _).
  - by vm_compute.
  - by vm_compute.
  - done.
Defined.

(** X14. A search, a sort choice and a category click each put the listing
    back on page 1. So, once the engine exists and the page size is positive,
    what is drawn after such an event, where every listed record has a rating
    summary to read, is the first page: the empty state is shown exactly when
    no record is listed, and otherwise the page starts with the first record
    of the sorted list. *)
Theorem narrowing_resets_page
    (localeCompare : string → string → Z) (config : Config) (grid : Grid)
    (ev : Manager.Event) (s : Manager.State) :
  0 < ITEMS_PER_PAGE config → is_Some (Manager.visibilityEngine s) → narrows ev →
  let s' := Manager.handle ev s in
  Manager.currentPage s' = 1 ∧
  ∃ engine,
    Manager.visibilityEngine s' = Some engine ∧
    (rated (Manager.ratings s') (ProjectVisibilityEngine.getVisibleProjects engine) →
     ∃ sorted shown,
       applySort localeCompare (Manager.ratings s') (sortModeOf (Manager.sortSelect s'))
                 (ProjectVisibilityEngine.getVisibleProjects engine) = Some sorted ∧
       renderState localeCompare config grid s' = Some (Some shown) ∧
       (emptyState shown = true ↔ ProjectVisibilityEngine.getVisibleProjects engine = []) ∧
       head (pageItems shown) = head sorted).
Proof.
  intros HS [engine0 Hengine] Hev s'.
  assert (Hpage : Manager.currentPage s' = 1) by (by destruct ev; try destruct Hev).
  split; [done|].
  assert (∃ engine, Manager.visibilityEngine s' = Some engine) as [engine He].
  { unfold s'. destruct ev; try (by destruct Hev); simpl; rewrite ?Hengine; simpl; eauto. }
  exists engine. split; [done|]. intros Hr.
  set (listed := ProjectVisibilityEngine.getVisibleProjects engine) in *.
  destruct (render_rated localeCompare (Manager.ratings s') config engine
              (Manager.sortSelect s') 1 grid Hr) as (sorted & Hsorted & Hrender).
  exists sorted. eexists. split; [exact Hsorted|].
  split; [unfold renderState; rewrite He, Hpage; by rewrite Hrender|].
  assert (Hlen : length sorted = length listed)
    by (by rewrite (applySort_perm _ _ _ _ _ Hsorted)).
  assert (Hfirst : pageOf sorted 1 (ITEMS_PER_PAGE config) =
                   take (Z.to_nat (ITEMS_PER_PAGE config)) sorted).
  { rewrite pageOf_take_drop by lia. by replace ((1 - 1) * ITEMS_PER_PAGE config) with 0 by lia. }
  clear Hrender. rewrite Hfirst.
  assert (Hhead : head (take (Z.to_nat (ITEMS_PER_PAGE config)) sorted) = head sorted).
  { destruct sorted; [by rewrite take_nil|].
    destruct (Z.to_nat (ITEMS_PER_PAGE config)) eqn:E; [lia|done]. }
  destruct (decide _) as [Hz|Hnz]; cbn [emptyState pageItems]; (split; [|exact Hhead]).
  - split; [intros _|done]. apply length_zero_iff_nil. rewrite <- Hlen.
    rewrite length_take in Hz. lia.
  - split; [done|]. intros Hnil. exfalso. apply Hnz.
    rewrite length_take, Hlen, Hnil. simpl. lia.
Qed.

(** A search for "snake" typed on page 3. *)
Lemma narrowing_resets_page_witness :
  Manager.currentPage
    (Manager.handle (Manager.SearchInput "snake")
       (Manager.mk [clock; snake; todo]
                   (Some (ProjectVisibilityEngine.new [clock; snake; todo]))
                   "card" 3 ∅ None)) = 1.
Proof.
  refine (proj1 (narrowing_resets_page Collation.localeCompare default_config GridCards
    (Manager.SearchInput "snake")
    (Manager.mk [clock; snake; todo]
                (Some (ProjectVisibilityEngine.new [clock; snake; todo]))
                "card" 3 ∅ None) _ _ _)).
  - simpl. lia.
  - by eexists.
  - exact I.
Defined.

(** X15. Every item the manifest call returns is an object, comes from an
    entry whose document is an object, and carries the link of that entry in
    place of whatever link the document has; an entry that fails contributes
    nothing, so there are at most as many items as entries, whatever [count]
    the manifest announces. *)
Theorem manifest_links_override
    (net : Network) (manifest : Manifest) (entries : list ManifestEntry) :
  manifest_file net = Body manifest →
  manifest_projects manifest = Some entries →
  ∃ ps,
    fetchFromManifest net = Some ps ∧
    (length ps ≤ length entries)%nat ∧
    (∀ p, JObject p ∈ ps ↔
       ∃ entry projectData,
         entry ∈ entries ∧
         project_file net (path entry) = Body (JObject projectData) ∧
         p = set_link (entry_link entry) projectData) ∧
    (∀ l, JNonTextTitle l ∈ ps ↔
       ∃ entry l0,
         entry ∈ entries ∧
         project_file net (path entry) = Body (JNonTextTitle l0) ∧
         l = entry_link entry) ∧
    (JNull ∉ ps) ∧ (JPrimitive ∉ ps) ∧
    (∀ p, JObject p ∈ ps → ∃ entry, entry ∈ entries ∧ link p = entry_link entry).
Proof.
  intros Hm He. exists (omap (load_entry net) entries).
  split; [by eapply fetchFromManifest_listed|].
  assert (Hmem : ∀ item, item ∈ omap (load_entry net) entries ↔
    ∃ entry, entry ∈ entries ∧ load_entry net entry = Some item).
  { intros item. apply list_elem_of_omap. }
  assert (Hobj : ∀ p, JObject p ∈ omap (load_entry net) entries ↔
    ∃ entry projectData, entry ∈ entries ∧
      project_file net (path entry) = Body (JObject projectData) ∧
      p = set_link (entry_link entry) projectData).
  { intros p. rewrite Hmem. split.
    - intros (entry & Hin & Hload). unfold load_entry in Hload.
      destruct (project_file net (path entry)) as [| | |[| |projectData|l]] eqn:E; try done.
      injection Hload as <-. by exists entry, projectData.
    - intros (entry & projectData & Hin & Hfile & ->). exists entry. split; [done|].
      by apply load_entry_record. }
  split; [rewrite omap_length_filter; apply length_filter|].
  split; [done|]. split; [|split; [|split]].
  - intros l. rewrite Hmem. split.
    + intros (entry & Hin & Hload). unfold load_entry in Hload.
      destruct (project_file net (path entry)) as [| | |[| |projectData|l0]] eqn:E; try done.
      injection Hload as <-. by exists entry, l0.
    + intros (entry & l0 & Hin & Hfile & ->). exists entry. split; [done|].
      unfold load_entry. by rewrite Hfile.
  - rewrite Hmem. intros (entry & _ & Hload). unfold load_entry in Hload.
    by destruct (project_file net (path entry)) as [| | |[| |?|?]].
  - rewrite Hmem. intros (entry & _ & Hload). unfold load_entry in Hload.
    by destruct (project_file net (path entry)) as [| | |[| |?|?]].
  - intros p (entry & projectData & Hin & _ & ->)%Hobj. by exists entry.
Qed.

(** Two entries, the first of which cannot be fetched. *)
Lemma manifest_links_override_witness :
  ∃ ps,
    fetchFromManifest
      (mkNetwork
         (Body (mkManifest 7 (Some [mkEntry "a.json" (Some "./projects/a/") "a";
                                    mkEntry "snake.json" (Some "./projects/s/") "s"])))
         (λ path, if decide (path = "snake.json") then Body (JObject snake) else HttpError)
         NetworkError) = Some ps ∧
    (length ps ≤ 2)%nat.
Proof.
  destruct (manifest_links_override
    (mkNetwork
       (Body (mkManifest 7 (Some [mkEntry "a.json" (Some "./projects/a/") "a";
                                  mkEntry "snake.json" (Some "./projects/s/") "s"])))
       (λ path, if decide (path = "snake.json") then Body (JObject snake) else HttpError)
       NetworkError)
    (mkManifest 7 (Some [mkEntry "a.json" (Some "./projects/a/") "a";
                         mkEntry "snake.json" (Some "./projects/s/") "s"]))
    [mkEntry "a.json" (Some "./projects/a/") "a";
     mkEntry "snake.json" (Some "./projects/s/") "s"] eq_refl eq_refl)
    as (ps & Hps & Hlen & _).
  exists ps. split; [exact Hps|exact Hlen].
Defined.

(** ** Objects with ordered keys *)

Section JsObjectFacts.
Context {V : Type}.
Implicit Types (o : list (string * V)) (k : string) (v : V).

Lemma get_set_eq o k v : JsObject.get (JsObject.set k v o) k = Some v.
Proof.
  induction o as [|[k' v'] o IH]; simpl.
  - by destruct (decide (k = k)).
  - destruct (decide (k' = k)) as [->|Hne]; simpl.
    + by destruct (decide (k = k)).
    + by destruct (decide (k' = k)).
Qed.

Lemma get_set_ne o k k' v : k ≠ k' → JsObject.get (JsObject.set k v o) k' = JsObject.get o k'.
Proof.
  intros Hne. induction o as [|[k0 v0] o IH]; simpl.
  - by destruct (decide (k = k')).
  - destruct (decide (k0 = k)) as [->|Hk]; simpl.
    + by destruct (decide (k = k')).
    + by rewrite IH.
Qed.

Lemma keys_cons k v o : JsObject.keys ((k, v) :: o) = k :: JsObject.keys o.
Proof. reflexivity. Qed.

Lemma get_None o k : JsObject.get o k = None ↔ k ∉ JsObject.keys o.
Proof.
  induction o as [|[k' v'] o IH].
  - split; [intros _; apply not_elem_of_nil|done].
  - rewrite keys_cons, not_elem_of_cons. simpl.
    destruct (decide (k' = k)) as [->|Hne]; [by split; [|intros [? _]]|].
    rewrite IH. split; [by split|by intros [_ ?]].
Qed.

Lemma get_Some_elem o k v : JsObject.get o k = Some v → (k, v) ∈ o.
Proof.
  induction o as [|[k' v'] o IH]; simpl; [done|].
  destruct (decide (k' = k)) as [->|Hne].
  - intros [= ->]. left.
  - intros H. right. by apply IH.
Qed.

Lemma elem_keys o k v : (k, v) ∈ o → k ∈ JsObject.keys o.
Proof. intros Hin. apply list_elem_of_fmap. by exists (k, v). Qed.

Lemma get_elem_NoDup o k v :
  NoDup (JsObject.keys o) → (k, v) ∈ o → JsObject.get o k = Some v.
Proof.
  induction o as [|[k' v'] o IH]; intros Hnd Hin.
  - by apply elem_of_nil in Hin.
  - rewrite keys_cons in Hnd. apply NoDup_cons in Hnd as [Hk Hnd]. simpl.
    apply elem_of_cons in Hin as [[= -> ->]|Hin].
    + by destruct (decide (k' = k')).
    + destruct (decide (k' = k)) as [->|Hne]; [|by apply IH].
      exfalso. by apply Hk, (elem_keys _ _ v).
Qed.

Lemma set_new o k v : k ∉ JsObject.keys o → JsObject.set k v o = o ++ [(k, v)].
Proof.
  induction o as [|[k' v'] o IH]; intros Hk; [done|].
  rewrite keys_cons, not_elem_of_cons in Hk. destruct Hk as [Hne Hk]. simpl.
  destruct (decide (k' = k)) as [->|_]; [done|]. by rewrite IH.
Qed.

Lemma set_last o k v v' :
  k ∉ JsObject.keys o → JsObject.set k v (o ++ [(k, v')]) = o ++ [(k, v)].
Proof.
  induction o as [|[k0 v0] o IH]; intros Hk; simpl.
  - by destruct (decide (k = k)).
  - rewrite keys_cons, not_elem_of_cons in Hk. destruct Hk as [Hne Hk].
    destruct (decide (k0 = k)) as [->|_]; [done|]. by rewrite IH.
Qed.

Lemma get_last o k v : k ∉ JsObject.keys o → JsObject.get (o ++ [(k, v)]) k = Some v.
Proof.
  induction o as [|[k0 v0] o IH]; intros Hk; simpl.
  - by destruct (decide (k = k)).
  - rewrite keys_cons, not_elem_of_cons in Hk. destruct Hk as [Hne Hk].
    destruct (decide (k0 = k)) as [->|_]; [done|]. by apply IH.
Qed.

Lemma keys_set o k v :
  JsObject.keys (JsObject.set k v o) =
  if decide (k ∈ JsObject.keys o) then JsObject.keys o else JsObject.keys o ++ [k].
Proof.
  induction o as [|[k' v'] o IH].
  - change (JsObject.keys (V:=V) []) with (@nil string).
    destruct (decide (k ∈ [])) as [H|_]; [by apply elem_of_nil in H|done].
  - simpl JsObject.set. destruct (decide (k' = k)) as [->|Hne].
    + rewrite !keys_cons. clear IH.
      destruct (decide (k ∈ k :: JsObject.keys o)) as [_|Hn]; [done|].
      exfalso. apply Hn. left.
    + rewrite !keys_cons, IH. clear IH.
      destruct (decide (k ∈ JsObject.keys o)) as [Hin|Hnin];
        destruct (decide (k ∈ k' :: JsObject.keys o)) as [Hin'|Hnin']; try done.
      * exfalso. apply Hnin'. by right.
      * apply elem_of_cons in Hin' as [->|?]; done.
Qed.

Lemma keys_set_NoDup o k v :
  NoDup (JsObject.keys o) → NoDup (JsObject.keys (JsObject.set k v o)).
Proof.
  intros Hnd. rewrite keys_set. destruct (decide _) as [_|Hk]; [done|].
  apply NoDup_app. split; [done|]. split; [|apply NoDup_singleton].
  intros x Hx ->%list_elem_of_singleton. done.
Qed.

End JsObjectFacts.

(** ** Skills found in a text *)

Section AnalyzeFacts.
Import SkillTracker.

Lemma hits_nonneg text keywords : 0 ≤ hits text keywords.
Proof. unfold hits. lia. Qed.

Lemma hits_cons text keyword keywords :
  hits text (keyword :: keywords) =
  (if includes text keyword then 1 else 0) + hits text keywords.
Proof.
  unfold hits. rewrite filter_cons.
  destruct (includes text keyword); destruct (decide _); simpl; try done; lia.
Qed.

Lemma hits_le_length text keywords : hits text keywords ≤ Z.of_nat (length keywords).
Proof. unfold hits. pose proof (length_filter (λ kw, includes text kw = true) keywords). lia. Qed.

(** The inner loop, once the skill has an entry at the end of the object. *)
Lemma count_keywords_started text skill keywords : ∀ (skills : list (string * Z)) n,
  skill ∉ JsObject.keys skills →
  fold_left (count_keyword text skill) keywords (skills ++ [(skill, n)]) =
  skills ++ [(skill, n + hits text keywords)].
Proof.
  induction keywords as [|keyword keywords IH]; intros skills n Hk; simpl.
  - unfold hits. simpl. by rewrite Z.add_0_r.
  - rewrite hits_cons. unfold count_keyword at 2.
    destruct (includes text keyword); cbv iota.
    + rewrite get_last by done. simpl default. rewrite set_last by done.
      rewrite IH by done. do 3 f_equal. lia.
    + rewrite IH by done. do 3 f_equal.
Qed.

(** The inner loop, for a skill that has no entry yet. *)
Lemma count_keywords_fresh text skill keywords : ∀ (skills : list (string * Z)),
  skill ∉ JsObject.keys skills →
  fold_left (count_keyword text skill) keywords skills =
  skills ++ (if decide (hits text keywords = 0) then []
             else [(skill, hits text keywords)]).
Proof.
  induction keywords as [|keyword keywords IH]; intros skills Hk; simpl.
  - by rewrite app_nil_r.
  - rewrite hits_cons. unfold count_keyword at 2.
    pose proof (hits_nonneg text keywords).
    destruct (includes text keyword); cbv iota.
    + apply get_None in Hk as Hget. rewrite Hget. simpl default.
      rewrite set_new by done. rewrite count_keywords_started by done.
      destruct (decide (1 + hits text keywords = 0)); [lia|]. do 3 f_equal.
    + rewrite IH by done. rewrite Z.add_0_l. done.
Qed.

Lemma keys_omap_credited text (entries : list (string * list string)) :
  JsObject.keys (omap (credited text) entries) `sublist_of` entries.*1.
Proof.
  unfold JsObject.keys. induction entries as [|[skill kws] entries IH]; [constructor|].
  rewrite omap_cons. unfold credited at 1. simpl.
  destruct (decide _); rewrite ?fmap_cons; simpl.
  - by apply sublist_cons.
  - by apply sublist_skip.
Qed.

Lemma analyze_entries text (entries : list (string * list string)) :
  ∀ skills : list (string * Z),
  NoDup entries.*1 →
  (∀ skill, skill ∈ entries.*1 → skill ∉ JsObject.keys skills) →
  fold_left (λ skills entry, fold_left (count_keyword text entry.1) entry.2 skills) entries skills =
  skills ++ omap (credited text) entries.
Proof.
  induction entries as [|[skill kws] entries IH]; intros skills Hnd Hfresh.
  - simpl. by rewrite app_nil_r.
  - rewrite fmap_cons in Hnd. apply NoDup_cons in Hnd as [Hskill Hnd]. simpl in Hskill.
    cbn [fold_left fst snd].
    rewrite count_keywords_fresh by (apply Hfresh; left).
    rewrite IH; [|done|].
    + rewrite omap_cons. unfold credited at 2. simpl.
      destruct (decide _); [by rewrite app_nil_r|by rewrite <- app_assoc].
    + intros s Hs. unfold JsObject.keys. rewrite fmap_app, elem_of_app.
      intros [Hin|Hin]; [by apply (Hfresh s); [right|]|].
      destruct (decide _); [by apply elem_of_nil in Hin|].
      apply list_elem_of_singleton in Hin. simpl in Hin. by subst.
Qed.

Lemma skillMap_NoDup : NoDup skillMap.*1.
Proof. apply (bool_decide_unpack _). by vm_compute. Qed.

Lemma analyzeSkills_closed text : analyzeSkills text = omap (credited text) skillMap.
Proof.
  unfold analyzeSkills. rewrite analyze_entries; [done|apply skillMap_NoDup|].
  intros skill _. apply not_elem_of_nil.
Qed.

Lemma analyzeSkills_keys_NoDup text : NoDup (JsObject.keys (analyzeSkills text)).
Proof.
  rewrite analyzeSkills_closed.
  eapply sublist_NoDup; [apply skillMap_NoDup|apply keys_omap_credited].
Qed.

Lemma get_omap_credited text (entries : list (string * list string)) skill keywords :
  NoDup entries.*1 → (skill, keywords) ∈ entries →
  JsObject.get (omap (credited text) entries) skill =
  if decide (hits text keywords = 0) then None else Some (hits text keywords).
Proof.
  induction entries as [|[s kws] entries IH]; intros Hnd Hin.
  - by apply elem_of_nil in Hin.
  - rewrite fmap_cons in Hnd. apply NoDup_cons in Hnd as [Hs Hnd]. simpl in Hs.
    rewrite omap_cons. unfold credited at 1. simpl.
    apply elem_of_cons in Hin as [[= <- <-]|Hin].
    + destruct (decide _); simpl.
      * apply get_None. intros Hk. apply Hs.
        eapply elem_of_sublist; [exact Hk|apply keys_omap_credited].
      * by destruct (decide (skill = skill)).
    + assert (s ≠ skill).
      { intros ->. apply Hs. apply list_elem_of_fmap. by exists (skill, keywords). }
      destruct (decide (hits text kws = 0)); simpl.
      * by apply IH.
      * destruct (decide (s = skill)); [done|]. by apply IH.
Qed.

Lemma get_omap_credited_unlisted text (entries : list (string * list string)) skill :
  skill ∉ entries.*1 → JsObject.get (omap (credited text) entries) skill = None.
Proof.
  intros Hk. apply get_None. intros Hin. apply Hk.
  eapply elem_of_sublist; [exact Hin|apply keys_omap_credited].
Qed.

Lemma credit_of_listed text skill keywords :
  (skill, keywords) ∈ skillMap → credit_of text skill = hits text keywords.
Proof.
  intros Hin. unfold credit_of. rewrite analyzeSkills_closed.
  rewrite (get_omap_credited _ _ _ keywords) by (done || apply skillMap_NoDup).
  by destruct (decide _) as [->|].
Qed.

Lemma credit_of_unlisted text skill : skill ∉ skillMap.*1 → credit_of text skill = 0.
Proof.
  intros Hk. unfold credit_of. rewrite analyzeSkills_closed.
  by rewrite get_omap_credited_unlisted.
Qed.

Lemma occurs_in_trans (a b c : string) : occurs_in a b → occurs_in b c → occurs_in a c.
Proof.
  intros (p1 & q1 & ->) (p2 & q2 & ->). exists (p2 +:+ p1), (q1 +:+ q2).
  by rewrite !str_app_assoc.
Qed.

Lemma hits_mono text1 text2 keywords :
  occurs_in text1 text2 → hits text1 keywords ≤ hits text2 keywords.
Proof.
  intros Hocc. induction keywords as [|keyword keywords IH]; [done|].
  rewrite !hits_cons.
  destruct (includes text1 keyword) eqn:E1; [|destruct (includes text2 keyword); lia].
  assert (includes text2 keyword = true) as ->; [|lia].
  apply includes_spec. apply includes_spec in E1. by eapply occurs_in_trans.
Qed.

End AnalyzeFacts.

(** X16. [analyzeSkills] credits each skill of its table once for every
    keyword of the skill that occurs in the text, and lists a skill only when
    at least one does: the result is the table's skills with a positive
    count, in the order of the table, each with its count, which is between
    1 and 5; a skill absent from the table is never listed, and an empty
    text is credited with nothing. *)
Theorem analyzeSkills_counts (text : string) :
  SkillTracker.analyzeSkills text = omap (credited text) SkillTracker.skillMap ∧
  (∀ skill keywords,
     (skill, keywords) ∈ SkillTracker.skillMap →
     JsObject.get (SkillTracker.analyzeSkills text) skill =
     if decide (hits text keywords = 0) then None else Some (hits text keywords)) ∧
  (∀ skill, skill ∉ SkillTracker.skillMap.*1 →
     JsObject.get (SkillTracker.analyzeSkills text) skill = None) ∧
  (∀ skill n, JsObject.get (SkillTracker.analyzeSkills text) skill = Some n → 1 ≤ n ≤ 5) ∧
  NoDup (JsObject.keys (SkillTracker.analyzeSkills text)) ∧
  SkillTracker.analyzeSkills "" = [].
Proof.
  split; [apply analyzeSkills_closed|].
  assert (Hlisted : ∀ skill keywords,
    (skill, keywords) ∈ SkillTracker.skillMap →
    JsObject.get (SkillTracker.analyzeSkills text) skill =
    if decide (hits text keywords = 0) then None else Some (hits text keywords)).
  { intros skill keywords Hin. rewrite analyzeSkills_closed.
    apply get_omap_credited; [apply skillMap_NoDup|done]. }
  assert (Hunlisted : ∀ skill, skill ∉ SkillTracker.skillMap.*1 →
    JsObject.get (SkillTracker.analyzeSkills text) skill = None).
  { intros skill Hk. rewrite analyzeSkills_closed. by apply get_omap_credited_unlisted. }
  split; [done|]. split; [done|]. split; [|split; [apply analyzeSkills_keys_NoDup|done]].
  intros skill n Hget.
  destruct (decide (skill ∈ SkillTracker.skillMap.*1)) as [Hin|Hnin].
  - apply list_elem_of_fmap in Hin as ([s keywords] & -> & Hin). simpl in Hget.
    rewrite (Hlisted _ _ Hin) in Hget.
    destruct (decide (hits text keywords = 0)) as [|Hpos]; [done|]. injection Hget as <-.
    pose proof (hits_nonneg text keywords). pose proof (hits_le_length text keywords).
    assert (Hlen : Forall (λ entry, (length entry.2 ≤ 5)%nat) SkillTracker.skillMap).
    { apply (bool_decide_unpack _). by vm_compute. }
    pose proof (proj1 (Forall_forall _ _) Hlen _ Hin) as H5. simpl in H5. lia.
  - by rewrite Hunlisted in Hget.
Qed.

(** X17. A text that contains another is credited with at least as much,
    skill by skill. The keywords are looked for as substrings, not as words:
    every text that mentions "html" is credited with machine learning as
    well (its keyword "ml" is inside "html"), and every text that mentions
    "javascript" is credited with Java. *)
Theorem analyzeSkills_monotone :
  (∀ text1 text2 skill : string,
     occurs_in text1 text2 → credit_of text1 skill ≤ credit_of text2 skill) ∧
  (∀ text : string,
     occurs_in "html" text → 1 ≤ credit_of text "html" ∧ 1 ≤ credit_of text "ml") ∧
  (∀ text : string,
     occurs_in "javascript" text →
     1 ≤ credit_of text "javascript" ∧ 1 ≤ credit_of text "java").
Proof.
  assert (Hmono : ∀ text1 text2 skill : string,
     occurs_in text1 text2 → credit_of text1 skill ≤ credit_of text2 skill).
  { intros text1 text2 skill Hocc.
    destruct (decide (skill ∈ SkillTracker.skillMap.*1)) as [Hin|Hnin].
    - apply list_elem_of_fmap in Hin as ([s keywords] & -> & Hin). simpl.
      rewrite !(credit_of_listed _ _ keywords) by done. by apply hits_mono.
    - by rewrite !credit_of_unlisted. }
  split; [done|]. split.
  - intros text Hocc. split.
    + etrans; [|apply (Hmono "html" text "html" Hocc)]. by vm_compute.
    + etrans; [|apply (Hmono "html" text "ml" Hocc)]. by vm_compute.
  - intros text Hocc. split.
    + etrans; [|apply (Hmono "javascript" text "javascript" Hocc)]. by vm_compute.
    + etrans; [|apply (Hmono "javascript" text "java" Hocc)]. by vm_compute.
Qed.

(** ** The skill tracker *)

Section TrackerFacts.
Import SkillTracker.
Implicit Types (d : Contributor) (pr : ApiPull).

Lemma find_number_None (records : list PullRecord) (n : Z) :
  List.find (λ p, bool_decide (pr_number p = n)) records = None ↔ n ∉ pr_number <$> records.
Proof.
  induction records as [|p records IH].
  - split; [intros _; apply not_elem_of_nil|done].
  - cbn [List.find]. rewrite fmap_cons, not_elem_of_cons. destruct (decide (pr_number p = n)) as [Heq|Hne].
    + rewrite bool_decide_true by done. split; [done|]. by intros [? _].
    + rewrite bool_decide_false by done. rewrite IH. split; [by split|by intros [_ ?]].
Qed.

Lemma analyzePull_known d pr : number pr ∈ recorded d → analyzePull d pr = d.
Proof.
  intros Hin. unfold analyzePull.
  destruct (List.find _ (prs d)) eqn:E; [done|].
  by apply find_number_None in E.
Qed.

Lemma analyzePull_new d pr :
  number pr ∉ recorded d →
  analyzePull d pr =
  mkContributor
    (credit 1 (analyzeSkills (text_of (pull_title pr) (body pr))) (skills d))
    (prs d ++ [mkPullRecord (number pr) (pull_title pr) (body pr)
                            (bool_decide (merged_at pr ≠ None)) (created_at pr)])
    (languages d) (growth d).
Proof.
  intros Hnin%find_number_None. unfold analyzePull. by rewrite Hnin.
Qed.

Lemma analyzePull_recorded d pr :
  recorded (analyzePull d pr) =
  if decide (number pr ∈ recorded d) then recorded d else recorded d ++ [number pr].
Proof.
  destruct (decide _) as [Hin|Hnin].
  - by rewrite analyzePull_known.
  - rewrite analyzePull_new by done. unfold recorded. simpl. by rewrite fmap_app.
Qed.

Lemma analyzePull_frame d pr :
  prs d `prefix_of` prs (analyzePull d pr) ∧
  languages (analyzePull d pr) = languages d ∧ growth (analyzePull d pr) = growth d.
Proof.
  destruct (decide (number pr ∈ recorded d)) as [Hin|Hnin].
  - by rewrite analyzePull_known.
  - rewrite analyzePull_new by done. simpl. split; [by apply prefix_app_r|done].
Qed.

Lemma pulls_invariant (pulls : list ApiPull) : ∀ d,
  NoDup (recorded d) →
  NoDup (recorded (fold_left analyzePull pulls d)) ∧
  (∀ n, n ∈ recorded (fold_left analyzePull pulls d) ↔
        n ∈ recorded d ∨ n ∈ number <$> pulls) ∧
  prs d `prefix_of` prs (fold_left analyzePull pulls d) ∧
  languages (fold_left analyzePull pulls d) = languages d ∧
  growth (fold_left analyzePull pulls d) = growth d.
Proof.
  induction pulls as [|pr pulls IH]; intros d Hnd.
  - cbn [fold_left]. split; [done|]. split; [|done].
    intros n. rewrite fmap_nil, elem_of_nil. tauto.
  - cbn [fold_left]. assert (Hnd' : NoDup (recorded (analyzePull d pr))).
    { rewrite analyzePull_recorded. destruct (decide _) as [_|Hnin]; [done|].
      apply NoDup_app. split; [done|]. split; [|apply NoDup_singleton].
      intros x Hx ->%list_elem_of_singleton. done. }
    destruct (IH _ Hnd') as (H1 & H2 & H3 & H4 & H5).
    destruct (analyzePull_frame d pr) as (F1 & F2 & F3).
    split; [done|]. split; [|split; [by etrans|split; congruence]].
    intros n. rewrite H2, fmap_cons, elem_of_cons, analyzePull_recorded.
    destruct (decide _) as [Hin|Hnin].
    + split; [tauto|]. intros [?|[->|?]]; tauto.
    + rewrite elem_of_app, list_elem_of_singleton. tauto.
Qed.

Lemma pulls_all_known (pulls : list ApiPull) d :
  (∀ pr, pr ∈ pulls → number pr ∈ recorded d) → fold_left analyzePull pulls d = d.
Proof.
  induction pulls as [|pr pulls IH]; intros Hall; simpl; [done|].
  rewrite analyzePull_known by (apply Hall; left).
  apply IH. intros pr' Hin. apply Hall. by right.
Qed.

Lemma find_date_None (entries : list GrowthEntry) (now : string) :
  List.find (λ g, bool_decide (date g = now)) entries = None ↔ now ∉ date <$> entries.
Proof.
  induction entries as [|g entries IH].
  - split; [intros _; apply not_elem_of_nil|done].
  - cbn [List.find]. rewrite fmap_cons, not_elem_of_cons. destruct (decide (date g = now)) as [Heq|Hne].
    + rewrite bool_decide_true by done. split; [done|]. by intros [? _].
    + rewrite bool_decide_false by done. rewrite IH. split; [by split|by intros [_ ?]].
Qed.

End TrackerFacts.

(** X18. A pull request is recorded once. If the numbers on record are
    distinct before the loop over the listed pull requests, they are distinct
    after it; the numbers then on record are the old ones and the listed
    ones; the old records are kept, in place; languages and growth are not
    touched; and running the loop again over the same list changes nothing,
    so no pull request is credited twice. *)
Theorem pulls_recorded_once (d : SkillTracker.Contributor) (pulls : list SkillTracker.ApiPull) :
  NoDup (recorded d) →
  let d' := fold_left SkillTracker.analyzePull pulls d in
  NoDup (recorded d') ∧
  (∀ n, n ∈ recorded d' ↔ n ∈ recorded d ∨ n ∈ SkillTracker.number <$> pulls) ∧
  SkillTracker.prs d `prefix_of` SkillTracker.prs d' ∧
  SkillTracker.languages d' = SkillTracker.languages d ∧
  SkillTracker.growth d' = SkillTracker.growth d ∧
  fold_left SkillTracker.analyzePull pulls d' = d'.
Proof.
  intros Hnd d'. destruct (pulls_invariant pulls d Hnd) as (H1 & H2 & H3 & H4 & H5).
  repeat (split; [done|]).
  apply pulls_all_known. intros pr Hin. apply H2. right.
  apply list_elem_of_fmap. by exists pr.
Qed.

(** The same pull request listed twice for a new contributor. *)
Lemma pulls_recorded_once_witness :
  NoDup (recorded (fold_left SkillTracker.analyzePull
                     [SkillTracker.mkApiPull 7 "Add React component" None None "2026-01-01";
                      SkillTracker.mkApiPull 7 "Add React component" None None "2026-01-01"]
                     SkillTracker.fresh)).
Proof.
  exact (proj1 (pulls_recorded_once SkillTracker.fresh
    [SkillTracker.mkApiPull 7 "Add React component" None None "2026-01-01";
     SkillTracker.mkApiPull 7 "Add React component" None None "2026-01-01"]
    (NoDup_nil_2 (A:=Z)))).
Defined.

(** X19. The growth log has one entry per day. If its dates are distinct
    before [updateGrowth], they are distinct after it and today's date is
    among them; the entries already there are kept; an entry is added only
    when today has none, and it then records the number of pull requests and
    of skills; doing the update twice is doing it once. *)
Theorem growth_once_a_day (now : string) (d : SkillTracker.Contributor) :
  NoDup (SkillTracker.date <$> SkillTracker.growth d) →
  let d' := SkillTracker.updateGrowth now d in
  NoDup (SkillTracker.date <$> SkillTracker.growth d') ∧
  now ∈ SkillTracker.date <$> SkillTracker.growth d' ∧
  (now ∈ SkillTracker.date <$> SkillTracker.growth d → d' = d) ∧
  (now ∉ SkillTracker.date <$> SkillTracker.growth d →
     SkillTracker.growth d' =
     SkillTracker.growth d ++
     [SkillTracker.mkGrowth now (Z.of_nat (length (SkillTracker.prs d)))
        (Z.of_nat (length (JsObject.keys (SkillTracker.skills d))))]) ∧
  SkillTracker.updateGrowth now d' = d'.
Proof.
  intros Hnd d'. unfold d', SkillTracker.updateGrowth.
  destruct (List.find _ (SkillTracker.growth d)) as [g|] eqn:E.
  - assert (Hin : now ∈ SkillTracker.date <$> SkillTracker.growth d).
    { destruct (decide (now ∈ SkillTracker.date <$> SkillTracker.growth d)); [done|].
      assert (List.find (λ g, bool_decide (SkillTracker.date g = now))
                (SkillTracker.growth d) = None) by by apply find_date_None.
      congruence. }
    split; [done|]. split; [done|]. split; [done|]. split; [done|]. by rewrite E.
  - apply find_date_None in E as Hnin. simpl.
    split; [|split; [|split; [done|split; [done|]]]].
    + rewrite fmap_app. apply NoDup_app. split; [done|]. split; [|apply NoDup_singleton].
      intros x Hx ->%list_elem_of_singleton. done.
    + rewrite fmap_app, elem_of_app. right. by left.
    + assert (Hfound : List.find (λ g, bool_decide (SkillTracker.date g = now))
        (SkillTracker.growth d ++
         [SkillTracker.mkGrowth now (Z.of_nat (length (SkillTracker.prs d)))
            (Z.of_nat (length (JsObject.keys (SkillTracker.skills d))))]) ≠ None).
      { intros Hnone%find_date_None. apply Hnone.
        rewrite fmap_app, elem_of_app. right. by left. }
      by destruct (List.find _ (_ ++ _)).
Qed.

(** A first run on 2026-03-01. *)
Lemma growth_once_a_day_witness :
  "2026-03-01" ∈
  SkillTracker.date <$> SkillTracker.growth (SkillTracker.updateGrowth "2026-03-01" SkillTracker.fresh).
Proof.
  exact (proj1 (proj2 (growth_once_a_day "2026-03-01" SkillTracker.fresh (NoDup_nil_2 (A:=string))))).
Defined.

Section CreditFacts.
Import SkillTracker.
Implicit Types (skills : list (string * Q)) (found : list (string * Z)).

Lemma level_of_set_eq skills k (v : Q) : level_of (JsObject.set k v skills) k = v.
Proof. unfold level_of. by rewrite get_set_eq. Qed.

Lemma level_of_set_ne skills k k' (v : Q) :
  k ≠ k' → level_of (JsObject.set k v skills) k' = level_of skills k'.
Proof. intros Hne. unfold level_of. by rewrite get_set_ne. Qed.

(** The loop of [credit] over a list of distinct keys. *)
Lemma credit_keys (weight : Q) found (ks : list string) skill : ∀ skills,
  NoDup ks →
  (level_of
     (fold_left
        (λ skills k,
           JsObject.set k
             (default 0%Q (JsObject.get skills k) +
              inject_Z (default 0%Z (JsObject.get found k)) * weight)%Q skills)
        ks skills) skill ==
   level_of skills skill +
   (if decide (skill ∈ ks)
    then inject_Z (default 0%Z (JsObject.get found skill)) * weight else 0))%Q.
Proof.
  induction ks as [|k ks IH]; intros skills Hnd.
  - cbn [fold_left]. destruct (decide _) as [H|_]; [by apply elem_of_nil in H|]. lra.
  - apply NoDup_cons in Hnd as [Hk Hnd]. cbn [fold_left]. rewrite IH by done.
    destruct (decide (k = skill)) as [->|Hne].
    + rewrite level_of_set_eq. unfold level_of.
      destruct (decide (skill ∈ ks)) as [?|_]; [done|].
      destruct (decide (skill ∈ skill :: ks)) as [_|Hn]; [lra|]. exfalso. apply Hn. left.
    + rewrite level_of_set_ne by done.
      destruct (decide (skill ∈ ks)) as [Hin|Hnin];
        destruct (decide (skill ∈ k :: ks)) as [Hin'|Hnin']; try lra.
      * exfalso. apply Hnin'. by right.
      * apply elem_of_cons in Hin' as [->|?]; done.
Qed.

Lemma credit_level (weight : Q) found skills skill :
  NoDup (JsObject.keys found) →
  (level_of (credit weight found skills) skill ==
   level_of skills skill + inject_Z (default 0%Z (JsObject.get found skill)) * weight)%Q.
Proof.
  intros Hnd. unfold credit. rewrite credit_keys by done.
  destruct (decide (skill ∈ JsObject.keys found)) as [_|Hnin]; [done|].
  apply get_None in Hnin. rewrite Hnin. simpl default. change (inject_Z 0) with 0%Q. lra.
Qed.

Lemma credit_of_nonneg text skill : 0 ≤ credit_of text skill.
Proof.
  destruct (decide (skill ∈ skillMap.*1)) as [Hin|Hnin].
  - apply list_elem_of_fmap in Hin as ([s keywords] & -> & Hin). simpl.
    rewrite (credit_of_listed _ _ keywords) by done. apply hits_nonneg.
  - by rewrite credit_of_unlisted.
Qed.

Lemma analyzePull_level d pr skill :
  number pr ∉ recorded d →
  (level_of (skills (analyzePull d pr)) skill ==
   level_of (skills d) skill +
   inject_Z (credit_of (text_of (pull_title pr) (body pr)) skill))%Q.
Proof.
  intros Hnew. rewrite analyzePull_new by done. cbn [skills].
  rewrite credit_level by apply analyzeSkills_keys_NoDup. unfold credit_of. lra.
Qed.

Lemma analyzeCommit_level d message skill :
  (level_of (skills (analyzeCommit d message)) skill ==
   level_of (skills d) skill + inject_Z (credit_of (toLowerCase message) skill) * (1 # 2))%Q.
Proof.
  unfold analyzeCommit. cbn [skills].
  rewrite credit_level by apply analyzeSkills_keys_NoDup. unfold credit_of. lra.
Qed.

Lemma inject_Z_nonneg (z : Z) : 0 ≤ z → (0 <= inject_Z z)%Q.
Proof. intros H. change 0%Q with (inject_Z 0). by rewrite <- Zle_Qle. Qed.

Lemma analyzePull_grows d pr skill :
  (level_of (skills d) skill <= level_of (skills (analyzePull d pr)) skill)%Q.
Proof.
  destruct (decide (number pr ∈ recorded d)) as [Hin|Hnin].
  - rewrite analyzePull_known by done. lra.
  - rewrite analyzePull_level by done.
    pose proof (inject_Z_nonneg _ (credit_of_nonneg (text_of (pull_title pr) (body pr)) skill)).
    lra.
Qed.

Lemma analyzeCommit_grows d message skill :
  (level_of (skills d) skill <= level_of (skills (analyzeCommit d message)) skill)%Q.
Proof.
  rewrite analyzeCommit_level.
  pose proof (inject_Z_nonneg _ (credit_of_nonneg (toLowerCase message) skill)). lra.
Qed.

Lemma fold_grows {X : Type} (step : Contributor → X → Contributor) (xs : list X) skill :
  (∀ d x, (level_of (skills d) skill <= level_of (skills (step d x)) skill)%Q) →
  ∀ d, (level_of (skills d) skill <= level_of (skills (fold_left step xs d)) skill)%Q.
Proof.
  intros Hstep. induction xs as [|x xs IH]; intros d; cbn [fold_left]; [lra|].
  specialize (IH (step d x)). specialize (Hstep d x). lra.
Qed.

Lemma main_skills existing pulls commits userRepos now :
  skills (main existing pulls commits userRepos now) =
  skills (fold_left analyzeCommit commits
            (fold_left analyzePull pulls (default fresh existing))).
Proof.
  unfold main, updateGrowth.
  destruct userRepos as [repos|]; cbn [skills growth]; by destruct (List.find _ _).
Qed.

End CreditFacts.

(** X20. A pull request that is not on record adds to every skill the count
    found in its title and body; a pull request already on record adds
    nothing; a commit adds half the count found in its message. No level
    ever goes down: after [main], every skill is at least where it was. *)
Theorem skills_are_credited :
  (∀ d pr skill,
     SkillTracker.number pr ∉ recorded d →
     (level_of (SkillTracker.skills (SkillTracker.analyzePull d pr)) skill ==
      level_of (SkillTracker.skills d) skill +
      inject_Z (credit_of (SkillTracker.text_of (SkillTracker.pull_title pr)
                                                 (SkillTracker.body pr)) skill))%Q) ∧
  (∀ d pr, SkillTracker.number pr ∈ recorded d → SkillTracker.analyzePull d pr = d) ∧
  (∀ d message skill,
     (level_of (SkillTracker.skills (SkillTracker.analyzeCommit d message)) skill ==
      level_of (SkillTracker.skills d) skill +
      inject_Z (credit_of (toLowerCase message) skill) * (1 # 2))%Q) ∧
  (∀ existing pulls commits userRepos now skill,
     (level_of (SkillTracker.skills (default SkillTracker.fresh existing)) skill <=
      level_of (SkillTracker.skills
                  (SkillTracker.main existing pulls commits userRepos now)) skill)%Q).
Proof.
  split; [exact analyzePull_level|]. split; [exact analyzePull_known|].
  split; [exact analyzeCommit_level|].
  intros existing pulls commits userRepos now skill. rewrite main_skills.
  eapply Qle_trans.
  - apply (fold_grows SkillTracker.analyzePull pulls skill
             (λ d pr, analyzePull_grows d pr skill)).
  - apply (fold_grows SkillTracker.analyzeCommit commits skill
             (λ d message, analyzeCommit_grows d message skill)).
Qed.

(** ** The best few of a sorted list *)

Section TopFacts.
Context {A : Type}.
Implicit Types (l : list A).

Lemma slice_take l (n : Z) : 0 ≤ n → slice l 0 n = take (Z.to_nat n) l.
Proof.
  intros Hn. unfold slice.
  destruct (Z.ltb_spec 0 0) as [?|_]; [lia|]. destruct (Z.ltb_spec n 0) as [?|_]; [lia|].
  replace (Z.to_nat (Z.min 0 (Z.of_nat (length l)))) with 0%nat by lia. rewrite drop_0.
  replace (Z.to_nat (Z.min n (Z.of_nat (length l)) - Z.min 0 (Z.of_nat (length l))))
    with (Nat.min (Z.to_nat n) (length l)) by lia.
  destruct (decide (Z.to_nat n ≤ length l)%nat).
  - by rewrite Nat.min_l.
  - rewrite Nat.min_r by lia. by rewrite !take_ge by lia.
Qed.

Lemma sorted_take_drop (R : A → A → Prop) l (k : nat) x y :
  StronglySorted R l → x ∈ take k l → y ∈ drop k l → R x y.
Proof.
  intros Hs Hx Hy. rewrite <- (take_drop k l) in Hs.
  by apply (StronglySorted_app_1_elem_of R (take k l) (drop k l)).
Qed.

Lemma sorted_take (R : A → A → Prop) l (k : nat) :
  StronglySorted R l → StronglySorted R (take k l).
Proof. apply StronglySorted_sublist, sublist_take. Qed.

(** The first [k] of the sorted list are the best [k]: every element left
    out compares after every element kept. *)
Lemma top_of_sort (comparefn : A → A → Q) l (k : nat) x :
  consistent comparefn → x ∈ l →
  x ∈ take k (sort comparefn l) ∨
  ∀ y, y ∈ take k (sort comparefn l) → (comparefn y x <= 0)%Q.
Proof.
  intros Hc Hx. rewrite <- (sort_perm comparefn l), <- (take_drop k (sort comparefn l)) in Hx.
  apply elem_of_app in Hx as [Hx|Hx]; [by left|right].
  intros y Hy.
  by apply (sorted_take_drop (λ a b, (comparefn a b <= 0)%Q) (sort comparefn l) k y x);
    [apply sort_strongly_sorted|..].
Qed.

Lemma sort_fmap {B : Type} (f : A → B) (comparefn : B → B → Q) l :
  f <$> sort (λ a b, comparefn (f a) (f b)) l = sort comparefn (f <$> l).
Proof.
  induction l as [|x l IH]; [done|]. rewrite fmap_cons. cbn [sort foldr].
  fold (sort (λ a b, comparefn (f a) (f b)) l). fold (sort comparefn (f <$> l)).
  rewrite <- IH. generalize (sort (λ a b, comparefn (f a) (f b)) l). intros s.
  induction s as [|y s IHs]; [done|]. rewrite fmap_cons. cbn [insert_sorted].
  destruct (Qle_bool (comparefn (f x) (f y)) 0); [done|]. by rewrite fmap_cons, IHs.
Qed.

Lemma insert_sorted_ext (c1 c2 : A → A → Q) x l :
  (∀ y, y ∈ l → c1 x y = c2 x y) → insert_sorted c1 x l = insert_sorted c2 x l.
Proof.
  induction l as [|y l IH]; intros H; [done|]. cbn [insert_sorted].
  rewrite (H y) by left. destruct (Qle_bool _ _); [done|]. f_equal. apply IH.
  intros z Hz. apply H. by right.
Qed.

Lemma sort_ext (c1 c2 : A → A → Q) l :
  (∀ x y, x ∈ l → y ∈ l → c1 x y = c2 x y) → sort c1 l = sort c2 l.
Proof.
  induction l as [|x l IH]; intros H; [done|]. cbn [sort foldr].
  fold (sort c1 l). fold (sort c2 l). rewrite IH.
  - apply insert_sorted_ext. intros y Hy. apply H; [left|right].
    by rewrite <- (sort_perm c2 l).
  - intros y z Hy Hz. apply H; by right.
Qed.

Lemma NoDup_fmap_inj_on {B : Type} (f : A → B) l x y :
  NoDup (f <$> l) → x ∈ l → y ∈ l → f x = f y → x = y.
Proof.
  induction l as [|z l IH]; intros Hnd Hx Hy Heq; [by apply elem_of_nil in Hx|].
  rewrite fmap_cons in Hnd. apply NoDup_cons in Hnd as [Hz Hnd].
  apply elem_of_cons in Hx as [->|Hx]; apply elem_of_cons in Hy as [->|Hy]; try done.
  - exfalso. apply Hz. rewrite Heq. apply list_elem_of_fmap. by exists y.
  - exfalso. apply Hz. rewrite <- Heq. apply list_elem_of_fmap. by exists x.
  - by apply IH.
Qed.

End TopFacts.

(** ** Issue recommendations *)

Section RecommendFacts.
Import Recommend.
Variable userSkills : list (string * Q).
Implicit Types (issue : Issue) (issues : list Issue) (topSkills : list string).

Local Abbreviation top := (topSkillsOf userSkills).
Local Abbreviation by_level := (λ a b : string, (level userSkills b - level userSkills a)%Q).
Local Abbreviation by_score := (λ a b : Recommendation, (score b - score a)%Q).

Lemma by_level_consistent : consistent by_level.
Proof. split; [intros a b|intros a b c]; lra. Qed.


Lemma topSkillsOf_take :
  top = take 3 (sort by_level (JsObject.keys userSkills)).
Proof. unfold topSkillsOf. by rewrite slice_take. Qed.



Lemma classify_fold topSkills issues : ∀ acc,
  fold_left (classify userSkills topSkills) issues acc =
  (acc.1 ++ omap (recommendation_of userSkills topSkills) issues,
   acc.2 ++ omap (beginner_of userSkills topSkills) issues).
Proof.
  induction issues as [|issue issues IH]; intros [recs begs]; cbn [fold_left].
  - cbn. by rewrite !app_nil_r.
  - rewrite IH, !omap_cons. unfold classify, recommendation_of, beginner_of.
    destruct (scoreIssue userSkills topSkills issue) as [sc matched]. cbn [fst snd].
    destruct (Qlt_le_dec 0 sc); cbn [fst snd]; [by rewrite <- app_assoc|].
    destruct (existsb _ _); cbn [fst snd]; by rewrite <- ?app_assoc.
Qed.

Lemma recommendFrom_eq issues :
  recommendFrom userSkills issues =
  Recommended
    (take 5 (sort by_score (omap (recommendation_of userSkills top) issues)))
    (take 3 (omap (beginner_of userSkills top) issues))
    top.
Proof.
  unfold recommendFrom. rewrite classify_fold. cbn [fst snd app].
  by rewrite !slice_take.
Qed.

Lemma recommendation_of_Some topSkills issue r :
  recommendation_of userSkills topSkills issue = Some r →
  (0 < score r)%Q ∧ rec_number r = number issue ∧ rec_title r = issue_title issue ∧
  rec_url r = html_url issue ∧
  score r = (scoreIssue userSkills topSkills issue).1 ∧
  matchedSkills r = (scoreIssue userSkills topSkills issue).2.
Proof.
  unfold recommendation_of. destruct (Qlt_le_dec _ _) as [Hpos|]; [|done].
  intros [= <-]. done.
Qed.

Lemma beginner_of_Some topSkills issue b :
  beginner_of userSkills topSkills issue = Some b →
  ((scoreIssue userSkills topSkills issue).1 <= 0)%Q ∧ good_first_issue issue ∧
  beginner_number b = number issue ∧ beginner_title b = issue_title issue ∧
  beginner_url b = html_url issue.
Proof.
  unfold beginner_of. destruct (Qlt_le_dec _ _) as [|Hle]; [done|].
  destruct (existsb _ _) eqn:E; [|done]. intros [= <-]. split; [done|]. split; [|done].
  apply existsb_exists in E as (l & Hin%list_elem_of_In & Hl%bool_decide_eq_true).
  by exists l.
Qed.

End RecommendFacts.


(** X22. The beginner list has at most three entries, in the order of the
    issues. Each comes from a listed issue that carries the label "good first
    issue" and whose score is not positive. When the issues have distinct
    numbers, no issue is both recommended and listed for beginners. *)
Theorem beginner_issues_are_unmatched
    (userSkills : list (string * Q)) (issues : list Recommend.Issue) :
  let topSkills := Recommend.topSkillsOf userSkills in
  ∃ recommendations beginner,
    Recommend.recommendIssues (Some userSkills) issues =
      Recommend.Recommended recommendations beginner topSkills ∧
    (length beginner ≤ 3)%nat ∧
    Recommend.beginner_number <$> beginner `sublist_of` Recommend.number <$> issues ∧
    (∀ b, b ∈ beginner →
       ∃ issue, issue ∈ issues ∧
         Recommend.beginner_number b = Recommend.number issue ∧
         Recommend.beginner_title b = Recommend.issue_title issue ∧
         Recommend.beginner_url b = Recommend.html_url issue ∧
         good_first_issue issue ∧
         ((Recommend.scoreIssue userSkills topSkills issue).1 <= 0)%Q) ∧
    (NoDup (Recommend.number <$> issues) →
     ∀ r b, r ∈ recommendations → b ∈ beginner →
            Recommend.rec_number r ≠ Recommend.beginner_number b).
Proof.
  intros topSkills.
  set (candidates := omap (recommendation_of userSkills topSkills) issues).
  set (sorted := sort (λ a b, (Recommend.score b - Recommend.score a)%Q) candidates).
  set (begs := omap (beginner_of userSkills topSkills) issues).
  exists (take 5 sorted), (take 3 begs).
  split; [apply recommendFrom_eq|]. split; [rewrite length_take; lia|].
  assert (Hbeg : ∀ b, b ∈ take 3 begs →
    ∃ issue, issue ∈ issues ∧
      Recommend.beginner_number b = Recommend.number issue ∧
      Recommend.beginner_title b = Recommend.issue_title issue ∧
      Recommend.beginner_url b = Recommend.html_url issue ∧
      good_first_issue issue ∧
      ((Recommend.scoreIssue userSkills topSkills issue).1 <= 0)%Q).
  { intros b Hb.
    assert (Hb' : b ∈ begs) by (eapply elem_of_sublist; [exact Hb|apply sublist_take]).
    apply list_elem_of_omap in Hb' as (issue & Hin & Hsome).
    apply beginner_of_Some in Hsome as (? & ? & ? & ? & ?). by exists issue. }
  split; [|split; [done|]].
  - etrans; [apply fmap_sublist, sublist_take|].
    unfold begs. clear. induction issues as [|issue rest IH]; [constructor|].
    rewrite omap_cons, fmap_cons.
    destruct (beginner_of userSkills topSkills issue) as [b|] eqn:E.
    + apply beginner_of_Some in E as (_ & _ & Hn & _). rewrite fmap_cons, Hn.
      by apply sublist_skip.
    + by apply sublist_cons.
  - intros Hnd r b Hr Hb Heq.
    destruct (Hbeg b Hb) as (issue_b & Hin_b & Hnb & _ & _ & _ & Hle).
    assert (Hc : r ∈ candidates).
    { rewrite <- (sort_perm (λ a b, (Recommend.score b - Recommend.score a)%Q) candidates).
      eapply elem_of_sublist; [exact Hr|apply sublist_take]. }
    apply list_elem_of_omap in Hc as (issue_r & Hin_r & Hrec).
    apply recommendation_of_Some in Hrec as (Hpos & Hnr & _ & _ & Hs & _).
    assert (issue_r = issue_b) as ->.
    { apply (NoDup_fmap_inj_on Recommend.number issues); [done..|]. congruence. }
    rewrite Hs in Hpos. lra.
Qed.

(** X23. The top skills are at most three keys of the contributor's skills,
    by level from the highest down, and they are the highest: a skill left
    out has a level no higher than any top skill. With distinct keys no skill
    is named twice. *)
Theorem topSkills_are_the_highest (userSkills : list (string * Q)) :
  let topSkills := Recommend.topSkillsOf userSkills in
  (length topSkills ≤ 3)%nat ∧
  (∀ skill, skill ∈ topSkills → skill ∈ JsObject.keys userSkills) ∧
  StronglySorted (λ a b, (Recommend.level userSkills b <= Recommend.level userSkills a)%Q)
                 topSkills ∧
  (∀ skill, skill ∈ JsObject.keys userSkills →
     skill ∈ topSkills ∨
     ∀ t, t ∈ topSkills → (Recommend.level userSkills skill <= Recommend.level userSkills t)%Q) ∧
  (NoDup (JsObject.keys userSkills) → NoDup topSkills) ∧
  (length (JsObject.keys userSkills) ≤ 3 → topSkills ≡ₚ JsObject.keys userSkills)%nat.
Proof.
  intros topSkills. unfold topSkills. rewrite topSkillsOf_take.
  set (cmp := λ a b : string, (Recommend.level userSkills b - Recommend.level userSkills a)%Q).
  split; [rewrite length_take; lia|]. split; [|split; [|split; [|split]]].
  - intros skill Hin. rewrite <- (sort_perm cmp (JsObject.keys userSkills)).
    eapply elem_of_sublist; [exact Hin|apply sublist_take].
  - apply sorted_take. eapply StronglySorted_impl;
      [|apply sort_strongly_sorted, by_level_consistent].
    intros a b. unfold cmp. cbv beta. lra.
  - intros skill Hin.
    destruct (top_of_sort cmp (JsObject.keys userSkills) 3 skill
                (by_level_consistent userSkills) Hin) as [?|Hrest]; [by left|].
    right. intros t Ht. specialize (Hrest t Ht). unfold cmp in Hrest. lra.
  - intros Hnd. eapply sublist_NoDup; [|apply sublist_take]. by rewrite sort_perm.
  - intros Hlen. rewrite take_ge by (rewrite sort_length; lia). apply sort_perm.
Qed.

(** ** The contributor dashboard *)

Section DashboardFacts.
Variable skills : list (string * Q).

Lemma byLevel_consistent : consistent (λ a b : string * Q, (b.2 - a.2)%Q).
Proof. split; [intros a b|intros a b c]; lra. Qed.

Lemma byLevel_names :
  NoDup (JsObject.keys skills) →
  (Dashboard.byLevel skills).*1 =
  sort (λ a b, (Recommend.level skills b - Recommend.level skills a)%Q)
       (JsObject.keys skills).
Proof.
  intros Hnd. unfold Dashboard.byLevel, JsObject.keys.
  rewrite <- (sort_fmap fst (λ a b, (Recommend.level skills b - Recommend.level skills a)%Q)).
  f_equal. apply sort_ext. intros [k1 v1] [k2 v2] H1 H2. unfold Recommend.level. simpl.
  by rewrite (get_elem_NoDup skills k1 v1), (get_elem_NoDup skills k2 v2).
Qed.

End DashboardFacts.

(** X24. The skill list of the dashboard shows at most ten skills of the
    contributor, by level from the highest down, and they are the highest:
    a skill left out has a level no higher than any skill shown. The radar
    chart draws the first six rows of that list. When the skills have
    distinct names, the first three rows name the top skills the issue
    recommender works from. *)
Theorem dashboard_shows_the_highest (skills : list (string * Q)) :
  let rows := Dashboard.sortedSkills skills in
  (length rows ≤ 10)%nat ∧
  (∀ row, row ∈ rows → row ∈ skills) ∧
  StronglySorted (λ a b : string * Q, (b.2 <= a.2)%Q) rows ∧
  (∀ entry, entry ∈ skills →
     entry ∈ rows ∨ ∀ row, row ∈ rows → (entry.2 <= row.2)%Q) ∧
  Dashboard.radarSkills skills = take 6 rows ∧
  (NoDup (JsObject.keys skills) → take 3 rows.*1 = Recommend.topSkillsOf skills).
Proof.
  intros rows.
  assert (Hrows : rows = take 10 (Dashboard.byLevel skills)).
  { unfold rows, Dashboard.sortedSkills. by rewrite slice_take. }
  rewrite Hrows. split; [rewrite length_take; lia|].
  split; [|split; [|split; [|split]]].
  - intros row Hin. unfold Dashboard.byLevel in Hin.
    rewrite <- (sort_perm (λ a b : string * Q, (b.2 - a.2)%Q) skills).
    eapply elem_of_sublist; [exact Hin|apply sublist_take].
  - apply sorted_take. eapply StronglySorted_impl;
      [|apply sort_strongly_sorted, byLevel_consistent].
    intros a b. cbv beta. lra.
  - intros entry Hin.
    destruct (top_of_sort (λ a b : string * Q, (b.2 - a.2)%Q) skills 10 entry
                byLevel_consistent Hin) as [?|Hrest]; [by left|].
    right. intros row Hrow. specialize (Hrest row Hrow). cbv beta in Hrest. lra.
  - unfold Dashboard.radarSkills. by rewrite slice_take, take_take.
  - intros Hnd. rewrite topSkillsOf_take, <- byLevel_names by done.
    by rewrite <- !fmap_take, take_take.
Qed.

(** ** Keys and languages *)

Section KeyFacts.

Lemma sanitize_char_key c :
  key_char (lower_char (if is_alnum c then c else "_"%char)).
Proof.
  destruct c as [[] [] [] [] [] [] [] []]; vm_compute;
    first [left; split; by intros ?|right; left; split; by intros ?|right; right; reflexivity].
Qed.

Lemma sanitize_char_idemp c :
  let k := lower_char (if is_alnum c then c else "_"%char) in
  lower_char (if is_alnum k then k else "_"%char) = k.
Proof. destruct c as [[] [] [] [] [] [] [] []]; reflexivity. Qed.

Lemma key_char_fixed c :
  key_char c → lower_char (if is_alnum c then c else "_"%char) = c.
Proof.
  destruct c as [[] [] [] [] [] [] [] []]; try reflexivity;
    intros [[H1 H2]|[[H1 H2]|H]]; try discriminate H;
    vm_compute in H1, H2; try (by destruct H1); by destruct H2.
Qed.

End KeyFacts.

(** X25. A sanitized key is made of lower-case letters, digits and
    underscores only and is as long as the title; it is its own key; and the
    texts that are their own key are exactly those made of such characters. *)
Theorem sanitizeKey_canonical :
  (∀ t : string, all_chars key_char (sanitizeKey t)) ∧
  (∀ t : string, String.length (sanitizeKey t) = String.length t) ∧
  (∀ t : string, sanitizeKey (sanitizeKey t) = sanitizeKey t) ∧
  (∀ t : string, sanitizeKey t = t ↔ all_chars key_char t).
Proof.
  split; [|split; [|split]].
  - induction t as [|c t IH]; [done|]. rewrite sanitizeKey_cons. split; [|done].
    apply sanitize_char_key.
  - induction t as [|c t IH]; [done|]. rewrite sanitizeKey_cons. simpl. by rewrite IH.
  - induction t as [|c t IH]; [done|]. rewrite !sanitizeKey_cons, IH. f_equal.
    apply sanitize_char_idemp.
  - induction t as [|c t IH]; [done|]. rewrite sanitizeKey_cons. simpl. split.
    + intros [= Hc Ht]. split; [|by apply IH]. rewrite <- Hc. apply sanitize_char_key.
    + intros [Hc Ht]. f_equal; [by apply key_char_fixed|by apply IH].
Qed.

Section LanguageFacts.
Import SkillTracker.

Lemma repos_in_cons lang language repos :
  repos_in lang (language :: repos) =
  (if decide (language = Some lang) then 1 else 0) + repos_in lang repos.
Proof.
  unfold repos_in. rewrite filter_cons. destruct (decide _); simpl; lia.
Qed.

Lemma countLanguage_get langs language lang :
  lang ≠ "" →
  default 0 (JsObject.get (countLanguage langs language) lang) =
  default 0 (JsObject.get langs lang) + (if decide (language = Some lang) then 1 else 0).
Proof.
  intros Hne. unfold countLanguage, falsy.
  destruct language as [l|]; [|destruct (decide _); [done|lia]].
  destruct (decide (l = "")) as [->|Hl].
  - destruct (decide _) as [[= <-]|]; [done|lia].
  - simpl default. destruct (decide (Some l = Some lang)) as [[= ->]|Hneq].
    + by rewrite get_set_eq.
    + rewrite get_set_ne by congruence. lia.
Qed.

Lemma countLanguages_get repos lang : ∀ langs,
  lang ≠ "" →
  default 0 (JsObject.get (fold_left countLanguage repos langs) lang) =
  default 0 (JsObject.get langs lang) + repos_in lang repos.
Proof.
  induction repos as [|language repos IH]; intros langs Hne; cbn [fold_left].
  - unfold repos_in. simpl. lia.
  - rewrite IH, countLanguage_get, repos_in_cons by done. lia.
Qed.

Lemma fold_analyzePull_languages pulls : ∀ d,
  languages (fold_left analyzePull pulls d) = languages d.
Proof.
  induction pulls as [|pr pulls IH]; intros d; cbn [fold_left]; [done|].
  rewrite IH. apply analyzePull_frame.
Qed.

Lemma fold_analyzeCommit_languages commits : ∀ d,
  languages (fold_left analyzeCommit commits d) = languages d.
Proof.
  induction commits as [|m commits IH]; intros d; cbn [fold_left]; [done|]. by rewrite IH.
Qed.

End LanguageFacts.

(** X26. [main] counts one for a language each time a listed repository has
    it, on top of the count on file; a repository without a language counts
    for nothing; and when the repositories cannot be listed the counts stay
    as they were. Pull requests and commits never change them. *)
Theorem languages_are_counted
    (existing : option SkillTracker.Contributor) (pulls : list SkillTracker.ApiPull)
    (commits : list string) (now : string) :
  let before := SkillTracker.languages (default SkillTracker.fresh existing) in
  (∀ repos lang,
     lang ≠ "" →
     default 0 (JsObject.get
                  (SkillTracker.languages
                     (SkillTracker.main existing pulls commits (Some repos) now)) lang) =
     default 0 (JsObject.get before lang) + repos_in lang repos) ∧
  SkillTracker.languages (SkillTracker.main existing pulls commits None now) = before.
Proof.
  intros before.
  assert (Hlang : ∀ userRepos,
    SkillTracker.languages (SkillTracker.main existing pulls commits userRepos now) =
    match userRepos with
    | Some repos => fold_left SkillTracker.countLanguage repos before
    | None => before
    end).
  { intros userRepos. unfold SkillTracker.main, SkillTracker.updateGrowth.
    destruct userRepos as [repos|]; cbn [SkillTracker.growth SkillTracker.languages];
      destruct (List.find _ _); cbn [SkillTracker.languages];
      by rewrite fold_analyzeCommit_languages, fold_analyzePull_languages. }
  split; [|by rewrite Hlang].
  intros repos lang Hne. rewrite Hlang. by apply countLanguages_get.
Qed.

(** ** Worked examples *)

Section Examples.
Import ProjectVisibilityEngine.

(** The query is found, whatever the case, in a tech entry of the first two
    records; the third has no text that contains it. *)
Example search_by_tech :
  getVisibleProjects (setSearchQuery "CANVAS" (new [clock; snake; todo])) = [clock; snake].
Proof. reflexivity. Qed.

Example search_in_category :
  getVisibleProjects
    (setCategory "utility" (setSearchQuery "CANVAS" (new [clock; snake; todo]))) = [clock].
Proof. reflexivity. Qed.

Example category_all :
  getVisibleProjects (setCategory "all" (new [clock; snake; todo])) = [clock; snake; todo].
Proof. reflexivity. Qed.

Example sort_rating_high :
  applySort Collation.localeCompare some_ratings "rating-high" [clock; snake; todo] =
  Some [snake; todo; clock].
Proof. by vm_compute. Qed.

Example sort_rating_low_keeps_ties :
  applySort Collation.localeCompare some_ratings "rating-low"
            [todo; clock; snake; titled "Unrated"] =
  Some [clock; titled "Unrated"; todo; snake].
Proof. by vm_compute. Qed.

(** A record titled "Constructor" has no summary until it is rated: next to
    another record it ends the rating sorts, alone it is not compared, and
    the other modes do not read the ratings. *)
Example sort_rating_throws :
  applySort Collation.localeCompare some_ratings "rating-high"
            [snake; titled "Constructor"] = None ∧
  applySort Collation.localeCompare some_ratings "rating-high"
            [titled "Constructor"] = Some [titled "Constructor"] ∧
  applySort Collation.localeCompare some_ratings "az"
            [snake; titled "Constructor"] = Some [titled "Constructor"; snake].
Proof. by vm_compute. Qed.

(** Its card cannot be drawn either; over the skeleton cards, where the cards
    are drawn later, [render] goes through. *)
Example card_of_constructor :
  render Collation.localeCompare some_ratings default_config
         (new [snake; titled "Constructor"]) None 1 GridCards = None ∧
  render Collation.localeCompare some_ratings default_config
         (new [snake; titled "Constructor"]) None 1 GridSkeleton =
    Some (mkRendered [snake; titled "Constructor"] 1 false 1).
Proof. by vm_compute. Qed.

Example second_page :
  titleOf <$> pageOf (titled <$> ["a"; "b"; "c"; "d"; "e"]) 2 2 = ["c"; "d"].
Proof. reflexivity. Qed.

Example page_past_the_end :
  pageOf (titled <$> ["a"; "b"; "c"]) 4 2 = [].
Proof. reflexivity. Qed.

Example bots_are_hidden :
  login <$> humanContributors
    [mkContributor "alice" "" "" 12; mkContributor "dependabot[bot]" "" "" 40;
     mkContributor "bob" "" "" 3] = ["alice"; "bob"].
Proof. reflexivity. Qed.

Example contributors_error_document :
  fetchContributors true ContributorsOther = ContributorsError.
Proof. reflexivity. Qed.

(** A [null] in the legacy catalogue makes the callback of the filter
    throw, and the load ends with the error message. *)
Example null_record_is_an_error :
  fetchProjects offline offline
    (mkNetwork NetworkError (λ _, NetworkError)
               (Body (LegacyArray [JObject clock; JNull]))) = LoadError.
Proof. reflexivity. Qed.

(** So does a document of the manifest whose title is a number: it loads,
    gets the link of its entry, and the callback throws on its title. Without
    a link the same item is dropped. *)
Example non_text_title_is_an_error :
  let files (path : string) :=
    if decide (path = "2048.json") then Body (JNonTextTitle None) else Body (JObject snake) in
  let manifest link :=
    Body (mkManifest 2 (Some [mkEntry "snake.json" (Some "./projects/snake/") "snake";
                              mkEntry "2048.json" link "2048"])) in
  fetchProjects offline (mkNetwork (manifest (Some "./projects/2048/")) files NetworkError)
                offline = LoadError ∧
  fetchProjects offline (mkNetwork (manifest None) files NetworkError) offline =
    Loaded [set_link (Some "./projects/snake/") snake].
Proof. split; reflexivity. Qed.

End Examples.
